(** * Alpha15 breakout signal engine: a shallow embedding and its properties

    The development follows [alpha15.py] (credentials and symbols files,
    indicator computation, condition evaluation, session scheduler) and
    [masterlist.py] (the search for the futures of the valid names and the
    instrument list writer).

    Modelling conventions.
    - Prices and indicator values are exact rationals ([Q]) where the
      statements are about comparisons and the shape of a computation; the
      source computes on binary64 floats. Where rounding decides the
      result, in the price bins of the profile, the computation is given in
      binary64 as well (module [B64]).
    - A calendar date is its proleptic Gregorian ordinal, as
      [datetime.date.toordinal] gives it: 0001-01-01 is 1, 9999-12-31 is
      3652059. Date arithmetic outside that range raises [OverflowError].
    - Functions that can raise return a [result]; functions that return
      [None] on failure return an [option].
    - Everything that talks to the outside (clock, market data gateway,
      Telegram, sleeping) runs in the monad [M]: a computation starts at a
      step of the environment, whose answers are indexed by the step of the
      request, and gives its result together with the events it emitted.
      Of the log lines only those that the statements need are events. *)

From Stdlib Require Import ZArith QArith Qround Qabs Qminmax Lia Lqa List Bool Sorted.
From Stdlib Require Import String Ascii DecimalString.
From Stdlib Require SpecFloat.
From Equations Require Import Equations.
From stdpp Require Import base option list strings gmap sets.

Local Open Scope Z_scope.

(** ** Exceptions and results *)

Inductive exn : Type :=
| OverflowError.     (* date value out of range *)

Inductive result (A : Type) : Type :=
| Ok (a : A)
| Raise (e : exn).
Arguments Ok {A} a.
Arguments Raise {A} e.

(** ** Calendar dates *)

Module Calendar.

Definition date : Type := Z.

Definition MINORDINAL : Z := 1.
Definition MAXORDINAL : Z := 3652059.

(** [date.weekday()]: Monday is 0, Sunday is 6. *)
Definition weekday (d : date) : Z := (d + 6) mod 7.

(** [d - timedelta(days=n)]. *)
Definition sub_days (d : date) (n : Z) : result date :=
  let o := d - n in
  if (MINORDINAL <=? o) && (o <=? MAXORDINAL) then Ok o else Raise OverflowError.

Definition DAYS_IN_MONTH (month : Z) : Z :=
  match month with
  | 1 => 31 | 2 => 28 | 3 => 31 | 4 => 30 | 5 => 31 | 6 => 30
  | 7 => 31 | 8 => 31 | 9 => 30 | 10 => 31 | 11 => 30 | 12 => 31
  | _ => 0
  end.

Definition DAYS_BEFORE_MONTH (month : Z) : Z :=
  match month with
  | 1 => 0 | 2 => 31 | 3 => 59 | 4 => 90 | 5 => 120 | 6 => 151
  | 7 => 181 | 8 => 212 | 9 => 243 | 10 => 273 | 11 => 304 | 12 => 334
  | _ => 0
  end.

(** The year, month and day of an ordinal, as the [datetime] module
    computes them. *)
Definition ord2ymd (ordinal : Z) : Z * Z * Z :=
  let n := ordinal - 1 in
  let n400 := n / 146097 in
  let n := n mod 146097 in
  let year := n400 * 400 + 1 in
  let n100 := n / 36524 in
  let n := n mod 36524 in
  let n4 := n / 1461 in
  let n := n mod 1461 in
  let n1 := n / 365 in
  let n := n mod 365 in
  let year := year + n100 * 100 + n4 * 4 + n1 in
  if (n1 =? 4) || (n100 =? 4) then (year - 1, 12, 31)
  else
    let leapyear := (n1 =? 3) && (negb (n4 =? 24) || (n100 =? 3)) in
    let month := Z.shiftr (n + 50) 5 in
    let preceding :=
      DAYS_BEFORE_MONTH month + (if (2 <? month) && leapyear then 1 else 0) in
    if n <? preceding then
      let month := month - 1 in
      let preceding :=
        preceding
        - (DAYS_IN_MONTH month + (if (month =? 2) && leapyear then 1 else 0)) in
      (year, month, n - preceding + 1)
    else (year, month, n - preceding + 1).

Definition digit (n : Z) : ascii :=
  ascii_of_nat (48 + Z.to_nat (n mod 10)).

(** The last [width] decimal digits of [n], zero padded. *)
Fixpoint zero_padded (width : nat) (n : Z) : string :=
  match width with
  | O => EmptyString
  | S w => (zero_padded w (n / 10) ++ String (digit n) EmptyString)%string
  end.

(** The decimal writing of a positive number, without padding. *)
Definition decimal (n : Z) : string := NilZero.string_of_int (Z.to_int n).

(** [d.strftime('%Y-%m-%d')], as CPython 3.11 gives it through the
    [strftime] of glibc: the month and the day on two digits, the year
    without padding, so that a year below 1000 has fewer than four digits
    (0001-01-02 is written 1-01-02). *)
Definition strftime_Ymd (d : date) : string :=
  let '(y, m, dd) := ord2ymd d in
  (decimal y ++ "-" ++ zero_padded 2 m ++ "-" ++ zero_padded 2 dd)%string.

End Calendar.
Import Calendar.

(** ** [get_last_trading_day] *)

(** [x in holidays] on a list of strings. *)
Definition in_list (x : string) (l : list string) : bool :=
  existsb (String.eqb x) l.

(** The guard of the [while] loop. *)
Definition not_trading (last_day : date) (holidays : list string) : bool :=
  (5 <=? weekday last_day) || in_list (strftime_Ymd last_day) holidays.

(** Keeps the equation [x = y] when matching on [x]. *)
Definition inspect {A : Type} (x : A) : {y : A | x = y} := exist _ x eq_refl.

(** The [while] loop: as long as the guard holds, step one day back. The
    step raises below 0001-01-01, which is what bounds the loop. *)
Equations? last_trading_loop (last_day : date) (holidays : list string)
  : result date by wf (Z.to_nat last_day) lt :=
  last_trading_loop last_day holidays with not_trading last_day holidays := {
    | false := Ok last_day
    | true with inspect (sub_days last_day 1) := {
        | exist _ (Raise e) _ := Raise e
        | exist _ (Ok d) Hd := last_trading_loop d holidays } }.
Proof.
  unfold sub_days, MINORDINAL in Hd.
  destruct (_ && _) eqn:Hr in Hd; [|discriminate].
  injection Hd as <-. apply andb_prop in Hr as [H1 _]. lia.
Qed.

Definition get_last_trading_day (current_date : date)
    (holidays : option (list string)) : result date :=
  let holidays := match holidays with None => [] | Some h => h end in
  match sub_days current_date 1 with
  | Raise e => Raise e
  | Ok last_day => last_trading_loop last_day holidays
  end.

(** ** Candles and the ATR *)

(** The comparisons [x < y] and [x > y] on prices. *)
Definition Qltb (x y : Q) : bool := negb (Qle_bool y x).
Definition Qgtb (x y : Q) : bool := negb (Qle_bool x y).
Infix "<?" := Qltb : Q_scope.
Infix ">?" := Qgtb (at level 70, no associativity) : Q_scope.

Record candle : Type := { open : Q; high : Q; low : Q; close : Q }.

Section Indicators.
Local Open Scope Q_scope.

Definition sum (l : list Q) : Q := fold_left Qplus l 0.

(** [Series.mean()]. *)
Definition mean (l : list Q) : Q := sum l / inject_Z (Z.of_nat (length l)).

(** [Series.min()] and [Series.max()] of a non-empty column. *)
Definition series_min (l : list Q) : Q := fold_left Qmin (tail l) (hd 0 l).
Definition series_max (l : list Q) : Q := fold_left Qmax (tail l) (hd 0 l).

(** [Series.shift(1)]: the first row has no value (NaN), the last value
    drops out. *)
Definition shift1 (l : list Q) : list (option Q) :=
  match l with
  | [] => []
  | _ => None :: map Some (removelast l)
  end.

(** [abs(x - pc)], NaN when [pc] is. *)
Definition abs_diff (x : Q) (pc : option Q) : option Q :=
  match pc with
  | Some c => Some (Qabs (x - c))
  | None => None
  end.

(** [df[['H-L', 'H-PC', 'L-PC']].max(axis=1)] on one row: the maximum of
    the values that are not NaN; ['H-L'] always is a value. *)
Definition row_max (h_l : Q) (others : list (option Q)) : Q :=
  fold_left (fun m x => match x with Some v => Qmax m v | None => m end)
            others h_l.

(** The ['TR'] column. *)
Definition true_ranges (df : list candle) : list Q :=
  zip_with
    (fun row pc =>
       row_max (high row - low row) [abs_diff (high row) pc; abs_diff (low row) pc])
    df (shift1 (map close df)).

(** The list [atr] after the loop of Wilder's smoothing. *)
Definition wilder (TR : list Q) (len_df : nat) : list Q :=
  fold_left
    (fun atr i => atr ++ [(List.last atr 0 * (14 - 1) + nth i TR 0) / 14])
    (seq 14 (len_df - 14))
    [mean (take 14 TR)].

(** [calculate_atr] on a fetched frame. [df['ATR']] holds [atr] on the rows
    from 13 on, so its last row is the last element of [atr]. *)
Definition atr_of_frame (df : list candle) : option Q :=
  if (length df <? 15)%nat then None
  else Some (List.last (wilder (true_ranges df) (length df)) 0).

(** ** The TPO profile and its point of control *)

(** [np.arange(start, stop, step)]. *)
Definition arange (start stop step : Q) : list Q :=
  map (fun i => start + inject_Z (Z.of_nat i) * step)
      (seq 0 (Z.to_nat (Qceiling ((stop - start) / step)))).

(** A Python [dict] keyed by prices, in insertion order. *)
Definition dict (V : Type) : Type := list (Q * V).

Fixpoint dict_set {V : Type} (k : Q) (v : V) (d : dict V) : dict V :=
  match d with
  | [] => [(k, v)]
  | (k', v') :: d' =>
      if Qeq_bool k' k then (k', v) :: d' else (k', v') :: dict_set k v d'
  end.

Fixpoint dict_get {V : Type} (k : Q) (d : dict V) : option V :=
  match d with
  | [] => None
  | (k', v') :: d' => if Qeq_bool k' k then Some v' else dict_get k d'
  end.

(** [d[k] = f(d[k])] for a key that is present. *)
Definition dict_update {V : Type} (k : Q) (f : V -> V) (d : dict V) : dict V :=
  match dict_get k d with
  | Some v => dict_set k (f v) d
  | None => d
  end.

(** [{price: v for price in keys}]. *)
Definition dict_fromkeys {V : Type} (keys : list Q) (v : V) : dict V :=
  fold_left (fun d k => dict_set k v d) keys [].

Definition letters : list ascii :=
  list_ascii_of_string "ABCDEFGHIJKLMNOPQRSTUVWXYZabcdefghijklmnopqrstuvwxyz".

(** [letters[i] if i < len(letters) else '?']. *)
Definition letter_of (i : nat) : ascii := nth i letters "?"%char.

(** The body of the inner loop, for one candle and one price bin. *)
Definition mark_bin (tick_size_adj : Q) (letter : ascii) (row : candle)
    (st : dict string * dict Z) (price : Q) : dict string * dict Z :=
  let '(market_profile, tpo_count) := st in
  let price_range_low := price in
  let price_range_high := price + tick_size_adj in
  if Qle_bool (low row) price_range_high && Qle_bool price_range_low (high row)
  then (dict_update price (fun s => (s ++ String letter EmptyString)%string)
                    market_profile,
        dict_update price (fun n => (n + 1)%Z) tpo_count)
  else st.

(** The two nested loops of the profile construction. *)
Definition fill_profile (tick_size_adj : Q) (price_bins : list Q)
    (df : list candle) : dict string * dict Z :=
  fold_left
    (fun st '(i, row) =>
       fold_left (mark_bin tick_size_adj (letter_of i) row) price_bins st)
    (imap (fun i row => (i, row)) df)
    (dict_fromkeys price_bins EmptyString, dict_fromkeys price_bins 0%Z).

Record profile_row : Type :=
  { Price : Q; TPO : string; TPO_count : Z }.

(** [profile_df] before the empty bins are dropped. *)
Definition profile_frame (st : dict string * dict Z) : list profile_row :=
  let '(market_profile, tpo_count) := st in
  map (fun '(price, tpo) =>
         {| Price := price; TPO := tpo;
            TPO_count := default 0%Z (dict_get price tpo_count) |})
      market_profile.

Definition nonempty_tpo (r : profile_row) : bool :=
  negb (String.eqb (TPO r) EmptyString).

(** One step of the scan for the maximum: a later row replaces the best
    one only with a strictly larger count. *)
Definition pick (best r' : profile_row) : profile_row :=
  if (TPO_count best <? TPO_count r')%Z then r' else best.

(** [idxmax]: the first row that holds the maximum of the column. *)
Definition idxmax (rows : list profile_row) : option profile_row :=
  match rows with
  | [] => None
  | r :: rs => Some (fold_left pick rs r)
  end.

(** The point of control of a profile frame: drop the empty bins, then take
    the price of the [idxmax] row; [None] when no bin is left. *)
Definition poc_of_profile (profile_df : list profile_row) : option Q :=
  option_map Price (idxmax (filter (fun r => nonempty_tpo r = true) profile_df)).

(** [calculate_poc] on a fetched frame of 15-minute candles, in exact
    arithmetic: the bins are the exact multiples of the bin width. On floats
    the products and quotients are rounded and a bin edge can differ
    ([B64.poc_of_frame]). A zero bin width makes [np.arange] raise, which
    the function catches. *)
Definition poc_of_frame (df : list candle) (tick_size : Q) : option Q :=
  match df with
  | [] => None
  | _ =>
      let tick_size_adj := tick_size * 0.05 in
      if Qeq_bool tick_size_adj 0 then None
      else
        let min_price :=
          inject_Z (Qfloor (series_min (map low df) / tick_size_adj)) * tick_size_adj in
        let max_price :=
          inject_Z (Qceiling (series_max (map high df) / tick_size_adj)) * tick_size_adj in
        let price_bins := arange min_price (max_price + tick_size_adj) tick_size_adj in
        poc_of_profile (profile_frame (fill_profile tick_size_adj price_bins df))
  end.

End Indicators.

(** ** The profile as binary64 computes it

    [calculate_poc] on floats: the products, quotients and sums that give
    the price bins are rounded, so the bins are not the exact multiples of
    the bin width. The operations are those of IEEE 754 binary64, rounding
    to nearest even, as [SpecFloat] defines them. *)

Module B64.
Import SpecFloat.

Definition float64 : Type := spec_float.
Definition prec : Z := 53.
Definition emax : Z := 1024.

Definition add : float64 -> float64 -> float64 := SFadd prec emax.
Definition sub : float64 -> float64 -> float64 := SFsub prec emax.
Definition mul : float64 -> float64 -> float64 := SFmul prec emax.
Definition div : float64 -> float64 -> float64 := SFdiv prec emax.

(** [x <= y], [x < y] and [x == y]: false when an operand is NaN. *)
Definition leb : float64 -> float64 -> bool := SFleb.
Definition ltb : float64 -> float64 -> bool := SFltb.
Definition eqb : float64 -> float64 -> bool := SFeqb.

Definition is_nan (x : float64) : bool :=
  match x with S754_nan => true | _ => false end.

(** The float nearest to an integer. *)
Definition of_Z (n : Z) : float64 := binary_normalize prec emax n 0 false.

(** A decimal literal [n / d], [d] a power of ten: the float nearest to it. *)
Definition dec (n d : Z) : float64 := div (of_Z n) (of_Z d).

(** The literal [0.05]: 0x1.999999999999ap-5. *)
Definition c0_05 : float64 := S754_finite false 7205759403792794 (-57).

(** [np.floor] and [np.ceil]. *)
Definition floor (x : float64) : float64 :=
  match x with
  | S754_finite s m e =>
      if 0 <=? e then x
      else
        let q := Z.shiftr (Zpos m) (- e) in
        let exact := Z.shiftl q (- e) =? Zpos m in
        if s then binary_normalize prec emax (- (if exact then q else q + 1)) 0 true
        else binary_normalize prec emax q 0 false
  | _ => x
  end.

Definition ceil (x : float64) : float64 := SFopp (floor (SFopp x)).

Record candle : Type :=
  { open : float64; high : float64; low : float64; close : float64 }.

(** [Series.min()] and [Series.max()]: the NaN values are skipped, and the
    result is NaN when nothing is left. *)
Definition series_min (l : list float64) : float64 :=
  match List.filter (fun x => negb (is_nan x)) l with
  | [] => S754_nan
  | x :: xs => fold_left (fun m y => if ltb y m then y else m) xs x
  end.

Definition series_max (l : list float64) : float64 :=
  match List.filter (fun x => negb (is_nan x)) l with
  | [] => S754_nan
  | x :: xs => fold_left (fun m y => if ltb m y then y else m) xs x
  end.

(** The length of [np.arange]: the ceiling of the quotient as an [intp];
    [None] when it is NaN or out of range, where [np.arange] raises. *)
Definition arange_length (value : float64) : option Z :=
  match ceil value with
  | S754_nan | S754_infinity _ => None
  | S754_zero _ => Some 0
  | S754_finite s m e =>
      let i := cond_Zopp s (Z.shiftl (Zpos m) e) in
      if (- 2 ^ 63 <=? i) && (i <=? 2 ^ 63) then Some i else None
  end.

(** [np.arange(start, stop, step)] on floats: the first two values are
    [start] and [start + step]; the others are [start + i * delta], where
    [delta] is the difference of the first two. *)
Definition arange (start stop step : float64) : option (list float64) :=
  match arange_length (div (sub stop start) step) with
  | None => None
  | Some length =>
      let next := add start step in
      let delta := sub next start in
      Some (map (fun i =>
                   match i with
                   | O => start
                   | S O => next
                   | _ => add start (mul (of_Z (Z.of_nat i)) delta)
                   end)
                (seq 0 (Z.to_nat length)))
  end.

(** A Python [dict] keyed by floats, in insertion order; keys are found by
    [==]. *)
Definition dict (V : Type) : Type := list (float64 * V).

Fixpoint dict_set {V : Type} (k : float64) (v : V) (d : dict V) : dict V :=
  match d with
  | [] => [(k, v)]
  | (k', v') :: d' =>
      if eqb k' k then (k', v) :: d' else (k', v') :: dict_set k v d'
  end.

Fixpoint dict_get {V : Type} (k : float64) (d : dict V) : option V :=
  match d with
  | [] => None
  | (k', v') :: d' => if eqb k' k then Some v' else dict_get k d'
  end.

(** [d[k] = f(d[k])] for a key that is present. *)
Definition dict_update {V : Type} (k : float64) (f : V -> V) (d : dict V)
  : dict V :=
  match dict_get k d with
  | Some v => dict_set k (f v) d
  | None => d
  end.

Definition dict_fromkeys {V : Type} (keys : list float64) (v : V) : dict V :=
  fold_left (fun d k => dict_set k v d) keys [].

(** The body of the inner loop, for one candle and one price bin. *)
Definition mark_bin (tick_size_adj : float64) (letter : ascii) (row : candle)
    (st : dict string * dict Z) (price : float64) : dict string * dict Z :=
  let '(market_profile, tpo_count) := st in
  let price_range_low := price in
  let price_range_high := add price tick_size_adj in
  if leb (low row) price_range_high && leb price_range_low (high row)
  then (dict_update price (fun s => (s ++ String letter EmptyString)%string)
                    market_profile,
        dict_update price (fun n => (n + 1)%Z) tpo_count)
  else st.

(** The two nested loops of the profile construction. *)
Definition fill_profile (tick_size_adj : float64) (price_bins : list float64)
    (df : list candle) : dict string * dict Z :=
  fold_left
    (fun st '(i, row) =>
       fold_left (mark_bin tick_size_adj (letter_of i) row) price_bins st)
    (imap (fun i row => (i, row)) df)
    (dict_fromkeys price_bins EmptyString, dict_fromkeys price_bins 0%Z).

Record profile_row : Type :=
  { Price : float64; TPO : string; TPO_count : Z }.

Definition profile_frame (st : dict string * dict Z) : list profile_row :=
  let '(market_profile, tpo_count) := st in
  map (fun '(price, tpo) =>
         {| Price := price; TPO := tpo;
            TPO_count := default 0%Z (dict_get price tpo_count) |})
      market_profile.

Definition nonempty_tpo (r : profile_row) : bool :=
  negb (String.eqb (TPO r) EmptyString).

Definition pick (best r' : profile_row) : profile_row :=
  if (TPO_count best <? TPO_count r')%Z then r' else best.

Definition idxmax (rows : list profile_row) : option profile_row :=
  match rows with
  | [] => None
  | r :: rs => Some (fold_left pick rs r)
  end.

Definition poc_of_profile (profile_df : list profile_row) : option float64 :=
  option_map Price (idxmax (List.filter nonempty_tpo profile_df)).

(** [calculate_poc] on a fetched frame of 15-minute candles; [None] where
    the function logs an error or catches an exception. *)
Definition poc_of_frame (df : list candle) (tick_size : float64)
  : option float64 :=
  match df with
  | [] => None
  | _ =>
      let tick_size_adj := mul tick_size c0_05 in
      let min_price :=
        mul (floor (div (series_min (map low df)) tick_size_adj)) tick_size_adj in
      let max_price :=
        mul (ceil (div (series_max (map high df)) tick_size_adj)) tick_size_adj in
      match arange min_price (add max_price tick_size_adj) tick_size_adj with
      | None => None
      | Some price_bins =>
          poc_of_profile (profile_frame (fill_profile tick_size_adj price_bins df))
      end
  end.

(** A candle of the frame touches the bin that starts at [price], by the
    test of the inner loop. *)
Definition touched (tick_size_adj : float64) (df : list candle)
    (price : float64) : Prop :=
  exists row,
    In row df /\ leb (low row) (add price tick_size_adj) = true /\
    leb price (high row) = true.

(** A bar whose four prices are the same. *)
Definition flat_bar (p : float64) : candle :=
  {| open := p; high := p; low := p; close := p |}.

End B64.

(** ** The instrument list ([masterlist.py] and [load_symbols]) *)

(** An entry of [futures_list]. *)
Record future : Type :=
  { fut_symbol : string; fut_name : string; fut_token : string;
    fut_lotsize : Z; fut_tick_size : Q }.

Definition LF : ascii := ascii_of_nat 10.
Definition CR : ascii := ascii_of_nat 13.

(** [save_symbols]: the content written to the output file. *)
Definition save_symbols (futures_list : list future) : string :=
  fold_left (fun f fut => (f ++ fut_symbol fut ++ String LF EmptyString)%string)
            futures_list EmptyString.

(** Reading in text mode: a carriage return, alone or before a line feed,
    reads as a line feed. *)
Fixpoint universal_newlines (s : string) : string :=
  match s with
  | EmptyString => EmptyString
  | String c s' =>
      if Ascii.eqb c CR then
        match s' with
        | String c' s'' =>
            if Ascii.eqb c' LF then String LF (universal_newlines s'')
            else String LF (universal_newlines s')
        | EmptyString => String LF EmptyString
        end
      else String c (universal_newlines s')
  end.

(** [for line in file]: the lines of the content, without their line
    feeds (which [strip] removes anyway). *)
Fixpoint lines_from (cur : string) (s : string) : list string :=
  match s with
  | EmptyString =>
      match cur with EmptyString => [] | _ => [cur] end
  | String c s' =>
      if Ascii.eqb c LF then cur :: lines_from EmptyString s'
      else lines_from (cur ++ String c EmptyString)%string s'
  end.

(** The file is read as text: its content is given as the bytes of a
    valid UTF-8 text, and a character is one to four of them. *)

(** The white space of [str.isspace] in ASCII: U+0009 to U+000D, U+001C to
    U+001F and the space. *)
Definition is_space (c : ascii) : bool :=
  let n := nat_of_ascii c in
  ((9 <=? n) && (n <=? 13) || (28 <=? n) && (n <=? 32))%nat.

(** The white space above ASCII on two bytes: U+0085 and U+00A0. *)
Definition is_space2 (c1 c2 : ascii) : bool :=
  let n1 := nat_of_ascii c1 in
  let n2 := nat_of_ascii c2 in
  ((n1 =? 194) && ((n2 =? 133) || (n2 =? 160)))%nat.

(** On three bytes: U+1680, U+2000 to U+200A, U+2028, U+2029, U+202F,
    U+205F and U+3000. *)
Definition is_space3 (c1 c2 c3 : ascii) : bool :=
  let n1 := nat_of_ascii c1 in
  let n2 := nat_of_ascii c2 in
  let n3 := nat_of_ascii c3 in
  ((n1 =? 225) && (n2 =? 154) && (n3 =? 128)
   || (n1 =? 226) && (n2 =? 128)
      && ((128 <=? n3) && (n3 <=? 138) || (n3 =? 168) || (n3 =? 169) || (n3 =? 175))
   || (n1 =? 226) && (n2 =? 129) && (n3 =? 159)
   || (n1 =? 227) && (n2 =? 128) && (n3 =? 128))%nat.

Fixpoint lstrip (s : string) : string :=
  match s with
  | EmptyString => EmptyString
  | String c1 s1 =>
      if is_space c1 then lstrip s1
      else
        match s1 with
        | EmptyString => s
        | String c2 s2 =>
            if is_space2 c1 c2 then lstrip s2
            else
              match s2 with
              | EmptyString => s
              | String c3 s3 => if is_space3 c1 c2 c3 then lstrip s3 else s
              end
        end
  end.

(** The text from the start of [s] on is white space only. *)
Definition blank (s : string) : bool :=
  match lstrip s with EmptyString => true | _ => false end.

Fixpoint rstrip (s : string) : string :=
  match s with
  | EmptyString => EmptyString
  | String c s' => if blank s then EmptyString else String c (rstrip s')
  end.

(** [line.strip()]. *)
Definition strip (s : string) : string := rstrip (lstrip s).

(** [load_symbols] on the content of [symbols.txt]. *)
Definition load_symbols (file : string) : list string :=
  omap (fun line =>
          match strip line with
          | EmptyString => None
          | l => Some l
          end)
       (lines_from EmptyString (universal_newlines file)).

(** An element of [symbol_data]. *)
Record item : Type := { symbol : string; tick_size : Q }.

(** [[{"symbol": s, "tick_size": 0.05} for s in symbols]]. *)
Definition symbol_data (symbols : list string) : list item :=
  map (fun s => {| symbol := s; tick_size := 0.05%Q |}) symbols.

(** [clean_stock_name]: the part of the symbol before the first occurrence
    of the decimal writing of [expiry_day]. *)
Fixpoint split_first (pat s : string) : string :=
  match s with
  | EmptyString => EmptyString
  | String c s' =>
      if String.prefix pat s then EmptyString else String c (split_first pat s')
  end.

Definition clean_stock_name (fut_symbol : string) (expiry_day : Z) : string :=
  split_first (NilZero.string_of_int (Z.to_int expiry_day)) fut_symbol.

(** ** The outside world *)

Inductive side : Type := BUY | SELL.

(** [datetime.now(ist)]: the date and the time of day. *)
Record datetime : Type := { day : date; hour : Z; minute : Z }.

(** What a call to the OpenAlgo client gives. *)
Inductive api_result (A : Type) : Type :=
| ApiSuccess (data : A)   (* status 'success', with the value under 'data' *)
| ApiFailure              (* any other answer *)
| ApiException.           (* the call raised *)
Arguments ApiSuccess {A} data.
Arguments ApiFailure {A}.
Arguments ApiException {A}.

(** The text of an alert: side, stock name and price. *)
Record message : Type :=
  { msg_side : side; msg_stock : string; msg_ltp : Q }.

(** The environment answers each request by the step at which it is made. *)
Record Env : Type :=
  { clock : nat -> datetime;
    (* symbol, exchange, interval, start_date, end_date *)
    client_history :
      nat -> string -> string -> string -> string -> string ->
      api_result (list candle);
    (* symbol, exchange; the data may lack 'ltp' *)
    client_quotes : nat -> string -> string -> api_result (option Q);
    (* the 'date' of each entry, when it has one *)
    client_holidays : nat -> api_result (list (option string));
    (* [requests.post] returns ([true]) or raises ([false]) *)
    requests_post : nat -> message -> bool }.

(** What an observer of a run sees. *)
Inductive event : Type :=
| Checking (symbol : string) (tick_size : Q) (holidays : option (list string))
    (* entry of [check_trading_conditions] *)
| OutsideWindow (symbol : string)
| History (symbol interval start_date end_date : string)
| Quotes (symbol : string)
| Holidays (holiday_dates : list string)
| Telegram (m : message) (delivered : bool)
| Sleep (seconds : Z)
| NewDay                       (* [alerted_symbols.clear()] *)
| Alerted (symbol : string)    (* [alerted_symbols.add(symbol)] *)
| SkipAlerted (symbol : string).

(** A computation starts at a step of the environment and gives its
    result, the step it ends at, and the events it emitted. *)
Definition M (A : Type) : Type := nat -> result A * nat * list event.

Definition ret {A : Type} (a : A) : M A := fun n => (Ok a, n, []).

Definition bind {A B : Type} (m : M A) (k : A -> M B) : M B :=
  fun n =>
    match m n with
    | (Ok a, n', tr) => let '(r, n'', tr') := k a n' in (r, n'', tr ++ tr')
    | (Raise e, n', tr) => (Raise e, n', tr)
    end.

Declare Scope monad_scope.
Delimit Scope monad_scope with monad.
Notation "x <- m ;; k" := (bind m (fun x => k))
  (at level 100, m at next level, k at level 200, right associativity)
  : monad_scope.
Notation "m ;; k" := (bind m (fun _ => k))
  (at level 100, k at level 200, right associativity) : monad_scope.
Local Open Scope monad_scope.

(** A pure computation that may raise. *)
Definition lift {A : Type} (r : result A) : M A := fun n => (r, n, []).

(** [try: m except Exception: ...], with the outcome handed to the handler. *)
Definition try {A : Type} (m : M A) : M (result A) :=
  fun n => let '(r, n', tr) := m n in (Ok r, n', tr).

Definition emit (e : event) : M unit := fun n => (Ok tt, n, [e]).

(** The index of the next request to the environment. *)
Definition step : M nat := fun n => (Ok n, S n, []).

Definition sleep (seconds : Z) : M unit := emit (Sleep seconds).

Section Engine.
Context (env : Env).

Definition now : M datetime := n <- step ;; ret (clock env n).

(** [get_holidays]. *)
Definition get_holidays : M (list string) :=
  n <- step ;;
  let holiday_dates :=
    match client_holidays env n with
    | ApiSuccess holidays_data =>
        omap (fun h =>
                match h with
                | Some EmptyString => None
                | Some d => Some d
                | None => None
                end)
             holidays_data
    | _ => []
    end in
  emit (Holidays holiday_dates) ;;
  ret holiday_dates.

(** [send_telegram_message]: up to [max_retries] posts; tells whether one
    was delivered. *)
Fixpoint send_attempts (retries : list Z) (max_retries : Z) (m : message)
  : M bool :=
  match retries with
  | [] => ret false
  | retry :: rest =>
      n <- step ;;
      let delivered := requests_post env n m in
      emit (Telegram m delivered) ;;
      if delivered then ret true
      else
        (if retry <? max_retries - 1 then sleep 1 else ret tt) ;;
        send_attempts rest max_retries m
  end.

Definition send_telegram_message (m : message) : M bool :=
  let max_retries := 3 in
  send_attempts [0; 1; 2] max_retries m.

(** A [client.history] request whose answer passes
    [status == 'success' and data]. *)
Definition fetch_history (symbol exchange interval start_date end_date : string)
  : M (option (list candle)) :=
  n <- step ;;
  emit (History symbol interval start_date end_date) ;;
  match client_history env n symbol exchange interval start_date end_date with
  | ApiSuccess (row :: rows) => ret (Some (row :: rows))
  | _ => ret None
  end.

(** [calculate_atr]. *)
Definition calculate_atr (symbol exchange : string) : M (option Q) :=
  t <- now ;;
  let today := day t in
  from_date <- lift (sub_days today 90) ;;
  hist <- fetch_history symbol exchange "D"
            (strftime_Ymd from_date) (strftime_Ymd today) ;;
  match hist with
  | Some df => ret (atr_of_frame df)
  | None => ret None
  end.

(** [calculate_poc]. *)
Definition calculate_poc (symbol : string) (tick_size : Q) (exchange : string)
    (holidays : option (list string)) : M (option Q) :=
  t <- now ;;
  let today := day t in
  yesterday <- lift (get_last_trading_day today holidays) ;;
  hist <- fetch_history symbol exchange "15m"
            (strftime_Ymd yesterday) (strftime_Ymd yesterday) ;;
  match hist with
  | Some df => ret (poc_of_frame df tick_size)
  | None => ret None
  end.

(** [get_15min_candles]. *)
Definition get_15min_candles (symbol exchange : string)
  : M (option (list candle)) :=
  t <- now ;;
  let today := day t in
  current_time <- now ;;
  if (hour current_time <? 9)
     || ((hour current_time =? 9) && (minute current_time <? 30))
  then ret None
  else fetch_history symbol exchange "15m"
         (strftime_Ymd today) (strftime_Ymd today).

(** [get_ltp]. *)
Definition get_ltp (symbol exchange : string) : M (option Q) :=
  n <- step ;;
  emit (Quotes symbol) ;;
  match client_quotes env n symbol exchange with
  | ApiSuccess ltp => ret ltp
  | _ => ret None
  end.

(** Lines 321-360 of [check_trading_conditions]: the decision and its
    notification. *)
Definition decide_signal (symbol : string) (expiry_day : Z)
    (poc atr fc_open fc_low fc_high current_ltp : Q) : M (option side) :=
  let open_to_high := (fc_high - fc_open)%Q in
  let open_to_low := (fc_open - fc_low)%Q in
  if (fc_open >? poc)%Q then
    let buy_conditions :=
      [ (fc_open >? poc)%Q; (atr >? open_to_high)%Q; (current_ltp >? fc_high)%Q ] in
    if forallb id buy_conditions then
      let stock_name := clean_stock_name symbol expiry_day in
      send_telegram_message
        {| msg_side := BUY; msg_stock := stock_name; msg_ltp := current_ltp |} ;;
      ret (Some BUY)
    else ret None
  else if (fc_open <? poc)%Q then
    let sell_conditions :=
      [ (fc_open <? poc)%Q; (atr >? open_to_low)%Q; (current_ltp <? fc_low)%Q ] in
    if forallb id sell_conditions then
      let stock_name := clean_stock_name symbol expiry_day in
      send_telegram_message
        {| msg_side := SELL; msg_stock := stock_name; msg_ltp := current_ltp |} ;;
      ret (Some SELL)
    else ret None
  else ret None.

(** [check_trading_conditions]. *)
Definition check_trading_conditions (symbol : string) (tick_size : Q)
    (expiry_day : Z) (exchange : string) (holidays : option (list string))
  : M (option side) :=
  current_time <- now ;;
  emit (Checking symbol tick_size holidays) ;;
  (if negb ((hour current_time =? 9)
            && ((30 <=? minute current_time) && (minute current_time <=? 45)))
   then emit (OutsideWindow symbol)   (* the early return is commented out *)
   else ret tt) ;;
  poc <- calculate_poc symbol tick_size exchange holidays ;;
  match poc with
  | None => ret None
  | Some poc =>
      candles_15min <- get_15min_candles symbol exchange ;;
      match candles_15min with
      | None => ret None
      | Some [] => ret None
      | Some [_] => ret None
      | Some (first_candle :: _ :: _) =>
          atr <- calculate_atr symbol exchange ;;
          match atr with
          | None => ret None
          | Some atr =>
              let fc_open := open first_candle in
              let fc_low := low first_candle in
              let fc_high := high first_candle in
              current_ltp <- get_ltp symbol exchange ;;
              match current_ltp with
              | None => ret None
              | Some current_ltp =>
                  decide_signal symbol expiry_day
                                poc atr fc_open fc_low fc_high current_ltp
              end
          end
      end
  end.

(** ** The session scheduler *)

Record session : Type :=
  { alerted_symbols : gset string;
    current_date : date;
    holidays_of : list string }.

(** One instrument inside [try]: evaluate, record the alert, pause. *)
Definition evaluate_item (expiry_day : Z) (holidays : list string)
    (alerted : gset string) (it : item) : M (gset string) :=
  signal <- check_trading_conditions (symbol it) (tick_size it) expiry_day
              "NFO" (Some holidays) ;;
  alerted' <- match signal with
              | Some _ => emit (Alerted (symbol it)) ;;
                          ret ({[ symbol it ]} ∪ alerted)
              | None => ret alerted
              end ;;
  sleep 2 ;;
  ret alerted'.

(** The primary pass over [symbol_data]: the alerted set and the list
    [failed_symbols] when it ends. *)
Fixpoint primary_pass (expiry_day : Z) (holidays : list string)
    (items : list item) (alerted : gset string) (failed_symbols : list item)
  : M (gset string * list item) :=
  match items with
  | [] => ret (alerted, failed_symbols)
  | it :: rest =>
      if decide (symbol it ∈ alerted) then
        emit (SkipAlerted (symbol it)) ;;
        primary_pass expiry_day holidays rest alerted failed_symbols
      else
        r <- try (evaluate_item expiry_day holidays alerted it) ;;
        match r with
        | Ok alerted' =>
            primary_pass expiry_day holidays rest alerted' failed_symbols
        | Raise _ =>
            sleep 2 ;;
            primary_pass expiry_day holidays rest alerted (failed_symbols ++ [it])
        end
  end.

(** The retry pass over [failed_symbols]. *)
Fixpoint retry_pass (expiry_day : Z) (holidays : list string)
    (failed_symbols : list item) (alerted : gset string) : M (gset string) :=
  match failed_symbols with
  | [] => ret alerted
  | it :: rest =>
      if decide (symbol it ∈ alerted) then
        emit (SkipAlerted (symbol it)) ;;
        retry_pass expiry_day holidays rest alerted
      else
        r <- try (evaluate_item expiry_day holidays alerted it) ;;
        match r with
        | Ok alerted' => retry_pass expiry_day holidays rest alerted'
        | Raise _ => sleep 2 ;; retry_pass expiry_day holidays rest alerted
        end
  end.

Inductive control : Type := Continue | Break.

(** The reset at the top of the loop body. *)
Definition rollover (current_time : datetime) (st : session) : M session :=
  if current_date st <? day current_time then
    emit NewDay ;;
    holidays <- get_holidays ;;
    ret {| alerted_symbols := ∅;
           current_date := day current_time;
           holidays_of := holidays |}
  else ret st.

(** The rest of the loop body, from the window test on. *)
Definition window_body (expiry_day : Z) (symbols : list string)
    (current_time : datetime) (st : session) : M (control * session) :=
  if (9 <? hour current_time)
     || ((hour current_time =? 9) && (45 <? minute current_time))
  then ret (Break, st)
  else if (hour current_time <? 9)
          || ((hour current_time =? 9) && (minute current_time <? 30))
  then sleep 60 ;; ret (Continue, st)
  else
    p <- primary_pass expiry_day (holidays_of st) (symbol_data symbols)
           (alerted_symbols st) [] ;;
    let '(alerted, failed_symbols) := p in
    alerted <- match failed_symbols with
               | [] => ret alerted
               | _ => retry_pass expiry_day (holidays_of st) failed_symbols alerted
               end ;;
    let st' := {| alerted_symbols := alerted;
                  current_date := current_date st;
                  holidays_of := holidays_of st |} in
    if (size alerted =? length symbols)%nat then ret (Break, st')
    else sleep 5 ;; ret (Continue, st').

(** One iteration of [while True]. *)
Definition cycle (expiry_day : Z) (symbols : list string) (st : session)
  : M (control * session) :=
  current_time <- now ;;
  st <- rollover current_time st ;;
  window_body expiry_day symbols current_time st.

(** At most [fuel] iterations of the loop; [true] when it was left by
    [break]. *)
Fixpoint run_cycles (fuel : nat) (expiry_day : Z) (symbols : list string)
    (st : session) : M bool :=
  match fuel with
  | O => ret false
  | S fuel' =>
      p <- cycle expiry_day symbols st ;;
      match p with
      | (Break, _) => ret true
      | (Continue, st') => run_cycles fuel' expiry_day symbols st'
      end
  end.

(** [signal_detection], its loop bounded by [fuel]. *)
Definition signal_detection (fuel : nat) (symbols : list string)
    (expiry_day : Z) : M bool :=
  holidays <- get_holidays ;;
  t <- now ;;
  run_cycles fuel expiry_day symbols
    {| alerted_symbols := ∅; current_date := day t; holidays_of := holidays |}.

End Engine.

(** ** [masterlist.py]: the futures of the valid names *)

(** Valid stock names to track. *)
Definition VALID_NAMES : list string :=
  ["ACC"; "ANGELONE"; "ASIANPAINT"; "ASTRAL"; "AUROPHARMA"; "DMART";
    "AXISBANK"; "BSE"; "BAJAJ-AUTO"; "BAJFINANCE"; "BAJAJFINSV";
    "BHARATFORG"; "BHARTIARTL"; "BRITANNIA"; "CDSL"; "CHOLAFIN"; "CIPLA";
    "COALINDIA"; "COFORGE"; "COLPAL"; "CAMS"; "COROMANDEL"; "CUMMINSIND";
    "CYIENT"; "DLF"; "DABUR"; "DALBHARAT"; "DEEPAKNTR"; "DIVISLAB"; "DIXON";
    "LALPATHLAB"; "DRREDDY"; "EICHERMOT"; "ESCORTS"; "GODREJCP";
    "GODREJPROP"; "GRASIM"; "HCLTECH"; "HDFCAMC"; "HDFCBANK"; "HDFCLIFE";
    "HAVELLS"; "HEROMOTOCO"; "HINDALCO"; "HAL"; "HINDUNILVR"; "ICICIBANK";
    "ICICIGI"; "ICICIPRULI"; "IRCTC"; "INDUSINDBK"; "NAUKRI"; "INFY";
    "INDIGO"; "JKCEMENT"; "JSWSTEEL"; "JSL"; "JINDALSTEL"; "JUBLFOOD";
    "KOTAKBANK"; "LTF"; "LTTS"; "LTIM"; "LT"; "LUPIN"; "MGL"; "M&M"; "MFSL";
    "METROPOLIS"; "MPHASIS"; "MCX"; "MUTHOOTFIN"; "NESTLEIND"; "OBEROIRLTY";
    "PVRINOX"; "PERSISTENT"; "POLYCAB"; "RELIANCE"; "SBICARD"; "SBILIFE";
    "SRF"; "SHRIRAMFIN"; "SBIN"; "SUNPHARMA"; "TATACONSUM"; "TVSMOTOR";
    "TATACHEM"; "TCS"; "TATAMOTORS"; "TECHM"; "INDHOTEL"; "TITAN";
    "TORNTPHARM"; "TORNTPOWER"; "TRENT"; "TIINDIA"; "UBL"; "UNITDSPR";
    "VOLTAS"; "ZYDUSLIFE" ]%string.

(** An entry of a search result: the fields that [get_futures_symbols]
    reads; [None] is a key that the entry does not have. *)
Record instrument : Type :=
  { ins_symbol : option string; ins_token : option string;
    ins_lotsize : option Z; ins_tick_size : option Q }.

(** [pat in s] on strings. *)
Fixpoint contains (pat s : string) : bool :=
  match s with
  | EmptyString => String.prefix pat s
  | String _ s' => String.prefix pat s || contains pat s'
  end.

(** [str.upper] on ASCII text. *)
Definition ascii_upper (s : string) : string :=
  string_of_list_ascii
    (map (fun c =>
            let n := nat_of_ascii c in
            if ((97 <=? n) && (n <=? 122))%nat then ascii_of_nat (n - 32) else c)
         (list_ascii_of_string s)).

Section Masterlist.
(** [str.upper], and the answers of [client.search] on the exchange NFO:
    the call for the name at position [i] of [VALID_NAMES] is answered by
    [search i]. *)
Variable upper : string -> string.
Variable search : nat -> string -> api_result (list instrument).

(** The dictionary appended to [futures_list]. *)
Definition entry_of (stock : string) (ins : instrument) : future :=
  {| fut_symbol := default EmptyString (ins_symbol ins);
     fut_name := stock;
     fut_token := default EmptyString (ins_token ins);
     fut_lotsize := default 1 (ins_lotsize ins);
     fut_tick_size := default 0.05%Q (ins_tick_size ins) |}.

(** The filter of the inner loop: a FUT contract of the month. *)
Definition is_future_of (expiry_month symbol : string) : bool :=
  contains "FUT" symbol && contains (upper expiry_month) (upper symbol).

(** The inner loop: the first instrument that passes the filter is taken,
    and the loop is left. *)
Fixpoint first_future (expiry_month stock : string) (data : list instrument)
  : option future :=
  match data with
  | [] => None
  | ins :: rest =>
      let symbol := default EmptyString (ins_symbol ins) in
      if is_future_of expiry_month symbol then Some (entry_of stock ins)
      else first_future expiry_month stock rest
  end.

(** The body of the outer loop, for the name at position [i]. *)
Definition search_stock (expiry_month : string) (futures_list : list future)
    (i : nat) (stock : string) : list future :=
  match search i stock with
  | ApiSuccess (ins :: rest) =>
      match first_future expiry_month stock (ins :: rest) with
      | Some fut => futures_list ++ [fut]
      | None => futures_list
      end
  | _ => futures_list    (* no data, a failure, or an exception that is caught *)
  end.

(** [get_futures_symbols]. *)
Definition get_futures_symbols (expiry_month : string) : list future :=
  fold_left
    (fun futures_list '(i, stock) => search_stock expiry_month futures_list i stock)
    (imap (fun i stock => (i, stock)) VALID_NAMES)
    [].

End Masterlist.

(** ** [load_credentials] *)

(** [s.split("=", 1)] on a string that holds an equals sign: the text
    before the first one and the text after it. *)
Fixpoint split_equals (s : string) : string * string :=
  match s with
  | EmptyString => (EmptyString, EmptyString)
  | String c s' =>
      if Ascii.eqb c "="%char then (EmptyString, s')
      else let '(key, value) := split_equals s' in (String c key, value)
  end.

(** [load_credentials] on the content of [credentials.txt]: the dictionary
    [creds]. *)
Definition load_credentials (file : string) : gmap string string :=
  fold_left
    (fun creds line =>
       if contains "=" line then
         let '(key, value) := split_equals (strip line) in
         <[ key := value ]> creds
       else creds)
    (lines_from EmptyString (universal_newlines file))
    ∅.


(** ** Sample data

    A Monday session (2024-01-29, ordinal 738914) after a Friday holiday:
    the previous trading day is Thursday 2024-01-25. *)

Definition bar (o h l c : Q) : candle :=
  {| open := o; high := h; low := l; close := c |}.

(** Fifteen daily bars, each of true range 4. *)
Definition sample_daily : list candle := repeat (bar 100 104 100 100) 15.

(** The 15-minute bars of the previous trading day; their POC is 99.9975. *)
Definition sample_yesterday : list candle :=
  [bar 100 100.005 99.995 100; bar 100 100.01 100 100; bar 100 100.005 100 100].

(** The first bars of the session: open 102, high 105, low 101. *)
Definition sample_today : list candle :=
  [bar 102 105 101 104; bar 104 106 104 105].

(** A gateway that always answers, read at a fixed time of day. *)
Definition sample_env (today : date) (h m : Z) (ltp : Q) : Env :=
  {| clock := fun _ => {| day := today; hour := h; minute := m |};
     client_history := fun _ _ _ interval start_date _ =>
       if String.eqb interval "D" then ApiSuccess sample_daily
       else if String.eqb start_date (strftime_Ymd today) then ApiSuccess sample_today
       else ApiSuccess sample_yesterday;
     client_quotes := fun _ _ _ => ApiSuccess (Some ltp);
     client_holidays := fun _ => ApiSuccess [Some "2024-01-26"%string];
     requests_post := fun _ _ => true |}.

(** Fifteen daily bars: fourteen of true range 1, then one of true range 15. *)
Definition atr_boundary_frame : list candle :=
  repeat (bar 1 2 1 1) 14 ++ [bar 1 16 1 1].

(** Three bins with counts 2, 2 and 1. *)
Definition tie_profile : list profile_row :=
  [ {| Price := 100; TPO := "AB"; TPO_count := 2 |};
    {| Price := 100.0025; TPO := "AC"; TPO_count := 2 |};
    {| Price := 100.005; TPO := "B"; TPO_count := 1 |} ].

(** A session that runs into the next day: from step 22 on, where the
    second iteration starts, the clock shows 2024-01-30. The price of the
    first symbol is above the first high, that of the others is not. *)
Definition rollover_env : Env :=
  {| clock := fun n =>
       {| day := if (n <? 22)%nat then 738914 else 738915;
          hour := 9; minute := 35 |};
     client_history := fun n _ _ interval start_date _ =>
       if String.eqb interval "D" then ApiSuccess sample_daily
       else if String.eqb start_date
                 (if (n <? 22)%nat then "2024-01-29" else "2024-01-30")
       then ApiSuccess sample_today
       else ApiSuccess sample_yesterday;
     client_quotes := fun _ symbol _ =>
       if String.eqb symbol "ACC28AUG25FUT" then ApiSuccess (Some 106%Q)
       else ApiSuccess (Some 104%Q);
     client_holidays := fun _ => ApiSuccess [Some "2024-01-26"%string];
     requests_post := fun _ _ => true |}.

Definition sample_symbols : list string :=
  ["ACC28AUG25FUT"; "TCS28AUG25FUT"]%string.

(** What [masterlist.py] collects for an instrument whose tick size is 0.10. *)
Definition sample_futures : list future :=
  [ {| fut_symbol := "ACC28AUG25FUT"; fut_name := "ACC"; fut_token := "1";
       fut_lotsize := 300; fut_tick_size := 0.10%Q |} ].

(** ** Vocabulary of the statements *)

(** A trading day for a holiday list: Monday to Friday, and its date as
    [strftime_Ymd] writes it is not in the list. *)
Definition trading_day (holidays : list string) (d : date) : Prop :=
  weekday d < 5 /\ ~ In (strftime_Ymd d) holidays.

(** The latest trading day strictly before [current_date]. *)
Definition last_trading_day_before (holidays : list string)
    (current_date d : date) : Prop :=
  MINORDINAL <= d < current_date /\ trading_day holidays d /\
  (forall d', d < d' < current_date -> ~ trading_day holidays d').

(** The outcome of a computation started at step [n]: its value or its
    exception. *)
Definition outcome {A : Type} (m : M A) (n : nat) : result A := fst (fst (m n)).

(** The events it emits. *)
Definition events {A : Type} (m : M A) (n : nat) : list event := snd (m n).

(** A computation that cannot raise. *)
Definition total {A : Type} (m : M A) : Prop :=
  forall n, exists a n' tr, m n = (Ok a, n', tr).

(** [b] is the first row of [rows] with the largest count, among the rows
    whose TPO string is not empty. *)
Definition first_maximum (rows : list profile_row) (b : profile_row) : Prop :=
  exists pre post,
    rows = pre ++ b :: post /\ TPO b <> EmptyString /\
    (forall x, In x pre -> TPO x <> EmptyString -> TPO_count x < TPO_count b) /\
    (forall x, In x post -> TPO x <> EmptyString -> TPO_count x <= TPO_count b).

(** The rows are in ascending price order. *)
Definition ascending_prices (rows : list profile_row) : Prop :=
  StronglySorted (fun a b => (Price a < Price b)%Q) rows.

(** [b] holds the first maximum of the counts of [rows]. *)
Definition first_max_of (rows : list profile_row) (b : profile_row) : Prop :=
  exists pre post,
    rows = pre ++ b :: post /\
    (forall x, In x pre -> TPO_count x < TPO_count b) /\
    (forall x, In x post -> TPO_count x <= TPO_count b).

(** Every event that [m] emits satisfies [P], whatever its outcome. *)
Definition emits {A : Type} (P : event -> Prop) (m : M A) : Prop :=
  forall n r n' tr, m n = (r, n', tr) -> Forall P tr.

(** The events of the requests made while one instrument is evaluated. *)
Definition leaf (e : event) : Prop :=
  match e with
  | OutsideWindow _ | History _ _ _ _ | Quotes _ | Telegram _ _ | Sleep _ => True
  | _ => False
  end.

(** The events of a pass over [items] with the holiday list [holidays]:
    no reset, no holiday request, and every evaluation is that of an item
    of the list, with its tick size and the holiday list of the pass. *)
Definition pass_event (holidays : list string) (items : list item) (e : event)
  : Prop :=
  match e with
  | NewDay | Holidays _ => False
  | Checking s t h =>
      h = Some holidays /\ exists it, In it items /\ symbol it = s /\ tick_size it = t
  | _ => True
  end.

(** The alerted set as the events change it. *)
Definition update (alerted : gset string) (e : event) : gset string :=
  match e with
  | Alerted s => {[ s ]} ∪ alerted
  | NewDay => ∅
  | _ => alerted
  end.

Definition replay (alerted : gset string) (tr : list event) : gset string :=
  fold_left update tr alerted.

(** Every evaluation in [tr] is that of a symbol which is not in the
    alerted set at that point, the set being [alerted] at the start. *)
Fixpoint guarded (alerted : gset string) (tr : list event) : Prop :=
  match tr with
  | [] => True
  | e :: tr' =>
      match e with Checking s _ _ => s ∉ alerted | _ => True end
      /\ guarded (update alerted e) tr'
  end.

(** The monitoring window test of [check_trading_conditions]. *)
Definition in_window (t : datetime) : bool :=
  (hour t =? 9) && ((30 <=? minute t) && (minute t <=? 45)).

(** The guard of [get_15min_candles]. *)
Definition before_first_candle (t : datetime) : bool :=
  (hour t <? 9) || ((hour t =? 9) && (minute t <? 30)).

(** What a pass leaves: the alerted set that the events of the pass give,
    every evaluation being that of a symbol not yet alerted. *)
Definition pass_post (holidays : list string) (items : list item)
    (A A' : gset string) (tr : list event) : Prop :=
  Forall (pass_event holidays items) tr /\ guarded A tr /\ A' = replay A tr.

(** Every evaluation carries the tick size 0.05 and a symbol of the list. *)
Definition known_check (symbols : list string) (e : event) : Prop :=
  match e with
  | Checking s t _ => t = 0.05%Q /\ In s symbols
  | _ => True
  end.

(** [profile_df] as [calculate_poc] builds it from a frame, before the empty
    bins are dropped. *)
Definition profile_of_frame (df : list candle) (tick_size : Q) : list profile_row :=
  let tick_size_adj := (tick_size * 0.05)%Q in
  let min_price :=
    (inject_Z (Qfloor (series_min (map low df) / tick_size_adj)) * tick_size_adj)%Q in
  let max_price :=
    (inject_Z (Qceiling (series_max (map high df) / tick_size_adj)) * tick_size_adj)%Q in
  let price_bins := arange min_price (max_price + tick_size_adj)%Q tick_size_adj in
  profile_frame (fill_profile tick_size_adj price_bins df).


(** The order of the floats that are not NaN, as a lexicographic order:
    the sign and class, then the exponent, then the mantissa. *)
Definition b64_rank (x : B64.float64) : Z * Z * Z :=
  match x with
  | SpecFloat.S754_nan => (0, 0, 0)
  | SpecFloat.S754_infinity true => (-2, 0, 0)
  | SpecFloat.S754_infinity false => (2, 0, 0)
  | SpecFloat.S754_zero _ => (0, 0, 0)
  | SpecFloat.S754_finite true m e => (-1, - e, Zneg m)
  | SpecFloat.S754_finite false m e => (1, e, Zpos m)
  end.

Definition b64_rank_le (a b : Z * Z * Z) : Prop :=
  let '(a1, a2, a3) := a in
  let '(b1, b2, b3) := b in
  a1 < b1 \/ (a1 = b1 /\ (a2 < b2 \/ (a2 = b2 /\ a3 <= b3))).


(** Every bin of the market profile that has letters is touched by a
    candle. *)
Definition b64_profile_invariant (tick_size_adj : B64.float64)
    (df : list B64.candle) (st : B64.dict string * B64.dict Z) : Prop :=
  forall k v, In (k, v) (fst st) -> v <> EmptyString ->
              B64.touched tick_size_adj df k.

(** The evaluations, the posts and the pauses of a trace. *)
Definition is_check (e : event) : bool :=
  match e with Checking _ _ _ => true | _ => false end.

Definition is_post (e : event) : bool :=
  match e with Telegram _ _ => true | _ => false end.

Definition is_sleep (e : event) : bool :=
  match e with Sleep _ => true | _ => false end.

Definition checks (tr : list event) : nat := length (List.filter is_check tr).

Definition posts (tr : list event) : list event := List.filter is_post tr.

(** The test that ends the loop of [signal_detection]. *)
Definition after_window (t : datetime) : bool :=
  (9 <? hour t) || ((hour t =? 9) && (45 <? minute t)).

(** A post of [r]'s signal for the stock of [symbol], when [e] is a post. *)
Definition notifies (symbol : string) (expiry_day : Z)
    (r : result (option side)) (e : event) : Prop :=
  match e with
  | Telegram m _ =>
      r = Ok (Some (msg_side m)) /\
      msg_stock m = clean_stock_name symbol expiry_day
  | _ => True
  end.

(** A computation never moves the step counter back. *)
Definition advances {A : Type} (m : M A) : Prop :=
  forall n r n' tr, m n = (r, n', tr) -> (n <= n')%nat.

(** The run of a computation: its events are posts of the signal it
    returns, and a signal comes with a post. *)
Definition notified (symbol : string) (expiry_day : Z)
    (m : M (option side)) : Prop :=
  forall n r n' tr, m n = (r, n', tr) ->
    Forall (notifies symbol expiry_day r) tr /\
    (forall s, r = Ok (Some s) ->
       exists msg d, In (Telegram msg d) tr /\ msg_side msg = s).


(** What the search for the name at position [i] contributes. *)
Definition found (upper : string -> string)
    (search : nat -> string -> api_result (list instrument))
    (expiry_month : string) (i : nat) (stock : string) : option future :=
  match search i stock with
  | ApiSuccess data => first_future upper expiry_month stock data
  | _ => None
  end.

(** A search that answers for ACC and TCS only: an option and two futures
    of ACC, and an entry without symbol for TCS. *)
Definition sample_search (i : nat) (stock : string)
  : api_result (list instrument) :=
  if String.eqb stock "ACC" then
    ApiSuccess
      [ {| ins_symbol := Some "ACC28AUG25400CE"%string; ins_token := Some "7"%string;
           ins_lotsize := Some 300; ins_tick_size := Some 0.05%Q |};
        {| ins_symbol := Some "ACC28AUG25FUT"%string; ins_token := None;
           ins_lotsize := None; ins_tick_size := None |};
        {| ins_symbol := Some "ACC25SEP25FUT"%string; ins_token := Some "9"%string;
           ins_lotsize := Some 300; ins_tick_size := Some 0.10%Q |} ]
  else if String.eqb stock "TCS" then
    ApiSuccess
      [ {| ins_symbol := None; ins_token := Some "3"%string;
           ins_lotsize := Some 175; ins_tick_size := Some 0.10%Q |} ]
  else if String.eqb stock "INFY" then ApiException
  else ApiFailure.

(** A symbol that comes back from the file as it was written: it is not
    empty, [strip] leaves it as it is, and it holds no line break. *)
Fixpoint single_line (s : string) : bool :=
  match s with
  | EmptyString => true
  | String c s' => negb (Ascii.eqb c LF) && negb (Ascii.eqb c CR) && single_line s'
  end.

Definition clean_symbol (s : string) : bool :=
  negb (String.eqb s EmptyString) && String.eqb (strip s) s && single_line s.

(** No character of the name is a decimal digit. *)
Fixpoint no_digit (s : string) : bool :=
  match s with
  | EmptyString => true
  | String c s' =>
      negb ((48 <=? nat_of_ascii c) && (nat_of_ascii c <=? 57))%nat && no_digit s'
  end.

(** The lines of a text file: each followed by a line feed. *)
Fixpoint text_of (lines : list string) : string :=
  match lines with
  | [] => EmptyString
  | s :: rest => (s ++ String LF (text_of rest))%string
  end.

(** A line [key=value] of the credentials file. *)
Definition credential_line (kv : string * string) : string :=
  (fst kv ++ "=" ++ snd kv)%string.

(** The key holds no equals sign, and the line is one line that [strip]
    leaves as it is. *)
Definition clean_credential (kv : string * string) : bool :=
  negb (contains "=" (fst kv)) && single_line (credential_line kv)
  && String.eqb (strip (credential_line kv)) (credential_line kv).

(** * Properties *)

(** ** The last trading day *)

Lemma in_list_In x l : in_list x l = true <-> In x l.
Proof.
  unfold in_list. rewrite existsb_exists. split.
  - intros (y & Hy & Heq). apply String.eqb_eq in Heq. now subst.
  - intros Hx. exists x. split; [exact Hx | apply String.eqb_refl].
Qed.

Lemma not_trading_false holidays d :
  not_trading d holidays = false <-> trading_day holidays d.
Proof.
  unfold not_trading, trading_day. rewrite orb_false_iff, Z.leb_gt.
  rewrite <- in_list_In. destruct (in_list _ _); intuition congruence.
Qed.

Lemma not_trading_true holidays d :
  not_trading d holidays = true <-> ~ trading_day holidays d.
Proof.
  rewrite <- not_trading_false. destruct (not_trading d holidays); intuition congruence.
Qed.

Lemma sub_days_Ok d n o :
  sub_days d n = Ok o <-> o = d - n /\ MINORDINAL <= o <= MAXORDINAL.
Proof.
  unfold sub_days. cbv zeta.
  destruct (_ && _) eqn:Hr.
  - apply andb_prop in Hr as [H1 H2]. split.
    + intros [= <-]. lia.
    + intros [-> _]. reflexivity.
  - apply andb_false_iff in Hr. split; [discriminate |].
    intros [-> ?]. lia.
Qed.

Lemma sub_days_Raise d n e :
  sub_days d n = Raise e <->
  e = OverflowError /\ ~ (MINORDINAL <= d - n <= MAXORDINAL).
Proof.
  unfold sub_days. cbv zeta.
  destruct (_ && _) eqn:Hr.
  - apply andb_prop in Hr as [H1 H2]. split; [discriminate | intros [_ ?]; lia].
  - apply andb_false_iff in Hr. split; [intros [= <-] | intros _; now destruct e].
    split; [reflexivity | lia].
Qed.

(** The loop stops on the first trading day at or below its start. *)
Lemma last_trading_loop_Ok d holidays r :
  last_trading_loop d holidays = Ok r ->
  r <= d /\ (MINORDINAL <= d -> MINORDINAL <= r) /\ trading_day holidays r /\
  (forall d', r < d' <= d -> ~ trading_day holidays d').
Proof.
  funelim (last_trading_loop d holidays); intros Hr.
  - injection Hr as <-. rewrite <- not_trading_false.
    repeat split; [lia | tauto | assumption | lia].
  - pose proof (proj1 (sub_days_Ok _ _ _) Hd) as [Hdeq Hrange].
    match goal with IH : forall r, _ = Ok r -> _ |- _ =>
      destruct (IH _ Hr) as (Hle & Hmin & Htr & Hbelow) end.
    split; [lia | split; [lia | split; [assumption |]]].
    intros d' Hd'. destruct (Z.eq_dec d' last_day) as [-> | Hne].
    + now apply not_trading_true.
    + apply Hbelow. lia.
  - discriminate.
Qed.

(** The loop raises only when it runs below the first date. *)
Lemma last_trading_loop_Raise d holidays e :
  d <= MAXORDINAL ->
  last_trading_loop d holidays = Raise e ->
  e = OverflowError /\
  (forall d', MINORDINAL <= d' <= d -> ~ trading_day holidays d').
Proof.
  funelim (last_trading_loop d holidays); intros Hmax Hr.
  - discriminate.
  - pose proof (proj1 (sub_days_Ok _ _ _) Hd) as [Hdeq Hrange].
    match goal with IH : forall e, _ -> _ = Raise e -> _ |- _ =>
      assert (Hmax' : d <= MAXORDINAL) by lia;
      destruct (IH e Hmax' Hr) as (He & Hbelow) end.
    split; [assumption |].
    intros d' Hd'. destruct (Z.eq_dec d' last_day) as [-> | Hne].
    + now apply not_trading_true.
    + apply Hbelow. lia.
  - injection Hr as <-.
    match goal with H : sub_days _ _ = Raise _ |- _ =>
      pose proof (proj1 (sub_days_Raise _ _ _) H) as [-> Hout] end.
    split; [reflexivity |].
    intros d' Hd'. unfold MINORDINAL in *.
    assert (d' = last_day) as -> by lia.
    now apply not_trading_true.
Qed.

Lemma last_trading_day_before_unique holidays current_date d1 d2 :
  last_trading_day_before holidays current_date d1 ->
  last_trading_day_before holidays current_date d2 -> d1 = d2.
Proof.
  intros (R1 & T1 & B1) (R2 & T2 & B2).
  destruct (Z.lt_trichotomy d1 d2) as [Hlt | [Heq | Hgt]]; [| assumption |].
  - exfalso. apply (B1 d2); [lia | assumption].
  - exfalso. apply (B2 d1); [lia | assumption].
Qed.

(** The outcome of [get_last_trading_day], by cases. *)
Lemma get_last_trading_day_cases current_date holidays :
  MINORDINAL <= current_date <= MAXORDINAL ->
  (exists d, get_last_trading_day current_date (Some holidays) = Ok d /\
             last_trading_day_before holidays current_date d) \/
  (get_last_trading_day current_date (Some holidays) = Raise OverflowError /\
   forall d, MINORDINAL <= d < current_date -> ~ trading_day holidays d).
Proof.
  intros Hvalid. unfold get_last_trading_day, last_trading_day_before.
  destruct (sub_days current_date 1) as [last_day | e] eqn:Hsub.
  - apply sub_days_Ok in Hsub as [-> Hrange].
    destruct (last_trading_loop (current_date - 1) holidays) as [r | e] eqn:Hloop.
    + left. exists r. split; [reflexivity |].
      pose proof (last_trading_loop_Ok _ _ _ Hloop) as (Hle & Hmin & Htr & Hbelow).
      split; [lia | split; [assumption |]].
      intros d' Hd'. apply Hbelow. lia.
    + right.
      assert (Hmax : current_date - 1 <= MAXORDINAL) by lia.
      pose proof (last_trading_loop_Raise _ _ _ Hmax Hloop) as (-> & Hbelow).
      split; [reflexivity |]. intros d Hd. apply Hbelow. lia.
  - right. apply sub_days_Raise in Hsub as [-> Hout].
    split; [reflexivity |]. intros d Hd. unfold MINORDINAL in *. lia.
Qed.

(** C10 (as the code has it). For a date of the calendar and a holiday list,
    [get_last_trading_day] always gives an outcome: the latest date strictly
    before the given one that is a weekday and whose date, as
    [strftime('%Y-%m-%d')] writes it, is not in the list, when there is one
    from 0001-01-01 on, and [OverflowError] when there is none. *)
Theorem get_last_trading_day_spec (current_date : date) (holidays : list string) :
  MINORDINAL <= current_date <= MAXORDINAL ->
  (forall d, get_last_trading_day current_date (Some holidays) = Ok d
             <-> last_trading_day_before holidays current_date d) /\
  (get_last_trading_day current_date (Some holidays) = Raise OverflowError
   <-> ~ exists d, MINORDINAL <= d < current_date /\ trading_day holidays d) /\
  ((exists d, MINORDINAL <= d < current_date /\ trading_day holidays d) ->
   exists d, get_last_trading_day current_date (Some holidays) = Ok d).
Proof.
  intros Hvalid.
  destruct (get_last_trading_day_cases current_date holidays Hvalid)
    as [(r & Hr & Hlast) | (Hraise & Hnone)].
  - split; [| split].
    + intros d. rewrite Hr. split.
      * intros [= <-]. exact Hlast.
      * intros Hd. f_equal. eapply last_trading_day_before_unique; eassumption.
    + rewrite Hr. split; [discriminate |].
      intros Hno. exfalso. apply Hno. exists r.
      destruct Hlast as (? & ? & _). now split.
    + intros _. now exists r.
  - split; [| split].
    + intros d. rewrite Hraise. split; [discriminate |].
      intros (Hd & Htr & _). exfalso. exact (Hnone d Hd Htr).
    + split; [| intros _; exact Hraise].
      intros _ (d & Hd & Htr). exact (Hnone d Hd Htr).
    + intros (d & Hd & Htr). exfalso. exact (Hnone d Hd Htr).
Qed.

(** The Monday after a Friday holiday: the Thursday before it. *)
Lemma get_last_trading_day_spec_witness :
  (MINORDINAL <= 738914 <= MAXORDINAL) /\
  get_last_trading_day 738914 (Some ["2024-01-26"%string]) = Ok 738910 /\
  last_trading_day_before ["2024-01-26"%string] 738914 738910.
Proof.
  assert (Hv : MINORDINAL <= 738914 <= MAXORDINAL) by (unfold MINORDINAL, MAXORDINAL; lia).
  assert (Hr : get_last_trading_day 738914 (Some ["2024-01-26"%string]) = Ok 738910)
    by (vm_compute; reflexivity).
  split; [exact Hv | split; [exact Hr |]].
  exact (proj1 (proj1 (get_last_trading_day_spec 738914 ["2024-01-26"%string] Hv) 738910) Hr).
Defined.

(** C10 (as stated) fails on the first date of the calendar: no date lies
    before 0001-01-01, and the subtraction raises. *)
Lemma get_last_trading_day_date_min :
  ~ exists d, get_last_trading_day MINORDINAL (Some []) = Ok d.
Proof. intros (d & Hd). vm_compute in Hd. discriminate. Qed.

Example strftime_samples :
  map strftime_Ymd
    [1; 365; 366; 364877; 364878; 719163; 738886; 738945; 738885; 3652059]
  = ["1-01-01"; "1-12-31"; "2-01-01"; "999-12-31"; "1000-01-01"; "1970-01-01";
     "2024-01-01"; "2024-02-29"; "2023-12-31"; "9999-12-31"]%string.
Proof. vm_compute. reflexivity. Qed.

(** Below the year 1000 a holiday written with a padded year is not
    recognised: 0001-01-02, a Tuesday, is returned although the list holds
    its ISO date; written as [strftime] writes it, it is skipped. *)
Example holiday_before_year_1000 :
  get_last_trading_day 3 (Some ["0001-01-02"%string]) = Ok 2 /\
  get_last_trading_day 3 (Some ["1-01-02"%string]) = Ok 1.
Proof. split; vm_compute; reflexivity. Qed.

(** ** The breakout decision *)

Lemma Qgtb_lt x y : (x >? y)%Q = true <-> (y < x)%Q.
Proof.
  unfold Qgtb. rewrite negb_true_iff. split.
  - intros Hle. apply Qnot_le_lt. intros H. apply Qle_bool_iff in H. congruence.
  - intros Hlt. destruct (Qle_bool x y) eqn:Hle; [| reflexivity].
    apply Qle_bool_iff in Hle. exfalso. exact (Qlt_not_le _ _ Hlt Hle).
Qed.

Lemma Qltb_lt x y : (x <? y)%Q = true <-> (x < y)%Q.
Proof. exact (Qgtb_lt y x). Qed.

Lemma total_ret {A : Type} (a : A) : total (ret a).
Proof. intros n. now exists a, n, []. Qed.

Lemma total_bind {A B : Type} (m : M A) (k : A -> M B) :
  total m -> (forall a, total (k a)) -> total (x <- m ;; k x).
Proof.
  intros Hm Hk n. destruct (Hm n) as (a & n1 & tr1 & Hn). unfold bind. rewrite Hn.
  destruct (Hk a n1) as (b & n2 & tr2 & ->). now eexists _, _, _.
Qed.

Lemma total_emit e : total (emit e).
Proof. intros n. eexists _, _, _. reflexivity. Qed.

Lemma total_step : total step.
Proof. intros n. eexists _, _, _. reflexivity. Qed.

Lemma total_try {A : Type} (m : M A) : total (try m).
Proof.
  intros n. unfold try. destruct (m n) as [[r n'] tr]. now exists r, n', tr.
Qed.

Create HintDb total discriminated.
#[local] Hint Resolve total_ret total_emit total_step total_try : total.

Ltac total_steps :=
  repeat first
    [ apply total_bind; [| intros ? ]
    | solve [ auto with total ]
    | match goal with |- total (if ?b then _ else _) => destruct b end
    | match goal with |- total (match ?x with _ => _ end) => destruct x end ].

Lemma total_sleep n : total (sleep n).
Proof. apply total_emit. Qed.
#[local] Hint Resolve total_sleep : total.

Lemma total_send_attempts env retries max_retries m :
  total (send_attempts env retries max_retries m).
Proof. induction retries as [| retry rest IH]; simpl; total_steps. Qed.

Lemma total_send_telegram_message env m : total (send_telegram_message env m).
Proof. apply total_send_attempts. Qed.
#[local] Hint Resolve total_send_telegram_message : total.

Lemma outcome_bind_total {A B : Type} (m : M A) (b : B) n :
  total m -> outcome (m ;; ret b) n = Ok b.
Proof.
  intros Hm. unfold outcome, bind. destruct (Hm n) as (a & n' & tr & ->).
  reflexivity.
Qed.

(** C1. The decision is BUY exactly when the open is above the POC, the ATR
    exceeds the open-to-high range and the price is above the first high;
    SELL exactly when the open is below the POC, the ATR exceeds the
    open-to-low range and the price is below the first low; nothing in
    every other case, in particular whenever the open equals the POC. *)
Theorem decide_signal_spec (env : Env) (symbol : string) (expiry_day : Z)
    (poc atr fc_open fc_low fc_high current_ltp : Q) (n : nat) :
  let signal :=
    outcome (decide_signal env symbol expiry_day
               poc atr fc_open fc_low fc_high current_ltp) n in
  let buy := (poc < fc_open /\ fc_high - fc_open < atr /\ fc_high < current_ltp)%Q in
  let sell := (fc_open < poc /\ fc_open - fc_low < atr /\ current_ltp < fc_low)%Q in
  (signal = Ok (Some BUY) <-> buy) /\
  (signal = Ok (Some SELL) <-> sell) /\
  (signal = Ok None <-> ~ buy /\ ~ sell) /\
  ((fc_open == poc)%Q -> signal = Ok None).
Proof.
  cbv zeta. unfold decide_signal. simpl forallb. unfold id.
  rewrite !andb_true_r.
  pose proof (Qgtb_lt fc_open poc) as Hop.
  pose proof (Qltb_lt fc_open poc) as Hpo.
  pose proof (Qgtb_lt atr (fc_high - fc_open)) as Hah.
  pose proof (Qgtb_lt atr (fc_open - fc_low)) as Hal.
  pose proof (Qgtb_lt current_ltp fc_high) as Hbh.
  pose proof (Qltb_lt current_ltp fc_low) as Hbl.
  assert (Hex : (poc < fc_open)%Q -> (fc_open < poc)%Q -> False).
  { intros H1 H2. exact (Qlt_irrefl _ (Qlt_trans _ _ _ H1 H2)). }
  assert (Heq1 : (fc_open == poc)%Q -> ~ (poc < fc_open)%Q).
  { intros E H. rewrite E in H. exact (Qlt_irrefl _ H). }
  assert (Heq2 : (fc_open == poc)%Q -> ~ (fc_open < poc)%Q).
  { intros E H. rewrite E in H. exact (Qlt_irrefl _ H). }
  destruct (fc_open >? poc)%Q; simpl;
    [ destruct (atr >? fc_high - fc_open)%Q, (current_ltp >? fc_high)%Q; simpl
    | destruct (fc_open <? poc)%Q; simpl;
      [ destruct (atr >? fc_open - fc_low)%Q, (current_ltp <? fc_low)%Q; simpl | ] ];
    rewrite ?outcome_bind_total by auto with total;
    unfold outcome, ret; simpl;
    intuition (try discriminate; try congruence).
Qed.

(** An open on the POC gives no signal, whatever the other values. *)
Lemma decide_signal_spec_witness :
  (100 == 100)%Q /\
  outcome (decide_signal (sample_env 738914 9 35 106) "ACC28AUG25FUT" 28
             100 4 100 99 105 106) 0%nat = Ok None.
Proof.
  split; [reflexivity |].
  exact (proj2 (proj2 (proj2
           (decide_signal_spec (sample_env 738914 9 35 106) "ACC28AUG25FUT" 28
              100 4 100 99 105 106 0%nat)))
         (Qeq_refl 100)).
Defined.

(** The scenarios of the specification: POC 100, first candle 102/105/101,
    ATR 4. Above the first high the signal is BUY, below it there is none. *)
Example decide_signal_scenarios :
  outcome (decide_signal (sample_env 738914 9 35 106) "ACC28AUG25FUT" 28
             100 4 102 101 105 106) 0%nat = Ok (Some BUY) /\
  outcome (decide_signal (sample_env 738914 9 35 104) "ACC28AUG25FUT" 28
             100 4 102 101 105 104) 0%nat = Ok None.
Proof. split; vm_compute; reflexivity. Qed.

(** ** The ATR *)

Lemma atr_of_frame_None df : atr_of_frame df = None <-> (length df < 15)%nat.
Proof.
  unfold atr_of_frame. destruct (length df <? 15)%nat eqn:Hlen.
  - apply Nat.ltb_lt in Hlen. tauto.
  - apply Nat.ltb_ge in Hlen. split; [discriminate | lia].
Qed.

Lemma atr_of_frame_Some df :
  (15 <= length df)%nat -> exists v, atr_of_frame df = Some v.
Proof.
  intros Hlen. destruct (atr_of_frame df) as [v |] eqn:Hatr; [now exists v |].
  apply atr_of_frame_None in Hatr. lia.
Qed.

(** What [calculate_atr] returns when the daily history is fetched. *)
Lemma calculate_atr_fetched env symbol exchange n df :
  let today := day (clock env n) in
  MINORDINAL <= today - 90 <= MAXORDINAL ->
  client_history env (S n) symbol exchange "D"
    (strftime_Ymd (today - 90)) (strftime_Ymd today) = ApiSuccess df ->
  outcome (calculate_atr env symbol exchange) n = Ok (atr_of_frame df).
Proof.
  intros today Hrange Hfetch. subst today.
  unfold outcome, calculate_atr, now, fetch_history, bind, step, ret, lift, emit.
  simpl.
  assert (Hsub : sub_days (day (clock env n)) 90 = Ok (day (clock env n) - 90)).
  { apply sub_days_Ok. split; [reflexivity | assumption]. }
  rewrite Hsub. simpl. rewrite Hfetch.
  destruct df as [| row rows]; reflexivity.
Qed.

(** C6. On a fetched daily history, [calculate_atr] returns [None] exactly
    when the history has fewer than 15 bars, and a value for 15 bars or
    more; in both cases it returns and does not raise. *)
Theorem calculate_atr_insufficient_data (env : Env) (symbol exchange : string)
    (n : nat) (df : list candle) :
  let today := day (clock env n) in
  MINORDINAL <= today - 90 <= MAXORDINAL ->
  client_history env (S n) symbol exchange "D"
    (strftime_Ymd (today - 90)) (strftime_Ymd today) = ApiSuccess df ->
  (outcome (calculate_atr env symbol exchange) n = Ok None
   <-> (length df < 15)%nat) /\
  ((15 <= length df)%nat ->
   exists v, outcome (calculate_atr env symbol exchange) n = Ok (Some v)).
Proof.
  intros today Hrange Hfetch.
  rewrite (calculate_atr_fetched env symbol exchange n df Hrange Hfetch).
  split.
  - rewrite <- atr_of_frame_None. split; [intros [= ->] | intros ->]; reflexivity.
  - intros Hlen. destruct (atr_of_frame_Some df Hlen) as (v & ->). now exists v.
Qed.

(** Fifteen bars are enough, fourteen are not. *)
Lemma calculate_atr_insufficient_data_witness :
  (exists v, outcome (calculate_atr (sample_env 738914 9 35 106) "ACC28AUG25FUT" "NFO")
               0%nat = Ok (Some v)) /\
  outcome
    (calculate_atr
       {| clock := clock (sample_env 738914 9 35 106);
          client_history := fun _ _ _ _ _ _ => ApiSuccess (take 14 sample_daily);
          client_quotes := client_quotes (sample_env 738914 9 35 106);
          client_holidays := client_holidays (sample_env 738914 9 35 106);
          requests_post := requests_post (sample_env 738914 9 35 106) |}
       "ACC28AUG25FUT" "NFO") 0%nat = Ok None.
Proof.
  split.
  - apply (calculate_atr_insufficient_data (sample_env 738914 9 35 106)
             "ACC28AUG25FUT" "NFO" 0%nat sample_daily).
    + vm_compute. split; discriminate.
    + reflexivity.
    + vm_compute. lia.
  - apply (calculate_atr_insufficient_data _ "ACC28AUG25FUT" "NFO" 0%nat
             (take 14 sample_daily)).
    + vm_compute. split; discriminate.
    + reflexivity.
    + vm_compute. lia.
Defined.

(** After one smoothing step the list [atr] has two elements. *)
Lemma wilder_15 TR :
  wilder TR 15
  = [mean (take 14 TR); ((mean (take 14 TR) * (14 - 1) + nth 14 TR 0) / 14)%Q].
Proof. reflexivity. Qed.

(** C2 (as the code has it). On exactly 15 daily bars the ATR is the mean
    of the first 14 true ranges smoothed once with the 15th:
    (mean * 13 + TR[14]) / 14. *)
Theorem atr_at_boundary_length (df : list candle) :
  length df = 15%nat ->
  exists v,
    atr_of_frame df = Some v /\
    (v == (mean (take 14 (true_ranges df)) * 13 + nth 14 (true_ranges df) 0) / 14)%Q.
Proof.
  intros Hlen. unfold atr_of_frame. rewrite Hlen. simpl Nat.ltb. cbv iota.
  rewrite wilder_15. eexists. split; [reflexivity |].
  simpl List.last. field.
Qed.

Lemma atr_at_boundary_length_witness :
  length sample_daily = 15%nat /\
  exists v,
    atr_of_frame sample_daily = Some v /\
    (v == (mean (take 14 (true_ranges sample_daily)) * 13
           + nth 14 (true_ranges sample_daily) 0) / 14)%Q.
Proof.
  split; [reflexivity |].
  exact (atr_at_boundary_length sample_daily eq_refl).
Defined.

(** C2 (as stated) fails: with fourteen true ranges of 1 and a fifteenth of
    15, the ATR is 2 and the mean of the first fourteen is 1. *)
Lemma atr_boundary_is_smoothed :
  ~ (forall v, atr_of_frame atr_boundary_frame = Some v ->
               (v == mean (take 14 (true_ranges atr_boundary_frame)))%Q).
Proof.
  intros H. specialize (H _ eq_refl). vm_compute in H. discriminate H.
Qed.

Example atr_boundary_values :
  exists v, atr_of_frame atr_boundary_frame = Some v /\ (v == 2)%Q /\
            (mean (take 14 (true_ranges atr_boundary_frame)) == 1)%Q.
Proof. eexists. split; [reflexivity |]. split; reflexivity. Qed.

(** ** The point of control of a profile *)

Lemma nonempty_tpo_true r : nonempty_tpo r = true <-> TPO r <> EmptyString.
Proof.
  unfold nonempty_tpo. rewrite negb_true_iff.
  destruct (String.eqb_spec (TPO r) EmptyString); intuition congruence.
Qed.

Lemma first_max_of_snoc rows b x :
  first_max_of rows b -> first_max_of (rows ++ [x]) (pick b x).
Proof.
  intros (pre & post & -> & Hpre & Hpost). unfold pick.
  destruct (TPO_count b <? TPO_count x) eqn:Hlt.
  - apply Z.ltb_lt in Hlt. exists (pre ++ b :: post), []. split; [reflexivity |].
    split; [| intros y []].
    intros y Hy. apply in_app_or in Hy as [Hy | [<- | Hy]].
    + specialize (Hpre y Hy). lia.
    + exact Hlt.
    + specialize (Hpost y Hy). lia.
  - apply Z.ltb_ge in Hlt. exists pre, (post ++ [x]).
    split; [now rewrite <- app_assoc |]. split; [exact Hpre |].
    intros y Hy. apply in_app_or in Hy as [Hy | [<- | []]]; [now apply Hpost | exact Hlt].
Qed.

Lemma first_max_of_fold rs : forall rows b,
  first_max_of rows b -> first_max_of (rows ++ rs) (fold_left pick rs b).
Proof.
  induction rs as [| x rs IH]; intros rows b Hb; simpl.
  - now rewrite app_nil_r.
  - replace (rows ++ x :: rs) with ((rows ++ [x]) ++ rs) by now rewrite <- app_assoc.
    apply IH, first_max_of_snoc, Hb.
Qed.

Lemma idxmax_first_max rows :
  rows <> [] -> exists b, idxmax rows = Some b /\ first_max_of rows b.
Proof.
  destruct rows as [| r rs]; [congruence | intros _].
  exists (fold_left pick rs r). split; [reflexivity |].
  apply (first_max_of_fold rs [r] r).
  exists [], []. split; [reflexivity |]. split; intros y [].
Qed.

(** Splitting a filtered list splits the list. *)
Lemma filter_split {A : Type} (P : A -> Prop) `{!forall x, Decision (P x)}
    (l : list A) : forall pre b post,
  filter P l = pre ++ b :: post ->
  exists pre' post',
    l = pre' ++ b :: post' /\ filter P pre' = pre /\ filter P post' = post /\ P b.
Proof.
  induction l as [| a l IH]; intros pre b post Heq.
  - destruct pre; discriminate.
  - rewrite filter_cons in Heq. destruct (decide (P a)) as [Ha | Ha].
    + destruct pre as [| c pre]; simpl in Heq.
      * injection Heq as -> Hpost. exists [], l. rewrite filter_nil. auto.
      * injection Heq as -> Hrest. destruct (IH _ _ _ Hrest) as (pre' & post' & -> & <- & <- & Hb).
        exists (c :: pre'), post'. rewrite filter_cons_True by assumption. auto.
    + destruct (IH _ _ _ Heq) as (pre' & post' & -> & <- & <- & Hb).
      exists (a :: pre'), post'. rewrite filter_cons_False by assumption. auto.
Qed.

Lemma In_filter {A : Type} (P : A -> Prop) `{!forall x, Decision (P x)}
    (l : list A) x : In x l -> P x -> In x (filter P l).
Proof.
  intros Hin HP. apply list_elem_of_In, list_elem_of_filter.
  split; [assumption | now apply list_elem_of_In].
Qed.

(** What [poc_of_profile] returns on a profile with a non-empty bin. *)
Lemma poc_of_profile_first_maximum profile_df :
  (exists r, In r profile_df /\ TPO r <> EmptyString) ->
  exists b, poc_of_profile profile_df = Some (Price b) /\ first_maximum profile_df b.
Proof.
  intros (r & Hin & Hr). unfold poc_of_profile.
  set (P := fun r : profile_row => nonempty_tpo r = true).
  assert (Hne : filter P profile_df <> []).
  { intros Hnil. assert (Hr' : In r (filter P profile_df)).
    { apply In_filter; [assumption | now apply nonempty_tpo_true]. }
    rewrite Hnil in Hr'. destruct Hr'. }
  destruct (idxmax_first_max _ Hne) as (b & -> & pre & post & Hsplit & Hpre & Hpost).
  exists b. split; [reflexivity |].
  destruct (filter_split P _ _ _ _ Hsplit) as (pre' & post' & -> & <- & <- & Hb).
  exists pre', post'. split; [reflexivity |].
  split; [now apply nonempty_tpo_true |].
  split; intros x Hx Hxne.
  - apply Hpre, In_filter; [assumption | now apply nonempty_tpo_true].
  - apply Hpost, In_filter; [assumption | now apply nonempty_tpo_true].
Qed.

Lemma first_maximum_lowest_price rows b :
  first_maximum rows b -> ascending_prices rows ->
  forall x, In x rows -> TPO x <> EmptyString -> TPO_count x = TPO_count b ->
            (Price b <= Price x)%Q.
Proof.
  intros (pre & post & -> & Hb & Hpre & Hpost) Hsorted x Hx Hxne Hcount.
  apply in_app_or in Hx as [Hx | [<- | Hx]].
  - specialize (Hpre x Hx Hxne). lia.
  - apply Qle_refl.
  - unfold ascending_prices in Hsorted.
    assert (Hs : StronglySorted (fun a b => (Price a < Price b)%Q) (b :: post)).
    { clear -Hsorted. induction pre as [| a pre IH]; [exact Hsorted |].
      apply IH. now inversion Hsorted. }
    inversion Hs as [| ? ? _ Hall]. subst.
    rewrite Forall_forall in Hall. apply Qlt_le_weak, Hall.
    now apply list_elem_of_In.
Qed.

(** C3. On a profile with a non-empty bin the point of control is the price
    of a non-empty bin of maximal count, the first such bin of the profile;
    the profile being in ascending price order, it is the lowest priced of
    the bins that share the maximum. *)
Theorem poc_is_first_maximum (profile_df : list profile_row) :
  (exists r, In r profile_df /\ TPO r <> EmptyString) ->
  exists b,
    poc_of_profile profile_df = Some (Price b) /\
    In b profile_df /\ TPO b <> EmptyString /\
    (forall x, In x profile_df -> TPO x <> EmptyString ->
               TPO_count x <= TPO_count b) /\
    first_maximum profile_df b /\
    (ascending_prices profile_df ->
     forall x, In x profile_df -> TPO x <> EmptyString ->
               TPO_count x = TPO_count b -> (Price b <= Price x)%Q).
Proof.
  intros Hne.
  destruct (poc_of_profile_first_maximum profile_df Hne) as (b & Hpoc & Hfirst).
  exists b. split; [exact Hpoc |].
  pose proof Hfirst as (pre & post & -> & Hb & Hpre & Hpost).
  split; [apply in_or_app; right; now left |].
  split; [exact Hb |].
  split.
  - intros x Hx Hxne. apply in_app_or in Hx as [Hx | [<- | Hx]].
    + specialize (Hpre x Hx Hxne). lia.
    + lia.
    + now apply Hpost.
  - split; [exact Hfirst |].
    intros Hsorted. now apply first_maximum_lowest_price.
Qed.

(** The example of the specification: counts 2, 2, 1 on three bins. *)
Example poc_tie_example (p1 p2 p3 : Q) :
  poc_of_profile [ {| Price := p1; TPO := "AB"; TPO_count := 2 |};
                   {| Price := p2; TPO := "AC"; TPO_count := 2 |};
                   {| Price := p3; TPO := "B"; TPO_count := 1 |} ] = Some p1.
Proof. reflexivity. Qed.

Lemma poc_is_first_maximum_witness :
  exists b,
    poc_of_profile tie_profile = Some (Price b) /\ (Price b == 100)%Q /\
    forall x, In x tie_profile -> TPO x <> EmptyString ->
              TPO_count x = TPO_count b -> (Price b <= Price x)%Q.
Proof.
  assert (Hne : exists r, In r tie_profile /\ TPO r <> EmptyString).
  { eexists. split; [left; reflexivity | discriminate]. }
  destruct (poc_is_first_maximum tie_profile Hne)
    as (b & Hpoc & _ & _ & _ & _ & Hlow).
  exists b. split; [exact Hpoc |].
  split; [injection Hpoc as <-; reflexivity |].
  apply Hlow. unfold ascending_prices, tie_profile.
  repeat constructor.
Defined.

(** ** Folds, the selected row and the maximum of a column *)

(** An invariant of a left fold that every step on an element of the list
    preserves. *)
Lemma fold_left_invariant {A B : Type} (P : A -> Prop) (f : A -> B -> A)
    (l : list B) : forall a,
  P a -> (forall a x, In x l -> P a -> P (f a x)) -> P (fold_left f l a).
Proof.
  induction l as [| x l IH]; intros a Ha Hstep; simpl; [exact Ha |].
  apply IH.
  - apply Hstep; [now left | exact Ha].
  - intros a' y Hy. apply Hstep. now right.
Qed.

Lemma idxmax_In rows b : idxmax rows = Some b -> In b rows.
Proof.
  intros Hb. destruct rows as [| r rs]; [discriminate |].
  destruct (idxmax_first_max (r :: rs) ltac:(discriminate))
    as (b' & Hb' & pre & post & -> & _).
  rewrite Hb in Hb'. injection Hb' as <-. apply in_or_app. right. now left.
Qed.

(** The point of control is the price of a row with letters. *)
Lemma poc_of_profile_Some profile_df poc :
  poc_of_profile profile_df = Some poc ->
  exists r, In r profile_df /\ TPO r <> EmptyString /\ poc = Price r.
Proof.
  unfold poc_of_profile. intros Hpoc.
  destruct (idxmax _) as [b |] eqn:Hb; [| discriminate].
  injection Hpoc as <-. apply idxmax_In in Hb.
  apply list_elem_of_In, list_elem_of_filter in Hb as [Hne Hin].
  exists b. split; [now apply list_elem_of_In |].
  split; [now apply nonempty_tpo_true | reflexivity].
Qed.

Section Bounds.
Local Open Scope Q_scope.

Lemma fold_Qmax_le l : forall a,
  a <= fold_left Qmax l a /\ forall x, In x l -> x <= fold_left Qmax l a.
Proof.
  induction l as [| y l IH]; intros a; simpl.
  - split; [apply Qle_refl | intros x []].
  - destruct (IH (Qmax a y)) as [H1 H2]. split.
    + eapply Qle_trans; [apply Q.le_max_l | exact H1].
    + intros x [<- | Hx]; [| now apply H2].
      eapply Qle_trans; [apply Q.le_max_r | exact H1].
Qed.

Lemma series_max_ge l x : In x l -> x <= series_max l.
Proof.
  destruct l as [| a l]; [intros [] |]. unfold series_max. simpl.
  destruct (fold_Qmax_le l a) as [H1 H2]. intros [<- | Hx]; auto.
Qed.

End Bounds.

(** ** The point of control and the range of the candles, in binary64 *)

Section B64Order.
Import SpecFloat.

(** Two floats that compare equal are the same float or two zeros. *)
Lemma b64_eqb_cases k p :
  B64.eqb k p = true ->
  k = p \/ exists s1 s2, k = S754_zero s1 /\ p = S754_zero s2.
Proof.
  unfold B64.eqb, SFeqb.
  destruct k as [s1 | s1 | | s1 m1 e1], p as [s2 | s2 | | s2 m2 e2]; simpl;
    try discriminate; try (destruct s1; discriminate);
    try (destruct s2; discriminate).
  - intros _. right. now exists s1, s2.
  - destruct s1, s2; try discriminate; intros _; now left.
  - destruct s1, s2; try discriminate;
      destruct (Z.compare_spec e1 e2) as [-> | |]; try discriminate;
      destruct (Pos.compare_cont Eq m1 m2) eqn:Hm; try discriminate;
      apply Pos.compare_eq in Hm as ->; intros _; now left.
Qed.

Lemma b64_leb_zero_l s1 s2 y :
  B64.leb (S754_zero s1) y = B64.leb (S754_zero s2) y.
Proof. now destruct y. Qed.

Lemma b64_leb_zero_r s1 s2 x :
  B64.leb x (S754_zero s1) = B64.leb x (S754_zero s2).
Proof. now destruct x. Qed.

Lemma b64_leb_add_zero s1 s2 x adj :
  B64.leb x (B64.add (S754_zero s1) adj) = B64.leb x (B64.add (S754_zero s2) adj).
Proof.
  destruct adj as [s | s | | s m e]; try reflexivity.
  destruct s1, s2, s; simpl; try reflexivity; apply b64_leb_zero_r.
Qed.

Lemma b64_leb_rank x y :
  B64.is_nan x = false -> B64.is_nan y = false ->
  (B64.leb x y = true <-> b64_rank_le (b64_rank x) (b64_rank y)).
Proof.
  unfold B64.leb, SFleb, b64_rank_le.
  destruct x as [s1 | s1 | | s1 m1 e1], y as [s2 | s2 | | s2 m2 e2];
    try discriminate; intros _ _;
    try destruct s1; try destruct s2; simpl;
    try rewrite Pos.compare_cont_spec; simpl;
    try destruct (Z.compare_spec e1 e2) as [-> | |];
    try destruct (Pos.compare_spec m1 m2) as [-> | |]; simpl;
    (split; intros Hgoal; solve [ reflexivity | discriminate Hgoal | lia | exfalso; lia ]).
Qed.

Lemma b64_rank_le_trans a b c :
  b64_rank_le a b -> b64_rank_le b c -> b64_rank_le a c.
Proof.
  destruct a as [[a1 a2] a3], b as [[b1 b2] b3], c as [[c1 c2] c3].
  unfold b64_rank_le. lia.
Qed.

Lemma b64_leb_not_nan x y :
  B64.leb x y = true -> B64.is_nan x = false /\ B64.is_nan y = false.
Proof. destruct x, y; try discriminate; now split. Qed.

Lemma b64_leb_trans x y z :
  B64.leb x y = true -> B64.leb y z = true -> B64.leb x z = true.
Proof.
  intros Hxy Hyz.
  destruct (b64_leb_not_nan _ _ Hxy) as [Hx Hy].
  destruct (b64_leb_not_nan _ _ Hyz) as [_ Hz].
  apply b64_leb_rank; [assumption | assumption |].
  apply (b64_rank_le_trans _ (b64_rank y)).
  - now apply (proj1 (b64_leb_rank x y Hx Hy)).
  - now apply (proj1 (b64_leb_rank y z Hy Hz)).
Qed.

Lemma b64_leb_refl x : B64.is_nan x = false -> B64.leb x x = true.
Proof.
  intros Hx. apply b64_leb_rank; [assumption | assumption |].
  destruct (b64_rank x) as [[a1 a2] a3]. unfold b64_rank_le. lia.
Qed.

Lemma b64_ltb_leb x y : B64.ltb x y = true -> B64.leb x y = true.
Proof.
  unfold B64.ltb, B64.leb, SFltb, SFleb.
  now destruct (SFcompare x y) as [[| |] |].
Qed.

Lemma b64_not_ltb_leb x y :
  B64.is_nan x = false -> B64.is_nan y = false ->
  B64.ltb x y = false -> B64.leb y x = true.
Proof.
  intros Hx Hy Hlt.
  destruct (B64.leb x y) eqn:Hle.
  - (* x <= y and not x < y: the two compare equal *)
    apply b64_leb_rank; [assumption | assumption |].
    apply b64_leb_rank in Hle; [| assumption | assumption].
    revert Hlt Hle. unfold B64.ltb, SFltb, b64_rank_le.
    destruct x as [s1 | s1 | | s1 m1 e1], y as [s2 | s2 | | s2 m2 e2];
      try discriminate;
      try destruct s1; try destruct s2; simpl;
      try rewrite Pos.compare_cont_spec; simpl;
      try destruct (Z.compare_spec e1 e2) as [-> | |];
      try destruct (Pos.compare_spec m1 m2) as [-> | |]; simpl;
      intros Hgoal1 Hgoal2; solve [ discriminate Hgoal1 | lia ].
  - apply b64_leb_rank; [assumption | assumption |].
    assert (Hn : ~ b64_rank_le (b64_rank x) (b64_rank y)).
    { intros H. apply b64_leb_rank in H; [congruence | assumption | assumption]. }
    destruct (b64_rank x) as [[a1 a2] a3], (b64_rank y) as [[b1 b2] b3].
    unfold b64_rank_le in *. lia.
Qed.

End B64Order.

Section B64Series.
Import SpecFloat.

Lemma b64_fold_max_ge l : forall a,
  B64.is_nan a = false -> Forall (fun x => B64.is_nan x = false) l ->
  let m := fold_left (fun m y => if B64.ltb m y then y else m) l a in
  B64.is_nan m = false /\ B64.leb a m = true /\
  forall x, In x l -> B64.leb x m = true.
Proof.
  induction l as [| y l IH]; intros a Ha Hl; simpl.
  - split; [exact Ha |]. split; [now apply b64_leb_refl | intros x []].
  - inversion Hl as [| ? ? Hy Hl']. subst.
    set (a' := if B64.ltb a y then y else a).
    assert (Ha' : B64.is_nan a' = false) by (unfold a'; now destruct (B64.ltb a y)).
    assert (Haa' : B64.leb a a' = true).
    { unfold a'. destruct (B64.ltb a y) eqn:Hlt;
        [now apply b64_ltb_leb | now apply b64_leb_refl]. }
    assert (Hya' : B64.leb y a' = true).
    { unfold a'. destruct (B64.ltb a y) eqn:Hlt;
        [now apply b64_leb_refl | now apply b64_not_ltb_leb]. }
    destruct (IH a' Ha' Hl') as (Hm & Ham & Hall).
    split; [exact Hm |]. split; [exact (b64_leb_trans _ _ _ Haa' Ham) |].
    intros x [<- | Hx]; [exact (b64_leb_trans _ _ _ Hya' Ham) | now apply Hall].
Qed.

Lemma b64_fold_min_le l : forall a,
  B64.is_nan a = false -> Forall (fun x => B64.is_nan x = false) l ->
  let m := fold_left (fun m y => if B64.ltb y m then y else m) l a in
  B64.is_nan m = false /\ B64.leb m a = true /\
  forall x, In x l -> B64.leb m x = true.
Proof.
  induction l as [| y l IH]; intros a Ha Hl; simpl.
  - split; [exact Ha |]. split; [now apply b64_leb_refl | intros x []].
  - inversion Hl as [| ? ? Hy Hl']. subst.
    set (a' := if B64.ltb y a then y else a).
    assert (Ha' : B64.is_nan a' = false) by (unfold a'; now destruct (B64.ltb y a)).
    assert (Haa' : B64.leb a' a = true).
    { unfold a'. destruct (B64.ltb y a) eqn:Hlt;
        [now apply b64_ltb_leb | now apply b64_leb_refl]. }
    assert (Hya' : B64.leb a' y = true).
    { unfold a'. destruct (B64.ltb y a) eqn:Hlt;
        [now apply b64_leb_refl | now apply b64_not_ltb_leb]. }
    destruct (IH a' Ha' Hl') as (Hm & Ham & Hall).
    split; [exact Hm |]. split; [exact (b64_leb_trans _ _ _ Ham Haa') |].
    intros x [<- | Hx]; [exact (b64_leb_trans _ _ _ Ham Hya') | now apply Hall].
Qed.

Lemma b64_not_nan_filter l :
  Forall (fun x => B64.is_nan x = false)
         (List.filter (fun x => negb (B64.is_nan x)) l).
Proof.
  apply List.Forall_forall. intros x Hx. apply filter_In in Hx as [_ Hx].
  now apply negb_true_iff in Hx.
Qed.

(** [Series.max()] is above every value that is not NaN. *)
Lemma b64_series_max_ge l x :
  In x l -> B64.is_nan x = false -> B64.leb x (B64.series_max l) = true.
Proof.
  intros Hx Hnan. unfold B64.series_max.
  assert (Hin : In x (List.filter (fun x => negb (B64.is_nan x)) l)).
  { apply filter_In. split; [exact Hx | now rewrite Hnan]. }
  pose proof (b64_not_nan_filter l) as Hall.
  destruct (List.filter _ l) as [| a l']; [destruct Hin |].
  inversion Hall as [| ? ? Ha Hl']. subst.
  destruct (b64_fold_max_ge l' a Ha Hl') as (_ & Ham & Hrest).
  destruct Hin as [<- | Hin]; [exact Ham | now apply Hrest].
Qed.

(** [Series.min()] is below every value that is not NaN. *)
Lemma b64_series_min_le l x :
  In x l -> B64.is_nan x = false -> B64.leb (B64.series_min l) x = true.
Proof.
  intros Hx Hnan. unfold B64.series_min.
  assert (Hin : In x (List.filter (fun x => negb (B64.is_nan x)) l)).
  { apply filter_In. split; [exact Hx | now rewrite Hnan]. }
  pose proof (b64_not_nan_filter l) as Hall.
  destruct (List.filter _ l) as [| a l']; [destruct Hin |].
  inversion Hall as [| ? ? Ha Hl']. subst.
  destruct (b64_fold_min_le l' a Ha Hl') as (_ & Ham & Hrest).
  destruct Hin as [<- | Hin]; [exact Ham | now apply Hrest].
Qed.

End B64Series.

Section B64Dict.
Context {V : Type}.
Implicit Types (d : B64.dict V) (k p : B64.float64) (v x : V).

(** An entry after [dict_set] is an old entry or the one written, under the
    key written or a key equal to it. *)
Lemma b64_dict_set_In p x d k v :
  In (k, v) (B64.dict_set p x d) ->
  In (k, v) d \/ ((k = p \/ B64.eqb k p = true) /\ v = x).
Proof.
  induction d as [| [k' v'] d IH]; simpl.
  - intros [[= <- <-] | []]. right. split; [now left | reflexivity].
  - destruct (B64.eqb k' p) eqn:Hk.
    + intros [[= <- <-] | Hin]; [| tauto].
      right. split; [now right | reflexivity].
    + intros [Heq | Hin]; [tauto |]. destruct (IH Hin); tauto.
Qed.

Lemma b64_dict_update_In p (f : V -> V) d k v :
  In (k, v) (B64.dict_update p f d) ->
  In (k, v) d \/ (k = p \/ B64.eqb k p = true).
Proof.
  unfold B64.dict_update. destruct (B64.dict_get p d) as [v0 |]; [| tauto].
  intros Hin. apply b64_dict_set_In in Hin. tauto.
Qed.

Lemma b64_dict_fromkeys_In keys x : forall d k v,
  In (k, v) (fold_left (fun d k => B64.dict_set k x d) keys d) ->
  In (k, v) d \/ v = x.
Proof.
  induction keys as [| p keys IH]; intros d k v; simpl; [tauto |].
  intros Hin. apply IH in Hin as [Hin | ->]; [| tauto].
  apply b64_dict_set_In in Hin. tauto.
Qed.

End B64Dict.

Section B64Profile.
Import SpecFloat.
Variables (tick_size_adj : B64.float64) (df : list B64.candle).

(** The test of the inner loop does not tell apart two keys that compare
    equal. *)
Lemma b64_touched_eqb k p :
  B64.eqb k p = true ->
  B64.touched tick_size_adj df p -> B64.touched tick_size_adj df k.
Proof.
  intros Heq (row & Hrow & Hlo & Hhi).
  apply b64_eqb_cases in Heq as [-> | (s1 & s2 & -> & ->)];
    [now exists row |].
  exists row. split; [exact Hrow |]. split.
  - now rewrite (b64_leb_add_zero s1 s2).
  - now rewrite (b64_leb_zero_l s1 s2).
Qed.

Lemma b64_mark_bin_invariant letter row st price :
  In row df ->
  b64_profile_invariant tick_size_adj df st ->
  b64_profile_invariant tick_size_adj df
    (B64.mark_bin tick_size_adj letter row st price).
Proof.
  intros Hrow Hinv. unfold B64.mark_bin. destruct st as [mp cnt].
  destruct (B64.leb (B64.low row) (B64.add price tick_size_adj)
            && B64.leb price (B64.high row))%bool eqn:Hcond; [| exact Hinv].
  apply andb_prop in Hcond as [Hlo Hhi].
  assert (Htouched : B64.touched tick_size_adj df price) by now exists row.
  intros k v Hin Hne. simpl in Hin.
  apply b64_dict_update_In in Hin as [Hin | [-> | Hk]].
  - exact (Hinv k v Hin Hne).
  - exact Htouched.
  - now apply (b64_touched_eqb k price).
Qed.

Lemma b64_fill_profile_invariant price_bins :
  b64_profile_invariant tick_size_adj df
    (B64.fill_profile tick_size_adj price_bins df).
Proof.
  unfold B64.fill_profile. apply fold_left_invariant.
  - intros k v Hin Hne. simpl in Hin. unfold B64.dict_fromkeys in Hin.
    apply b64_dict_fromkeys_In in Hin as [[] | ->]. congruence.
  - intros st [i row] Hrow Hst.
    assert (Hrow' : In row df).
    { apply list_elem_of_In, list_elem_of_lookup in Hrow as (j & Hj).
      rewrite list_lookup_imap in Hj.
      destruct (df !! j) as [row' |] eqn:Hdf; [| discriminate].
      injection Hj as _ <-. apply list_elem_of_In, list_elem_of_lookup. now exists j. }
    apply fold_left_invariant; [exact Hst |].
    intros st' price _ Hst'. now apply b64_mark_bin_invariant.
Qed.

End B64Profile.

Lemma b64_pick_fold_In rs : forall r,
  In (fold_left B64.pick rs r) (r :: rs).
Proof.
  induction rs as [| x rs IH]; intros r; [now left |].
  change (fold_left B64.pick (x :: rs) r) with (fold_left B64.pick rs (B64.pick r x)).
  destruct (IH (B64.pick r x)) as [H | H].
  - rewrite <- H. unfold B64.pick.
    destruct (_ <? _)%Z; [right; now left | now left].
  - right. now right.
Qed.

(** The point of control is the price of a row with letters. *)
Lemma b64_poc_of_profile_Some profile_df poc :
  B64.poc_of_profile profile_df = Some poc ->
  exists r, In r profile_df /\ B64.TPO r <> EmptyString /\ poc = B64.Price r.
Proof.
  unfold B64.poc_of_profile, B64.idxmax. intros Hpoc.
  destruct (List.filter B64.nonempty_tpo profile_df) as [| r rs] eqn:Hf;
    [discriminate |].
  injection Hpoc as <-.
  pose proof (b64_pick_fold_In rs r) as Hin. rewrite <- Hf in Hin.
  apply filter_In in Hin as [Hin Hne].
  exists (fold_left B64.pick rs r). split; [exact Hin |]. split; [| reflexivity].
  unfold B64.nonempty_tpo in Hne. apply negb_true_iff in Hne.
  intros E. rewrite E in Hne. discriminate.
Qed.

Lemma b64_profile_frame_In st r :
  In r (B64.profile_frame st) -> In (B64.Price r, B64.TPO r) (fst st).
Proof.
  destruct st as [mp cnt]. unfold B64.profile_frame. intros Hin.
  apply in_map_iff in Hin as ([k v] & <- & Hin). exact Hin.
Qed.

(** C4 (as the code has it). The point of control is the lower edge of a
    price bin that a candle touches by the test of the profile loop: for a
    candle of the frame, the POC is at most its high and its low is at most
    the POC plus the bin width, the sum and the comparisons being those of
    binary64. Hence the POC is at most the highest high, and the lowest low
    is at most the POC plus the bin width; the POC itself can be below the
    lowest low. *)
Theorem poc_touches_a_candle (df : list B64.candle)
    (tick_size poc : B64.float64) :
  B64.poc_of_frame df tick_size = Some poc ->
  let tick_size_adj := B64.mul tick_size B64.c0_05 in
  (exists row, In row df /\
     B64.leb (B64.low row) (B64.add poc tick_size_adj) = true /\
     B64.leb poc (B64.high row) = true) /\
  B64.leb poc (B64.series_max (map B64.high df)) = true /\
  B64.leb (B64.series_min (map B64.low df)) (B64.add poc tick_size_adj) = true.
Proof.
  intros Hpoc adj. unfold B64.poc_of_frame in Hpoc.
  destruct df as [| row0 rows]; [discriminate |].
  fold adj in Hpoc. set (df := row0 :: rows) in *.
  destruct (B64.arange _ _ adj) as [price_bins |]; [| discriminate].
  apply b64_poc_of_profile_Some in Hpoc as (r & Hr & Hne & ->).
  apply b64_profile_frame_In in Hr.
  destruct (b64_fill_profile_invariant adj df price_bins _ _ Hr Hne)
    as (row & Hrow & Hlo & Hhi).
  split; [now exists row |]. split.
  - apply (b64_leb_trans _ (B64.high row)); [exact Hhi |].
    apply b64_series_max_ge; [now apply in_map |].
    exact (proj2 (b64_leb_not_nan _ _ Hhi)).
  - apply (b64_leb_trans _ (B64.low row)); [| exact Hlo].
    apply b64_series_min_le; [now apply in_map |].
    exact (proj1 (b64_leb_not_nan _ _ Hlo)).
Qed.

(** One bar at 100 with the tick size 0.05 of the scheduler: the POC is
    99.99750000000002, the lower edge of the bin that holds 100. *)
Lemma poc_touches_a_candle_witness :
  let df := [B64.flat_bar (B64.of_Z 100)] in
  let poc := SpecFloat.S754_finite false 7036698495905957 (-46) in
  B64.poc_of_frame df B64.c0_05 = Some poc /\
  B64.leb poc (B64.series_max (map B64.high df)) = true /\
  B64.leb (B64.series_min (map B64.low df))
          (B64.add poc (B64.mul B64.c0_05 B64.c0_05)) = true.
Proof.
  intros df poc.
  assert (Hpoc : B64.poc_of_frame df B64.c0_05 = Some poc)
    by (vm_compute; reflexivity).
  split; [exact Hpoc |].
  exact (proj2 (poc_touches_a_candle df B64.c0_05 poc Hpoc)).
Defined.

(** C4 (as stated) fails at the tick size of the scheduler: the bin width
    0.05 * 0.05 is 0.0025000000000000005 in binary64, the quotient of 100 by
    it is below 40000, and the bins start at 99.99750000000002. For one bar
    at 100 that bin is the only one touched: the POC is below the lowest
    low. *)
Lemma poc_below_lowest_low :
  let df := [B64.flat_bar (B64.of_Z 100)] in
  exists poc,
    B64.poc_of_frame df B64.c0_05 = Some poc /\
    B64.ltb poc (B64.series_min (map B64.low df)) = true /\
    B64.leb (B64.series_min (map B64.low df)) poc = false.
Proof.
  intros df. eexists. split; [vm_compute; reflexivity |].
  split; vm_compute; reflexivity.
Qed.

(** The constants of the computation. *)
Example b64_constants :
  B64.c0_05 = B64.dec 5 100 /\
  B64.mul B64.c0_05 B64.c0_05 = SpecFloat.S754_finite false 5764607523034236 (-61) /\
  B64.floor (B64.div (B64.of_Z 100) (B64.mul B64.c0_05 B64.c0_05)) = B64.of_Z 39999.
Proof. repeat split; vm_compute; reflexivity. Qed.

(** ** Events of the computations *)

Lemma bind_inv {A B : Type} (m : M A) (k : A -> M B) n r n' tr :
  (x <- m ;; k x) n = (r, n', tr) ->
  (exists a n1 tr1 tr2,
      m n = (Ok a, n1, tr1) /\ k a n1 = (r, n', tr2) /\ tr = tr1 ++ tr2) \/
  (exists e, m n = (Raise e, n', tr) /\ r = Raise e).
Proof.
  unfold bind. destruct (m n) as [[[a | e] n1] tr1].
  - destruct (k a n1) as [[r2 n2] tr2] eqn:Hk. intros [= <- <- <-].
    left. now exists a, n1, tr1, tr2.
  - intros [= <- <- <-]. right. now exists e.
Qed.

Lemma emits_ret {A : Type} P (a : A) : emits P (ret a).
Proof. intros n r n' tr [= <- <- <-]. constructor. Qed.

Lemma emits_lift {A : Type} P (x : result A) : emits P (lift x).
Proof. intros n r n' tr [= <- <- <-]. constructor. Qed.

Lemma emits_step P : emits P step.
Proof. intros n r n' tr [= <- <- <-]. constructor. Qed.

Lemma emits_emit (P : event -> Prop) e : P e -> emits P (emit e).
Proof. intros He n r n' tr [= <- <- <-]. now repeat constructor. Qed.

Lemma emits_bind {A B : Type} P (m : M A) (k : A -> M B) :
  emits P m -> (forall a, emits P (k a)) -> emits P (x <- m ;; k x).
Proof.
  intros Hm Hk n r n' tr Hrun.
  apply bind_inv in Hrun as [(a & n1 & tr1 & tr2 & H1 & H2 & ->) | (e & H1 & _)].
  - apply Forall_app. split; [exact (Hm _ _ _ _ H1) | exact (Hk _ _ _ _ _ H2)].
  - exact (Hm _ _ _ _ H1).
Qed.

Lemma emits_try {A : Type} P (m : M A) : emits P m -> emits P (try m).
Proof.
  intros Hm n r n' tr. unfold try. destruct (m n) as [[r1 n1] tr1] eqn:Hrun.
  intros [= <- <- <-]. exact (Hm _ _ _ _ Hrun).
Qed.

Create HintDb emits discriminated.
#[local] Hint Resolve emits_ret emits_lift emits_step emits_try : emits.

(** Goes through the binds, conditionals and matches of a computation. *)
Ltac emits_steps :=
  repeat first
    [ apply emits_bind; [| intros ? ]
    | solve [ auto with emits ]
    | apply emits_emit; solve [ exact I | simpl; auto ]
    | match goal with |- emits _ (if ?b then _ else _) => destruct b end
    | match goal with |- emits _ (match ?x with _ => _ end) => destruct x end ].

Section LeafEvents.
Context (env : Env).

Lemma emits_now P : emits P (now env).
Proof. unfold now. emits_steps. Qed.

Lemma emits_sleep (P : event -> Prop) z : P (Sleep z) -> emits P (sleep z).
Proof. apply emits_emit. Qed.

Lemma leaf_send_attempts retries max_retries m :
  emits leaf (send_attempts env retries max_retries m).
Proof.
  induction retries as [| retry rest IH]; simpl; [auto with emits |].
  emits_steps; first [ exact IH | apply emits_sleep; exact I ].
Qed.

Lemma leaf_send_telegram_message m : emits leaf (send_telegram_message env m).
Proof. apply leaf_send_attempts. Qed.

Lemma leaf_fetch_history symbol exchange interval start_date end_date :
  emits leaf (fetch_history env symbol exchange interval start_date end_date).
Proof. unfold fetch_history. emits_steps. Qed.

Hint Resolve emits_now leaf_send_telegram_message leaf_fetch_history : emits.

Lemma leaf_calculate_atr symbol exchange :
  emits leaf (calculate_atr env symbol exchange).
Proof. unfold calculate_atr. emits_steps. Qed.

Lemma leaf_calculate_poc symbol tick_size exchange holidays :
  emits leaf (calculate_poc env symbol tick_size exchange holidays).
Proof. unfold calculate_poc. emits_steps. Qed.

Lemma leaf_get_15min_candles symbol exchange :
  emits leaf (get_15min_candles env symbol exchange).
Proof. unfold get_15min_candles. emits_steps. Qed.

Lemma leaf_get_ltp symbol exchange : emits leaf (get_ltp env symbol exchange).
Proof. unfold get_ltp. emits_steps. Qed.

Lemma leaf_decide_signal symbol expiry_day poc atr fc_open fc_low fc_high ltp :
  emits leaf
    (decide_signal env symbol expiry_day poc atr fc_open fc_low fc_high ltp).
Proof. unfold decide_signal. emits_steps. Qed.

Hint Resolve leaf_calculate_atr leaf_calculate_poc leaf_get_15min_candles
  leaf_get_ltp leaf_decide_signal : emits.

(** An evaluation announces itself, then makes its requests. *)
Lemma check_trading_conditions_events symbol tick_size expiry_day exchange
    holidays n r n' tr :
  check_trading_conditions env symbol tick_size expiry_day exchange holidays n
    = (r, n', tr) ->
  exists rest, tr = Checking symbol tick_size holidays :: rest /\ Forall leaf rest.
Proof.
  unfold check_trading_conditions. intros Hrun.
  apply bind_inv in Hrun as [(t & n1 & tr1 & tr2 & H1 & H2 & ->) | (e & H1 & _)];
    [| discriminate H1].
  injection H1 as <- <- <-.
  apply bind_inv in H2 as [(u & n2 & tr3 & tr4 & H3 & H4 & ->) | (e & H3 & _)];
    [| discriminate H3].
  injection H3 as <- <- <-. simpl.
  eexists. split; [reflexivity |].
  assert (Hrest : forall m : M (option side),
             emits leaf m -> m (S n) = (r, n', tr4) -> Forall leaf tr4)
    by (intros m Hm; apply Hm).
  eapply Hrest; [| exact H4]. emits_steps.
Qed.

End LeafEvents.

(** ** The alerted set along a run *)

Lemma replay_app A tr1 tr2 : replay A (tr1 ++ tr2) = replay (replay A tr1) tr2.
Proof. apply fold_left_app. Qed.

Lemma guarded_app tr1 : forall A tr2,
  guarded A (tr1 ++ tr2) <-> guarded A tr1 /\ guarded (replay A tr1) tr2.
Proof.
  induction tr1 as [| e tr1 IH]; intros A tr2; simpl; [tauto |].
  rewrite IH. unfold replay. simpl. tauto.
Qed.

Lemma leaf_quiet tr : forall A, Forall leaf tr -> replay A tr = A /\ guarded A tr.
Proof.
  induction tr as [| e tr IH]; intros A Hleaf; [now split |].
  inversion Hleaf as [| ? ? He Htr]. subst.
  assert (Hup : update A e = A) by (destruct e; simpl in He; tauto).
  unfold replay. simpl. rewrite Hup. destruct (IH A Htr) as [Hr Hg].
  split; [exact Hr |]. split; [destruct e; simpl in He; tauto | exact Hg].
Qed.

Lemma leaf_pass_event holidays items e : leaf e -> pass_event holidays items e.
Proof. destruct e; simpl; tauto. Qed.

Lemma pass_event_weaken holidays items items' e :
  (forall it, In it items -> In it items') ->
  pass_event holidays items e -> pass_event holidays items' e.
Proof.
  intros Hsub. destruct e; simpl; try tauto.
  intros [Hh (it & Hit & Hs & Ht)]. split; [exact Hh |]. exists it. auto.
Qed.

Lemma pass_post_nil holidays items A : pass_post holidays items A A [].
Proof. repeat split. constructor. Qed.

Lemma pass_post_app holidays items A A1 A2 tr1 tr2 :
  pass_post holidays items A A1 tr1 -> pass_post holidays items A1 A2 tr2 ->
  pass_post holidays items A A2 (tr1 ++ tr2).
Proof.
  intros (F1 & G1 & ->) (F2 & G2 & ->). split; [| split].
  - apply Forall_app. now split.
  - apply guarded_app. now split.
  - now rewrite replay_app.
Qed.

Lemma pass_post_weaken holidays items items' A A' tr :
  (forall it, In it items -> In it items') ->
  pass_post holidays items A A' tr -> pass_post holidays items' A A' tr.
Proof.
  intros Hsub (F & G & E). split; [| now split].
  eapply Forall_impl; [exact F |]. intros e. now apply pass_event_weaken.
Qed.

Section Scheduler.
Context (env : Env) (expiry_day : Z).

(** One evaluation inside [try]: whether it returns or raises, only its
    alert changes the alerted set. *)
Lemma evaluate_item_run holidays A it n r n' tr :
  try (evaluate_item env expiry_day holidays A it) n = (r, n', tr) ->
  symbol it ∉ A ->
  exists x, r = Ok x /\
    pass_post holidays [it] A (match x with Ok A' => A' | Raise _ => A end) tr.
Proof.
  unfold try. destruct (evaluate_item _ _ _ _ _ n) as [[x n1] tr1] eqn:Hrun.
  intros [= <- <- <-] Hfresh. exists x. split; [reflexivity |].
  unfold evaluate_item in Hrun.
  assert (Hhead : forall rest, Forall leaf rest ->
            pass_post holidays [it] A A
              (Checking (symbol it) (tick_size it) (Some holidays) :: rest)).
  { intros rest Hleaf. destruct (leaf_quiet rest A Hleaf) as [Hr Hg].
    split; [| split].
    - constructor.
      + simpl. split; [reflexivity |]. exists it. simpl. auto.
      + eapply Forall_impl; [exact Hleaf |]. intros e. apply leaf_pass_event.
    - simpl. now split.
    - unfold replay. simpl. symmetry. exact Hr. }
  apply bind_inv in Hrun as [(sig & n2 & tr2 & tr3 & H1 & H2 & ->) | (e & H1 & ->)].
  - apply check_trading_conditions_events in H1 as (rest & -> & Hleaf).
    eapply pass_post_app; [exact (Hhead rest Hleaf) |].
    destruct sig as [sd |]; cbv [bind emit ret sleep] in H2;
      injection H2 as <- <- <-.
    + split; [| split].
      * repeat constructor.
      * simpl. tauto.
      * reflexivity.
    + split; [| split].
      * repeat constructor.
      * simpl. tauto.
      * reflexivity.
  - apply check_trading_conditions_events in H1 as (rest & -> & Hleaf).
    exact (Hhead rest Hleaf).
Qed.

Lemma skip_post holidays items A s :
  pass_post holidays items A A [SkipAlerted s].
Proof. split; [| split]; [repeat constructor | simpl; tauto | reflexivity]. Qed.

Lemma sleep_post holidays items A z : pass_post holidays items A A [Sleep z].
Proof. split; [| split]; [repeat constructor | simpl; tauto | reflexivity]. Qed.

(** The primary pass. *)
Lemma primary_pass_run holidays items : forall A failed n r n' tr,
  primary_pass env expiry_day holidays items A failed n = (r, n', tr) ->
  exists A' failed',
    r = Ok (A', failed') /\ pass_post holidays items A A' tr /\
    (forall it, In it failed' -> In it failed \/ In it items).
Proof.
  induction items as [| it rest IH]; intros A failed n r n' tr Hrun; simpl in Hrun.
  - injection Hrun as <- <- <-. exists A, failed.
    split; [reflexivity |]. split; [apply pass_post_nil | tauto].
  - assert (Hsub : forall x, In x rest -> In x (it :: rest)) by (intros; now right).
    assert (Hone : forall x, In x [it] -> In x (it :: rest))
      by (intros x [<- | []]; now left).
    destruct (decide (symbol it ∈ A)) as [Hin | Hfresh].
    + apply bind_inv in Hrun as [(u & n1 & tr1 & tr2 & H1 & H2 & ->) | (e & H1 & _)];
        [| discriminate H1].
      injection H1 as <- <- <-.
      destruct (IH _ _ _ _ _ _ H2) as (A' & failed' & -> & Hpost & Hfailed).
      exists A', failed'. split; [reflexivity |]. split.
      * eapply pass_post_app; [apply skip_post |].
        eapply pass_post_weaken; [exact Hsub | exact Hpost].
      * intros x Hx. destruct (Hfailed x Hx); [tauto | right; now right].
    + apply bind_inv in Hrun as [(x & n1 & tr1 & tr2 & H1 & H2 & ->) | (e & H1 & _)].
      2:{ apply evaluate_item_run in H1 as (x & [=] & _); exact Hfresh. }
      apply evaluate_item_run in H1 as (x' & [= <-] & Hpost1); [| exact Hfresh].
      apply (pass_post_weaken _ _ _ _ _ _ Hone) in Hpost1.
      destruct x as [A1 | e].
      * destruct (IH _ _ _ _ _ _ H2) as (A' & failed' & -> & Hpost & Hfailed).
        exists A', failed'. split; [reflexivity |]. split.
        -- eapply pass_post_app; [exact Hpost1 |].
           eapply pass_post_weaken; [exact Hsub | exact Hpost].
        -- intros y Hy. destruct (Hfailed y Hy); [tauto | right; now right].
      * apply bind_inv in H2 as [(u & n2 & tr3 & tr4 & H3 & H4 & ->) | (e' & H3 & _)];
          [| discriminate H3].
        injection H3 as <- <- <-.
        destruct (IH _ _ _ _ _ _ H4) as (A' & failed' & -> & Hpost & Hfailed).
        exists A', failed'. split; [reflexivity |]. split.
        -- eapply pass_post_app; [exact Hpost1 |].
           eapply pass_post_app; [apply sleep_post |].
           eapply pass_post_weaken; [exact Hsub | exact Hpost].
        -- intros y Hy. destruct (Hfailed y Hy) as [Hy' | Hy']; [| right; now right].
           apply in_app_or in Hy' as [Hy' | [<- | []]]; [tauto | right; now left].
Qed.

(** The retry pass. *)
Lemma retry_pass_run holidays failed : forall A n r n' tr,
  retry_pass env expiry_day holidays failed A n = (r, n', tr) ->
  exists A', r = Ok A' /\ pass_post holidays failed A A' tr.
Proof.
  induction failed as [| it rest IH]; intros A n r n' tr Hrun; simpl in Hrun.
  - injection Hrun as <- <- <-. exists A. split; [reflexivity | apply pass_post_nil].
  - assert (Hsub : forall x, In x rest -> In x (it :: rest)) by (intros; now right).
    assert (Hone : forall x, In x [it] -> In x (it :: rest))
      by (intros x [<- | []]; now left).
    destruct (decide (symbol it ∈ A)) as [Hin | Hfresh].
    + apply bind_inv in Hrun as [(u & n1 & tr1 & tr2 & H1 & H2 & ->) | (e & H1 & _)];
        [| discriminate H1].
      injection H1 as <- <- <-.
      destruct (IH _ _ _ _ _ H2) as (A' & -> & Hpost).
      exists A'. split; [reflexivity |].
      eapply pass_post_app; [apply skip_post |].
      eapply pass_post_weaken; [exact Hsub | exact Hpost].
    + apply bind_inv in Hrun as [(x & n1 & tr1 & tr2 & H1 & H2 & ->) | (e & H1 & _)].
      2:{ apply evaluate_item_run in H1 as (x & [=] & _); exact Hfresh. }
      apply evaluate_item_run in H1 as (x' & [= <-] & Hpost1); [| exact Hfresh].
      apply (pass_post_weaken _ _ _ _ _ _ Hone) in Hpost1.
      destruct x as [A1 | e].
      * destruct (IH _ _ _ _ _ H2) as (A' & -> & Hpost).
        exists A'. split; [reflexivity |].
        eapply pass_post_app; [exact Hpost1 |].
        eapply pass_post_weaken; [exact Hsub | exact Hpost].
      * apply bind_inv in H2 as [(u & n2 & tr3 & tr4 & H3 & H4 & ->) | (e' & H3 & _)];
          [| discriminate H3].
        injection H3 as <- <- <-.
        destruct (IH _ _ _ _ _ H4) as (A' & -> & Hpost).
        exists A'. split; [reflexivity |].
        eapply pass_post_app; [exact Hpost1 |].
        eapply pass_post_app; [apply sleep_post |].
        eapply pass_post_weaken; [exact Hsub | exact Hpost].
Qed.

End Scheduler.

Section Cycles.
Context (env : Env) (expiry_day : Z) (symbols : list string).

Lemma get_holidays_run n :
  exists hs, get_holidays env n = (Ok hs, S n, [Holidays hs]).
Proof. unfold get_holidays. eexists. reflexivity. Qed.

(** The loop body from the window test on: a break, a wait, or the two
    passes over the instruments. *)
Lemma window_body_run t st n r n' tr :
  window_body env expiry_day symbols t st n = (r, n', tr) ->
  exists c st',
    r = Ok (c, st') /\
    pass_post (holidays_of st) (symbol_data symbols)
      (alerted_symbols st) (alerted_symbols st') tr /\
    holidays_of st' = holidays_of st /\ current_date st' = current_date st.
Proof.
  unfold window_body. intros Hrun.
  destruct (_ || _).
  { injection Hrun as <- <- <-. exists Break, st.
    split; [reflexivity |]. split; [apply pass_post_nil | now split]. }
  destruct (_ || _).
  { cbv [bind sleep emit ret] in Hrun. injection Hrun as <- <- <-.
    exists Continue, st. split; [reflexivity |].
    split; [apply sleep_post | now split]. }
  apply bind_inv in Hrun as [(p & n1 & tr1 & tr2 & H1 & H2 & ->) | (e & H1 & _)].
  2:{ apply primary_pass_run in H1 as (? & ? & [=] & _). }
  apply primary_pass_run in H1 as (A1 & failed & [= ->] & Hpost1 & Hfailed).
  apply bind_inv in H2 as [(A2 & n2 & tr3 & tr4 & H3 & H4 & ->) | (e & H3 & _)].
  2:{ destruct failed; [discriminate H3 |].
      apply retry_pass_run in H3 as (? & [=] & _). }
  assert (Hpost2 : pass_post (holidays_of st) (symbol_data symbols) A1 A2 tr3).
  { destruct failed as [| it failed].
    - injection H3 as <- <- <-. apply pass_post_nil.
    - apply retry_pass_run in H3 as (A' & [= <-] & Hpost).
      eapply pass_post_weaken; [| exact Hpost].
      intros x Hx. destruct (Hfailed x Hx) as [[] | Hin]. exact Hin. }
  pose proof (pass_post_app _ _ _ _ _ _ _ Hpost1 Hpost2) as Hpost.
  destruct (_ =? _)%nat.
  - injection H4 as <- <- <-. eexists _, _. split; [reflexivity |].
    rewrite app_nil_r. simpl. now split.
  - cbv [bind sleep emit ret] in H4. injection H4 as <- <- <-.
    eexists _, _. split; [reflexivity |]. simpl. split; [| now split].
    rewrite app_assoc. eapply pass_post_app; [exact Hpost | apply sleep_post].
Qed.

(** One iteration, without and with a reset. *)
Lemma cycle_run st n r n' tr :
  cycle env expiry_day symbols st n = (r, n', tr) ->
  exists c st',
    r = Ok (c, st') /\
    if current_date st <? day (clock env n) then
      exists rest,
        tr = NewDay :: Holidays (holidays_of st') :: rest /\
        pass_post (holidays_of st') (symbol_data symbols)
          ∅ (alerted_symbols st') rest /\
        current_date st' = day (clock env n)
    else
      pass_post (holidays_of st) (symbol_data symbols)
        (alerted_symbols st) (alerted_symbols st') tr /\
      holidays_of st' = holidays_of st /\ current_date st' = current_date st.
Proof.
  unfold cycle, now, rollover. intros Hrun.
  apply bind_inv in Hrun as [(t & n1 & tr1 & tr2 & H1 & H2 & ->) | (e & H1 & _)];
    [| discriminate H1].
  injection H1 as <- <- <-. simpl in H2 |- *.
  destruct (current_date st <? day (clock env n)).
  - destruct (get_holidays_run (S n)) as (hs & Hhs).
    cbv [bind emit ret] in H2. rewrite Hhs in H2. simpl in H2.
    destruct (window_body _ _ _ _ _ _) as [[r2 n2] tr3] eqn:Hbody.
    injection H2 as <- <- <-.
    apply window_body_run in Hbody as (c & st' & -> & Hpost & Hh & Hd).
    simpl in Hpost, Hh, Hd. exists c, st'. split; [reflexivity |].
    exists tr3. rewrite Hh. now split.
  - cbv [bind ret] in H2.
    destruct (window_body _ _ _ _ _ _) as [[r2 n2] tr3] eqn:Hbody.
    injection H2 as <- <- <-.
    apply window_body_run in Hbody as (c & st' & -> & Hpost & Hh & Hd).
    exists c, st'. split; [reflexivity |]. simpl. now split.
Qed.

Lemma pass_event_known holidays e :
  pass_event holidays (symbol_data symbols) e -> known_check symbols e.
Proof.
  destruct e; simpl; try tauto.
  intros (_ & it & Hit & <- & <-). unfold symbol_data in Hit.
  apply in_map_iff in Hit as (s & <- & Hs). simpl. now split.
Qed.

(** What one iteration leaves, in either case. *)
Lemma cycle_guarded st n r n' tr :
  cycle env expiry_day symbols st n = (r, n', tr) ->
  exists c st',
    r = Ok (c, st') /\ guarded (alerted_symbols st) tr /\
    alerted_symbols st' = replay (alerted_symbols st) tr /\
    Forall (known_check symbols) tr.
Proof.
  intros Hrun. apply cycle_run in Hrun as (c & st' & -> & Hcase).
  exists c, st'. split; [reflexivity |].
  destruct (current_date st <? day (clock env n)).
  - destruct Hcase as (rest & -> & (F & G & E) & _).
    split; [simpl; tauto |]. split; [exact E |].
    repeat constructor. eapply Forall_impl; [exact F |].
    intros e. apply pass_event_known.
  - destruct Hcase as ((F & G & E) & _). split; [exact G |]. split; [exact E |].
    eapply Forall_impl; [exact F |]. intros e. apply pass_event_known.
Qed.

Lemma run_cycles_guarded fuel : forall st n r n' tr,
  run_cycles env fuel expiry_day symbols st n = (r, n', tr) ->
  guarded (alerted_symbols st) tr /\ Forall (known_check symbols) tr.
Proof.
  induction fuel as [| fuel IH]; intros st n r n' tr Hrun; simpl in Hrun.
  - injection Hrun as <- <- <-. split; [exact I | constructor].
  - apply bind_inv in Hrun as [(p & n1 & tr1 & tr2 & H1 & H2 & ->) | (e & H1 & _)].
    2:{ apply cycle_guarded in H1 as (? & ? & [=] & _). }
    apply cycle_guarded in H1 as (c & st' & [= ->] & G1 & E1 & K1).
    destruct c.
    + apply IH in H2 as [G2 K2]. split.
      * apply guarded_app. split; [exact G1 |]. now rewrite <- E1.
      * apply Forall_app. now split.
    + injection H2 as <- <- <-. rewrite app_nil_r. now split.
Qed.

Lemma signal_detection_guarded fuel n r n' tr :
  signal_detection env fuel symbols expiry_day n = (r, n', tr) ->
  guarded ∅ tr /\ Forall (known_check symbols) tr.
Proof.
  unfold signal_detection, now. intros Hrun.
  destruct (get_holidays_run n) as (hs & Hhs).
  cbv [bind step ret] in Hrun. rewrite Hhs in Hrun. simpl in Hrun.
  destruct (run_cycles _ _ _ _ _ _) as [[r2 n2] tr2] eqn:Hloop.
  injection Hrun as <- <- <-.
  apply run_cycles_guarded in Hloop as [G K]. simpl in G.
  split; [simpl; tauto | repeat constructor; exact K].
Qed.

End Cycles.

(** A symbol leaves the alerted set only by a reset. *)
Lemma replay_keeps s mid : forall A,
  s ∈ A -> s ∉ replay A mid -> In NewDay mid.
Proof.
  induction mid as [| e mid IH]; intros A Hin Hout; [now elim Hout |].
  unfold replay in Hout. simpl in Hout.
  destruct e as [| | | | | | | | s' |]; try (right; apply (IH _ Hin Hout)).
  - now left.
  - right. apply (IH ({[s']} ∪ A)); [set_solver | exact Hout].
Qed.

Lemma guarded_no_recheck A pre s mid t h post :
  guarded A (pre ++ Alerted s :: mid ++ Checking s t h :: post) -> In NewDay mid.
Proof.
  intros G. apply guarded_app in G as [_ G]. simpl in G. destruct G as [_ G].
  apply guarded_app in G as [_ G]. simpl in G. destruct G as [Hout _].
  apply (replay_keeps s mid ({[s]} ∪ replay A pre)); [set_solver | exact Hout].
Qed.

(** C5. In a run of the scheduler, between the moment a symbol enters the
    alerted set and a later evaluation of that symbol, in the primary pass
    or in the retry pass, the alerted set has been reset by a date
    rollover. *)
Theorem alerted_symbol_not_checked_again (env : Env) (fuel : nat)
    (symbols : list string) (expiry_day : Z) (n : nat)
    (pre mid post : list event) (s : string) (t : Q)
    (h : option (list string)) :
  events (signal_detection env fuel symbols expiry_day) n
    = pre ++ Alerted s :: mid ++ Checking s t h :: post ->
  In NewDay mid.
Proof.
  unfold events. intros Htr.
  destruct (signal_detection env fuel symbols expiry_day n) as [[r n'] tr] eqn:Hrun.
  simpl in Htr. subst tr.
  apply signal_detection_guarded in Hrun as [G _].
  exact (guarded_no_recheck _ _ _ _ _ _ _ G).
Qed.

(** C8 (as the code has it). Every evaluation that the scheduler starts is
    that of a symbol of the list, with the tick size 0.05. *)
Theorem scheduler_tick_size_is_constant (env : Env) (fuel : nat)
    (symbols : list string) (expiry_day : Z) (n : nat)
    (s : string) (t : Q) (h : option (list string)) :
  In (Checking s t h) (events (signal_detection env fuel symbols expiry_day) n) ->
  t = 0.05%Q /\ In s symbols.
Proof.
  unfold events. intros Hin.
  destruct (signal_detection env fuel symbols expiry_day n) as [[r n'] tr] eqn:Hrun.
  apply signal_detection_guarded in Hrun as [_ K].
  rewrite Forall_forall in K. exact (K _ (proj2 (list_elem_of_In _ _) Hin)).
Qed.

(** The events around the first alert of the sample session that runs into
    the next day. *)
Lemma alerted_symbol_not_checked_again_witness :
  let tr := events (signal_detection rollover_env 2 sample_symbols 28) 0 in
  tr = take 7 tr ++ Alerted "ACC28AUG25FUT"
         :: take 10 (drop 8 tr)
         ++ Checking "ACC28AUG25FUT" 0.05%Q (Some ["2024-01-26"%string])
         :: drop 19 tr /\
  In NewDay (take 10 (drop 8 tr)).
Proof.
  intros tr.
  assert (Htr : tr = take 7 tr ++ Alerted "ACC28AUG25FUT"
                  :: take 10 (drop 8 tr)
                  ++ Checking "ACC28AUG25FUT" 0.05%Q (Some ["2024-01-26"%string])
                  :: drop 19 tr) by (vm_compute; reflexivity).
  split; [exact Htr |].
  exact (alerted_symbol_not_checked_again rollover_env 2 sample_symbols 28 0
           _ _ _ _ _ _ Htr).
Defined.

Lemma scheduler_tick_size_is_constant_witness :
  In (Checking "TCS28AUG25FUT" 0.05%Q (Some ["2024-01-26"%string]))
     (events (signal_detection rollover_env 2 sample_symbols 28) 0) /\
  (0.05%Q = 0.05%Q /\ In "TCS28AUG25FUT"%string sample_symbols).
Proof.
  assert (Hin : In (Checking "TCS28AUG25FUT" 0.05%Q (Some ["2024-01-26"%string]))
                   (events (signal_detection rollover_env 2 sample_symbols 28) 0)).
  { vm_compute. do 9 right. left. reflexivity. }
  split; [exact Hin |].
  exact (scheduler_tick_size_is_constant rollover_env 2 sample_symbols 28 0
           _ _ _ Hin).
Defined.

(** C8 (as stated) fails: the instrument list keeps the symbols only. An
    instrument collected with the tick size 0.10 is evaluated with 0.05. *)
Lemma instrument_list_drops_tick_size :
  ~ (forall it,
       In it (symbol_data (load_symbols (save_symbols sample_futures))) ->
       exists fut, In fut sample_futures /\ fut_symbol fut = symbol it /\
                   (tick_size it == fut_tick_size fut)%Q).
Proof.
  intros H.
  destruct (H {| symbol := "ACC28AUG25FUT"; tick_size := 0.05%Q |})
    as (fut & Hfut & _ & Htick).
  - vm_compute. left. reflexivity.
  - destruct Hfut as [<- | []]. vm_compute in Htick. discriminate Htick.
Qed.

(** ** The date rollover *)

Lemma pass_event_no_reset holidays items tr :
  Forall (pass_event holidays items) tr -> ~ In NewDay tr.
Proof.
  intros F Hin. rewrite Forall_forall in F.
  exact (F NewDay (proj2 (list_elem_of_In _ _) Hin)).
Qed.

(** C7. An iteration of the scheduler resets the alerted set exactly when
    the date it reads at its top is later than the stored date. Then the
    reset and the holiday request are its first two events: nothing after
    them resets or asks for the holidays again, every evaluation that
    follows carries the new holiday list and starts from the empty alerted
    set. Otherwise the iteration keeps the set, the date and the holiday
    list, and only adds the symbols it alerts. *)
Theorem rollover_resets_alerted_set (env : Env) (expiry_day : Z)
    (symbols : list string) (st : session) (n : nat) :
  let t := clock env n in
  let tr := events (cycle env expiry_day symbols st) n in
  (In NewDay tr <-> current_date st < day t) /\
  (current_date st < day t ->
   exists hs rest,
     tr = NewDay :: Holidays hs :: rest /\
     Forall (pass_event hs (symbol_data symbols)) rest /\
     guarded ∅ rest /\
     exists c st',
       outcome (cycle env expiry_day symbols st) n = Ok (c, st') /\
       alerted_symbols st' = replay ∅ rest /\
       holidays_of st' = hs /\ current_date st' = day t) /\
  (~ current_date st < day t ->
   Forall (pass_event (holidays_of st) (symbol_data symbols)) tr /\
   guarded (alerted_symbols st) tr /\
   exists c st',
     outcome (cycle env expiry_day symbols st) n = Ok (c, st') /\
     alerted_symbols st' = replay (alerted_symbols st) tr /\
     holidays_of st' = holidays_of st /\ current_date st' = current_date st).
Proof.
  intros t tr. subst t tr. unfold events, outcome.
  destruct (cycle env expiry_day symbols st n) as [[r n'] tr] eqn:Hrun. simpl.
  apply cycle_run in Hrun as (c & st' & -> & Hcase).
  destruct (current_date st <? day (clock env n)) eqn:Hlt.
  - apply Z.ltb_lt in Hlt.
    destruct Hcase as (rest & -> & (F & G & E) & Hd).
    split; [split; [intros _; exact Hlt | intros _; now left] |].
    split; [| intros Hno; contradiction].
    intros _. exists (holidays_of st'), rest.
    split; [reflexivity |]. split; [exact F |]. split; [exact G |].
    exists c, st'. now repeat split.
  - apply Z.ltb_ge in Hlt.
    destruct Hcase as ((F & G & E) & Hh & Hd).
    split; [split; [intros Hin; exfalso; exact (pass_event_no_reset _ _ _ F Hin) | lia] |].
    split; [intros Hyes; lia |].
    intros _. split; [exact F |]. split; [exact G |].
    exists c, st'. now repeat split.
Qed.

(** The second iteration of the sample session: the alerted set
    {ACC28AUG25FUT} of the first day is dropped and the symbol is evaluated
    again. *)
Lemma rollover_resets_alerted_set_witness :
  let st := {| alerted_symbols := {[ "ACC28AUG25FUT"%string ]};
               current_date := 738914;
               holidays_of := ["2024-01-26"%string] |} in
  current_date st < day (clock rollover_env 22) /\
  exists hs rest,
    events (cycle rollover_env 28 sample_symbols st) 22
      = NewDay :: Holidays hs :: rest /\
    Forall (pass_event hs (symbol_data sample_symbols)) rest /\
    guarded ∅ rest.
Proof.
  intros st.
  assert (Hlt : current_date st < day (clock rollover_env 22))
    by (vm_compute; reflexivity).
  split; [exact Hlt |].
  destruct (proj1 (proj2 (rollover_resets_alerted_set rollover_env 28
                            sample_symbols st 22)) Hlt)
    as (hs & rest & Htr & F & G & _).
  exists hs, rest. split; [exact Htr |]. split; [exact F | exact G].
Defined.

(** ** The monitoring window *)

Lemma events_bind {A B : Type} (m : M A) (k : A -> M B) n a n1 tr1 :
  m n = (Ok a, n1, tr1) -> events (bind m k) n = tr1 ++ events (k a) n1.
Proof.
  intros Hm. unfold events, bind. rewrite Hm.
  now destruct (k a n1) as [[r n2] tr2].
Qed.

Lemma events_bind_raise {A B : Type} (m : M A) (k : A -> M B) n e n1 tr1 :
  m n = (Raise e, n1, tr1) -> events (bind m k) n = tr1.
Proof. intros Hm. unfold events, bind. now rewrite Hm. Qed.

Lemma outcome_bind {A B : Type} (m : M A) (k : A -> M B) n a n1 tr1 :
  m n = (Ok a, n1, tr1) -> outcome (bind m k) n = outcome (k a) n1.
Proof.
  intros Hm. unfold outcome, bind. rewrite Hm.
  now destruct (k a n1) as [[r n2] tr2].
Qed.

Lemma now_run env n : now env n = (Ok (clock env n), S n, []).
Proof. reflexivity. Qed.

(** Runs the first computation of a bind whose result is known. *)
Ltac run_bind H :=
  match type of H with
  | ?m ?n = (Ok _, _, _) =>
      try rewrite (events_bind m _ n _ _ _ H);
      try rewrite (outcome_bind m _ n _ _ _ H);
      cbv beta
  end.

Lemma calculate_poc_steps env symbol tick_size exchange holidays n x n' tr :
  calculate_poc env symbol tick_size exchange holidays n = (Ok x, n', tr) ->
  n' = S (S n).
Proof.
  unfold calculate_poc, now, fetch_history, bind, step, ret, lift, emit. simpl.
  destruct (get_last_trading_day _ _) as [d | e]; [| discriminate].
  destruct (client_history _ _ _ _ _ _ _) as [[| row rows] | |];
    intros [= <- <- <-]; reflexivity.
Qed.

Lemma calculate_atr_steps env symbol exchange n x n' tr :
  calculate_atr env symbol exchange n = (Ok x, n', tr) -> n' = S (S n).
Proof.
  unfold calculate_atr, now, fetch_history, bind, step, ret, lift, emit. simpl.
  destruct (sub_days _ _) as [d | e]; [| discriminate].
  destruct (client_history _ _ _ _ _ _ _) as [[| row rows] | |];
    intros [= <- <- <-]; reflexivity.
Qed.

(** C9 (as the code has it). The window test of [check_trading_conditions]
    only logs: inside or outside the window the POC is computed next. When
    the POC is there, what follows depends on the guard of
    [get_15min_candles] alone: before 9:30 the candles are not requested
    and the instrument is skipped; from 9:30 on, after 9:45 as well, the
    candles, the ATR and the price are fetched and the decision is taken as
    inside the window. *)
Theorem window_check_only_logs (env : Env) (symbol : string) (tick_size : Q)
    (expiry_day : Z) (exchange : string) (holidays : option (list string))
    (n : nat) :
  let run :=
    check_trading_conditions env symbol tick_size expiry_day exchange holidays in
  let poc_run := calculate_poc env symbol tick_size exchange holidays in
  let head :=
    Checking symbol tick_size holidays
      :: (if in_window (clock env n) then [] else [OutsideWindow symbol])
      ++ events poc_run (S n) in
  (exists tail, events run n = head ++ tail) /\
  (forall poc, outcome poc_run (S n) = Ok (Some poc) ->
     (before_first_candle (clock env (4 + n)) = true ->
      outcome run n = Ok None /\ events run n = head) /\
     (before_first_candle (clock env (4 + n)) = false ->
      forall c0 c1 cs atr ltp,
        client_history env (5 + n)%nat symbol exchange "15m"
          (strftime_Ymd (day (clock env (3 + n))))
          (strftime_Ymd (day (clock env (3 + n)))) = ApiSuccess (c0 :: c1 :: cs) ->
        outcome (calculate_atr env symbol exchange) (6 + n) = Ok (Some atr) ->
        client_quotes env (8 + n)%nat symbol exchange = ApiSuccess (Some ltp) ->
        outcome run n
        = outcome (decide_signal env symbol expiry_day poc atr
                     (open c0) (low c0) (high c0) ltp) (9 + n))).
Proof.
  intros run poc_run head. subst run poc_run head.
  unfold check_trading_conditions.
  pose proof (now_run env n) as Hnow. run_bind Hnow. clear Hnow.
  fold (in_window (clock env n)).
  assert (Hchk : emit (Checking symbol tick_size holidays) (S n)
                 = (Ok tt, S n, [Checking symbol tick_size holidays]))
    by reflexivity.
  run_bind Hchk. clear Hchk.
  assert (Hlog : (if negb (in_window (clock env n))
                  then emit (OutsideWindow symbol) else ret tt) (S n)
                 = (Ok tt, S n,
                    if in_window (clock env n) then [] else [OutsideWindow symbol])).
  { destruct (in_window (clock env n)); reflexivity. }
  run_bind Hlog. clear Hlog. simpl app.
  destruct (calculate_poc env symbol tick_size exchange holidays (S n))
    as [[rp np] trp] eqn:Hpoc.
  assert (Hev : events (calculate_poc env symbol tick_size exchange holidays) (S n)
                = trp) by (unfold events; now rewrite Hpoc).
  assert (Hout : outcome (calculate_poc env symbol tick_size exchange holidays) (S n)
                 = rp) by (unfold outcome; now rewrite Hpoc).
  rewrite Hev, Hout. clear Hev Hout.
  destruct rp as [[poc |] | e].
  2:{ run_bind Hpoc. split; [exists []; now rewrite !app_nil_r | intros p [=]]. }
  2:{ rewrite (events_bind_raise _ _ _ _ _ _ Hpoc).
      split; [exists []; now rewrite !app_nil_r | intros p [=]]. }
  pose proof (calculate_poc_steps _ _ _ _ _ _ _ _ _ Hpoc) as ->.
  run_bind Hpoc. clear Hpoc.
  split.
  { eexists. rewrite <- app_assoc. reflexivity. }
  intros p [= <-].
  split.
  - intros Hbefore.
    assert (H15 : get_15min_candles env symbol exchange (S (S (S n)))
                  = (Ok None, S (S (S (S (S n)))), [])).
    { unfold get_15min_candles, now, bind, step, ret. cbv beta iota.
      change (4 + n)%nat with (S (S (S (S n)))) in Hbefore.
      unfold before_first_candle in Hbefore. now rewrite Hbefore. }
    run_bind H15. split; [reflexivity |]. simpl. now rewrite !app_nil_r.
  - intros Hafter c0 c1 cs atr ltp Hcandles Hatr Hltp.
    assert (H15 : get_15min_candles env symbol exchange (S (S (S n)))
                  = (Ok (Some (c0 :: c1 :: cs)), S (S (S (S (S (S n))))),
                     [History symbol "15m"
                        (strftime_Ymd (day (clock env (S (S (S n))))))
                        (strftime_Ymd (day (clock env (S (S (S n))))))])).
    { unfold get_15min_candles, now, fetch_history, bind, step, ret, emit.
      cbv beta iota.
      change (4 + n)%nat with (S (S (S (S n)))) in Hafter.
      unfold before_first_candle in Hafter. rewrite Hafter.
      simpl in Hcandles. now rewrite Hcandles. }
    run_bind H15.
    destruct (calculate_atr env symbol exchange (6 + n)%nat) as [[ra na] tra] eqn:Hra.
    unfold outcome in Hatr. rewrite Hra in Hatr. simpl in Hatr. subst ra.
    pose proof (calculate_atr_steps _ _ _ _ _ _ _ Hra) as ->.
    simpl in Hra. run_bind Hra.
    assert (Hq : get_ltp env symbol exchange (S (S (S (S (S (S (S (S n))))))))
                 = (Ok (Some ltp), S (S (S (S (S (S (S (S (S n)))))))),
                    [Quotes symbol])).
    { unfold get_ltp, bind, step, emit. simpl in Hltp. now rewrite Hltp. }
    run_bind Hq. reflexivity.
Qed.

(** The sample session at 10:00, after the window: the signal is the one
    of the window. *)
Lemma window_check_only_logs_witness :
  let env := sample_env 738914 10 0 106 in
  in_window (clock env 0) = false /\
  before_first_candle (clock env 4) = false /\
  outcome (check_trading_conditions env "ACC28AUG25FUT" 0.05 28 "NFO"
             (Some ["2024-01-26"%string])) 0
  = outcome (decide_signal env "ACC28AUG25FUT" 28 99.99750000 (784 # 196)
               102 101 105 106) 9.
Proof.
  intros env.
  split; [reflexivity |].
  assert (Hafter : before_first_candle (clock env (4 + 0)) = false) by reflexivity.
  split; [exact Hafter |].
  refine (proj2 (proj2 (window_check_only_logs env "ACC28AUG25FUT" 0.05%Q 28 "NFO"
                          (Some ["2024-01-26"%string]) 0)
                   99.99750000%Q _) Hafter
            (bar 102 105 101 104) (bar 104 106 104 105) [] (784 # 196)%Q 106%Q
            _ _ _);
    vm_compute; reflexivity.
Defined.

(** C9 (as stated) fails before 9:30: at 9:00, outside the window, the POC
    is computed and then the instrument is skipped, without a request for
    the candles, the ATR or the price, on data that give BUY from 9:30 on. *)
Lemma check_before_first_candle_skips :
  let holidays := Some ["2024-01-26"%string] in
  let at_9_00 :=
    check_trading_conditions (sample_env 738914 9 0 106)
      "ACC28AUG25FUT" 0.05 28 "NFO" holidays in
  let at_9_35 :=
    check_trading_conditions (sample_env 738914 9 35 106)
      "ACC28AUG25FUT" 0.05 28 "NFO" holidays in
  in_window (clock (sample_env 738914 9 0 106) 0) = false /\
  outcome at_9_00 0 = Ok None /\
  events at_9_00 0
  = [ Checking "ACC28AUG25FUT" 0.05 holidays;
      OutsideWindow "ACC28AUG25FUT";
      History "ACC28AUG25FUT" "15m" "2024-01-25" "2024-01-25" ] /\
  outcome at_9_35 0 = Ok (Some BUY).
Proof. repeat split; vm_compute; reflexivity. Qed.

(** * Further properties of the code *)

(** ** The last trading day without holidays *)

(** Of three consecutive days one is a weekday. *)
Lemma weekday_in_three d :
  weekday d < 5 \/ weekday (d + 1) < 5 \/ weekday (d + 2) < 5.
Proof. unfold weekday. Z.div_mod_to_equations. lia. Qed.

(** X1. Without holidays the last trading day is at most three days back:
    the loop only steps over a weekend. *)
Theorem get_last_trading_day_no_holidays (current_date : date) :
  4 <= current_date <= MAXORDINAL ->
  exists d,
    get_last_trading_day current_date None = Ok d /\
    current_date - 3 <= d < current_date /\ weekday d < 5.
Proof.
  intros Hvalid.
  assert (Htr : forall d, weekday d < 5 -> trading_day [] d)
    by (intros d Hd; split; [exact Hd | intros []]).
  change (get_last_trading_day current_date None)
    with (get_last_trading_day current_date (Some [])).
  destruct (get_last_trading_day_cases current_date [])
    as [(d & Hd & (Hrange & (Hwd & _) & Hbelow)) | (_ & Hnone)].
  - unfold MINORDINAL. lia.
  - exists d. split; [exact Hd |]. split; [| exact Hwd].
    split; [| lia].
    destruct (Z_le_gt_dec (current_date - 3) d) as [Hle | Hgt]; [exact Hle |].
    exfalso.
    destruct (weekday_in_three (current_date - 3)) as [H | [H | H]].
    + apply (Hbelow (current_date - 3)); [lia | now apply Htr].
    + apply (Hbelow (current_date - 3 + 1)); [lia | now apply Htr].
    + apply (Hbelow (current_date - 3 + 2)); [lia | now apply Htr].
  - exfalso. unfold MINORDINAL in Hnone.
    destruct (weekday_in_three (current_date - 3)) as [H | [H | H]].
    + apply (Hnone (current_date - 3)); [lia | now apply Htr].
    + apply (Hnone (current_date - 3 + 1)); [lia | now apply Htr].
    + apply (Hnone (current_date - 3 + 2)); [lia | now apply Htr].
Qed.

(** On a Monday the last trading day is the Friday before. *)
Lemma get_last_trading_day_no_holidays_witness :
  4 <= 738914 <= MAXORDINAL /\
  exists d,
    get_last_trading_day 738914 None = Ok d /\
    738914 - 3 <= d < 738914 /\ weekday d < 5.
Proof.
  assert (Hv : 4 <= 738914 <= MAXORDINAL) by (unfold MAXORDINAL; lia).
  split; [exact Hv | exact (get_last_trading_day_no_holidays 738914 Hv)].
Defined.

(** ** Bounds on the ATR *)

Section AtrBounds.
Local Open Scope Q_scope.

Lemma length_removelast_pred {A : Type} (l : list A) :
  length (removelast l) = pred (length l).
Proof.
  induction l as [| a [| b l] IH]; [reflexivity | reflexivity |].
  change (removelast (a :: b :: l)) with (a :: removelast (b :: l)).
  simpl length in *. now rewrite IH.
Qed.

Lemma length_shift1 l : length (shift1 l) = length l.
Proof.
  destruct l as [| x l]; [reflexivity |]. unfold shift1.
  change (S (length (map Some (removelast (x :: l)))) = length (x :: l)).
  now rewrite length_map, length_removelast_pred.
Qed.

Lemma length_true_ranges df : length (true_ranges df) = length df.
Proof.
  unfold true_ranges. apply length_zip_with_l_eq.
  now rewrite length_shift1, length_map.
Qed.

Lemma row_max_ge h_l others : h_l <= row_max h_l others.
Proof.
  unfold row_max. revert h_l.
  induction others as [| [v |] others IH]; intros h_l; simpl.
  - apply Qle_refl.
  - eapply Qle_trans; [apply Q.le_max_l | apply IH].
  - apply IH.
Qed.

(** Every true range is at least the range of its bar. *)
Lemma true_ranges_ge_range df i row x :
  df !! i = Some row -> true_ranges df !! i = Some x -> high row - low row <= x.
Proof.
  unfold true_ranges. intros Hrow Hx.
  apply lookup_zip_with_Some in Hx as (row' & pc & -> & Hrow' & _).
  rewrite Hrow in Hrow'. injection Hrow' as <-. apply row_max_ge.
Qed.

Lemma sum_from l : forall a, fold_left Qplus l a == a + sum l.
Proof.
  unfold sum. induction l as [| x l IH]; intros a; simpl; [ring |].
  rewrite IH, (IH (0 + x)). ring.
Qed.

Lemma sum_cons x l : sum (x :: l) == x + sum l.
Proof. unfold sum. simpl. rewrite sum_from. unfold sum. ring. Qed.

Lemma sum_bounds lo hi l :
  (forall x, In x l -> lo <= x <= hi) ->
  inject_Z (Z.of_nat (length l)) * lo <= sum l <=
  inject_Z (Z.of_nat (length l)) * hi.
Proof.
  induction l as [| x l IH]; intros Hall.
  - change (0 * lo <= 0 <= 0 * hi). lra.
  - assert (Hx := Hall x (or_introl eq_refl)).
    assert (IH' := IH (fun y Hy => Hall y (or_intror Hy))).
    rewrite sum_cons.
    replace (Z.of_nat (length (x :: l))) with (1 + Z.of_nat (length l))%Z
      by (simpl length; lia).
    rewrite inject_Z_plus. change (inject_Z 1) with 1. lra.
Qed.

Lemma mean_bounds lo hi l :
  l <> [] -> (forall x, In x l -> lo <= x <= hi) -> lo <= mean l <= hi.
Proof.
  intros Hne Hall. unfold mean.
  assert (Hlen : 0 < inject_Z (Z.of_nat (length l))).
  { change 0 with (inject_Z 0). rewrite <- Zlt_Qlt.
    destruct l; [congruence | simpl; lia]. }
  destruct (sum_bounds lo hi l Hall) as [H1 H2].
  split.
  - apply Qle_shift_div_l; [exact Hlen | lra].
  - apply Qle_shift_div_r; [exact Hlen | lra].
Qed.

Lemma wilder_bounds lo hi TR : forall is_ atr,
  atr <> [] ->
  (forall a, In a atr -> lo <= a <= hi) ->
  (forall i, In i is_ -> lo <= nth i TR 0 <= hi) ->
  forall a,
    In a (fold_left
            (fun atr i => atr ++ [(List.last atr 0 * (14 - 1) + nth i TR 0) / 14])
            is_ atr) ->
    lo <= a <= hi.
Proof.
  induction is_ as [| i is_ IH]; intros atr Hne Hatr Hidx a; simpl; [apply Hatr |].
  apply IH.
  - destruct atr; discriminate.
  - intros b Hb. apply in_app_or in Hb as [Hb | [<- | []]]; [now apply Hatr |].
    assert (Hlast : lo <= List.last atr 0 <= hi).
    { apply Hatr. destruct (exists_last Hne) as (l' & z & ->).
      rewrite last_last. apply in_or_app. right. now left. }
    assert (Hi := Hidx i (or_introl eq_refl)).
    split.
    + apply Qle_shift_div_l; [reflexivity | lra].
    + apply Qle_shift_div_r; [reflexivity | lra].
  - intros j Hj. apply Hidx. now right.
Qed.

(** The ATR lies between any two bounds of the true ranges: smoothing is an
    average. *)
Theorem atr_between_true_range_bounds (df : list candle) (lo hi v : Q) :
  (forall x, In x (true_ranges df) -> lo <= x <= hi) ->
  atr_of_frame df = Some v ->
  lo <= v <= hi.
Proof.
  intros Hall Hatr. unfold atr_of_frame in Hatr.
  destruct (length df <? 15)%nat eqn:Hlen; [discriminate |].
  apply Nat.ltb_ge in Hlen. injection Hatr as <-.
  set (TR := true_ranges df) in *.
  assert (HTR : length TR = length df) by apply length_true_ranges.
  assert (Hin : forall a, In a (wilder TR (length df)) -> lo <= a <= hi).
  { unfold wilder. apply wilder_bounds.
    - discriminate.
    - intros a [<- | []]. apply mean_bounds.
      + destruct TR as [| x TR']; [simpl in HTR; lia | discriminate].
      + intros x Hx. apply Hall.
        apply list_elem_of_In in Hx. apply list_elem_of_In.
        exact (subseteq_take 14 TR x Hx).
    - intros i Hi. apply in_seq in Hi. apply Hall, nth_In. lia. }
  apply Hin.
  assert (Hne : wilder TR (length df) <> []).
  { unfold wilder. apply fold_left_invariant; [discriminate |].
    intros atr i _ _. destruct atr; discriminate. }
  destruct (exists_last Hne) as (l' & z & ->).
  rewrite last_last. apply in_or_app. right. now left.
Qed.

(** X2. With highs above lows the ATR is not negative. *)
Corollary atr_nonnegative (df : list candle) (v : Q) :
  (forall row, In row df -> low row <= high row) ->
  atr_of_frame df = Some v -> 0 <= v.
Proof.
  intros Hrows Hatr.
  assert (Hbound : forall x, In x (true_ranges df) -> 0 <= x <= Qmax 0 (series_max (true_ranges df))).
  { intros x Hx. split.
    - apply list_elem_of_In, list_elem_of_lookup in Hx as (i & Hi).
      assert (Hlt : (i < length df)%nat).
      { rewrite <- length_true_ranges. eapply lookup_lt_Some, Hi. }
      destruct (lookup_lt_is_Some_2 df i Hlt) as (row & Hrow).
      pose proof (true_ranges_ge_range df i row x Hrow Hi) as Hge.
      assert (Hlh : low row <= high row).
      { apply Hrows, list_elem_of_In, list_elem_of_lookup. now exists i. }
      lra.
    - eapply Qle_trans; [apply series_max_ge, Hx | apply Q.le_max_r]. }
  exact (proj1 (atr_between_true_range_bounds df 0 _ v Hbound Hatr)).
Qed.

Lemma atr_between_true_range_bounds_witness :
  (forall x, In x (true_ranges atr_boundary_frame) -> 1 <= x <= 15) /\
  exists v, atr_of_frame atr_boundary_frame = Some v /\ 1 <= v <= 15.
Proof.
  assert (Hall : forall x, In x (true_ranges atr_boundary_frame) -> 1 <= x <= 15).
  { intros x Hx. vm_compute in Hx.
    repeat (destruct Hx as [<- | Hx]; [split; discriminate |]). destruct Hx. }
  split; [exact Hall |].
  eexists. split; [reflexivity |].
  exact (atr_between_true_range_bounds atr_boundary_frame 1 15 _ Hall eq_refl).
Defined.

Lemma atr_nonnegative_witness :
  (forall row, In row sample_daily -> low row <= high row) /\
  exists v, atr_of_frame sample_daily = Some v /\ 0 <= v.
Proof.
  assert (Hrows : forall row, In row sample_daily -> low row <= high row).
  { intros row Hrow. apply repeat_spec in Hrow. subst row. discriminate. }
  split; [exact Hrows |].
  eexists. split; [reflexivity |].
  exact (atr_nonnegative sample_daily _ Hrows eq_refl).
Defined.

End AtrBounds.

(** ** The price bins of the profile in exact arithmetic *)

Section Bins.
Local Open Scope Q_scope.

Lemma poc_of_frame_profile df tick_size :
  df <> [] -> 0 < tick_size ->
  poc_of_frame df tick_size = poc_of_profile (profile_of_frame df tick_size).
Proof.
  intros Hdf Htick. unfold poc_of_frame, profile_of_frame.
  destruct df as [| row rows]; [congruence |].
  destruct (Qeq_bool (tick_size * 0.05) 0) eqn:Hz; [| reflexivity].
  apply Qeq_bool_eq in Hz. lra.
Qed.

Lemma arange_from_sorted (f : nat -> Q) :
  (forall i j, (i < j)%nat -> f i < f j) ->
  forall n a, StronglySorted Qlt (map f (seq a n)).
Proof.
  intros Hf. induction n as [| n IH]; intros a; simpl; constructor.
  - apply IH.
  - apply Forall_forall. intros x Hx.
    apply list_elem_of_In, in_map_iff in Hx as (j & <- & Hj).
    apply in_seq in Hj. apply Hf. lia.
Qed.

(** With a positive step [np.arange] is strictly increasing. *)
Lemma arange_sorted start stop step :
  0 < step -> StronglySorted Qlt (arange start stop step).
Proof.
  intros Hstep. unfold arange. apply arange_from_sorted.
  intros i j Hij.
  assert (inject_Z (Z.of_nat i) < inject_Z (Z.of_nat j)) by (rewrite <- Zlt_Qlt; lia).
  assert (inject_Z (Z.of_nat i) * step < inject_Z (Z.of_nat j) * step)
    by (apply Qmult_lt_compat_r; assumption).
  lra.
Qed.

Lemma Qeq_bool_false_neq x y : ~ x == y -> Qeq_bool x y = false.
Proof.
  intros Hne. destruct (Qeq_bool x y) eqn:H; [| reflexivity].
  apply Qeq_bool_eq in H. contradiction.
Qed.

Section DictKeys.
Context {V : Type}.
Implicit Types (d : dict V).

(** Writing under a new key appends the entry. *)
Lemma dict_set_fresh k (v : V) d :
  (forall k', In k' (map fst d) -> ~ k' == k) -> dict_set k v d = d ++ [(k, v)].
Proof.
  induction d as [| [k' v'] d IH]; intros Hfresh; simpl; [reflexivity |].
  rewrite Qeq_bool_false_neq by (apply Hfresh; now left).
  rewrite IH; [reflexivity |]. intros k'' Hk''. apply Hfresh. now right.
Qed.

(** Writing under a key of the dictionary keeps its keys. *)
Lemma dict_set_present k (v : V) d :
  dict_get k d <> None -> map fst (dict_set k v d) = map fst d.
Proof.
  induction d as [| [k' v'] d IH]; simpl; [congruence |].
  destruct (Qeq_bool k' k); [reflexivity |].
  intros Hget. simpl. now rewrite IH.
Qed.

Lemma dict_update_same_keys k (f : V -> V) d :
  map fst (dict_update k f d) = map fst d.
Proof.
  unfold dict_update. destruct (dict_get k d) eqn:Hget; [| reflexivity].
  apply dict_set_present. congruence.
Qed.

Lemma dict_fromkeys_sorted_from keys (v : V) : forall d,
  StronglySorted Qlt keys ->
  (forall k' k, In k' (map fst d) -> In k keys -> k' < k) ->
  map fst (fold_left (fun d k => dict_set k v d) keys d) = map fst d ++ keys.
Proof.
  induction keys as [| k keys IH]; intros d Hsorted Hbelow; simpl.
  - now rewrite app_nil_r.
  - inversion Hsorted as [| ? ? Hs Hall]. subst.
    rewrite Forall_forall in Hall.
    rewrite dict_set_fresh.
    + rewrite IH; [| exact Hs |].
      * rewrite map_app. simpl. now rewrite <- app_assoc.
      * intros k' k2 Hk' Hk2. rewrite map_app in Hk'. simpl in Hk'.
        apply in_app_or in Hk' as [Hk' | [<- | []]].
        -- apply Hbelow; [exact Hk' | now right].
        -- apply Hall. now apply list_elem_of_In.
    + intros k' Hk' Heq.
      assert (Hlt : k' < k) by (apply Hbelow; [exact Hk' | now left]).
      rewrite Heq in Hlt. exact (Qlt_irrefl _ Hlt).
Qed.

(** On strictly increasing keys the dictionary comprehension has exactly
    these keys, in their order. *)
Lemma dict_fromkeys_sorted keys (v : V) :
  StronglySorted Qlt keys -> map fst (dict_fromkeys keys v) = keys.
Proof.
  intros Hs. unfold dict_fromkeys.
  rewrite dict_fromkeys_sorted_from; [reflexivity | exact Hs | intros ? ? []].
Qed.

End DictKeys.

Lemma mark_bin_same_keys adj letter row st price :
  map fst (fst (mark_bin adj letter row st price)) = map fst (fst st) /\
  map fst (snd (mark_bin adj letter row st price)) = map fst (snd st).
Proof.
  unfold mark_bin. destruct st as [mp cnt]. destruct (_ && _)%bool; [| now split].
  simpl. now rewrite !dict_update_same_keys.
Qed.

(** The loops of the profile construction never add or move a key. *)
Lemma fill_profile_keys adj price_bins df :
  StronglySorted Qlt price_bins ->
  map fst (fst (fill_profile adj price_bins df)) = price_bins /\
  map fst (snd (fill_profile adj price_bins df)) = price_bins.
Proof.
  intros Hs. unfold fill_profile.
  apply (fold_left_invariant
           (fun st => map fst (fst st) = price_bins /\ map fst (snd st) = price_bins)).
  - simpl. now rewrite !dict_fromkeys_sorted.
  - intros st [i row] _ Hst.
    apply (fold_left_invariant
             (fun st => map fst (fst st) = price_bins /\ map fst (snd st) = price_bins));
      [exact Hst |].
    intros st' price _ [H1 H2].
    destruct (mark_bin_same_keys adj (letter_of i) row st' price) as [E1 E2].
    split; [exact (eq_trans E1 H1) | exact (eq_trans E2 H2)].
Qed.

Lemma profile_frame_prices st : map Price (profile_frame st) = map fst (fst st).
Proof.
  destruct st as [mp cnt]. unfold profile_frame. rewrite map_map. simpl.
  apply map_ext. now intros [k v].
Qed.

Lemma sorted_map_Price rows :
  StronglySorted Qlt (map Price rows) -> ascending_prices rows.
Proof.
  unfold ascending_prices.
  induction rows as [| r rows IH]; intros Hs; simpl in Hs; constructor.
  - apply IH. now inversion Hs.
  - inversion Hs as [| ? ? _ Hall]. subst.
    pose proof (proj1 (Forall_forall _ _) Hall) as Hall'.
    apply Forall_forall. intros x Hx. apply Hall'.
    apply list_elem_of_In, in_map, list_elem_of_In, Hx.
Qed.

(** In exact arithmetic and with a positive tick size, the rows of the
    profile are the price bins, in strictly ascending price order. *)
Theorem profile_rows_ascending (df : list candle) (tick_size : Q) :
  0 < tick_size -> ascending_prices (profile_of_frame df tick_size).
Proof.
  intros Htick. unfold profile_of_frame. apply sorted_map_Price.
  rewrite profile_frame_prices.
  assert (Hadj : 0 < tick_size * 0.05) by lra.
  rewrite (proj1 (fill_profile_keys _ _ df (arange_sorted _ _ _ Hadj))).
  now apply arange_sorted.
Qed.

Lemma profile_rows_ascending_witness :
  0 < 0.05 /\ ascending_prices (profile_of_frame sample_yesterday 0.05).
Proof.
  assert (Htick : 0 < 0.05) by reflexivity.
  split; [exact Htick | exact (profile_rows_ascending sample_yesterday 0.05 Htick)].
Defined.

(** In exact arithmetic and with a positive tick size, the point of control
    of a frame is the price of a bin with letters whose count is the
    largest, and the lowest price among the bins that reach that count. *)
Theorem poc_of_frame_lowest_maximum (df : list candle) (tick_size poc : Q) :
  0 < tick_size ->
  poc_of_frame df tick_size = Some poc ->
  exists b,
    In b (profile_of_frame df tick_size) /\ Price b = poc /\
    TPO b <> EmptyString /\
    forall x, In x (profile_of_frame df tick_size) -> TPO x <> EmptyString ->
              (TPO_count x <= TPO_count b)%Z /\
              (TPO_count x = TPO_count b -> poc <= Price x).
Proof.
  intros Htick Hpoc.
  assert (Hdf : df <> []) by (intros ->; discriminate Hpoc).
  rewrite (poc_of_frame_profile df tick_size Hdf Htick) in Hpoc.
  destruct (poc_of_profile_Some _ _ Hpoc) as (r & Hr & Hne & _).
  destruct (poc_of_profile_first_maximum (profile_of_frame df tick_size))
    as (b & Hb & Hfirst); [now exists r |].
  rewrite Hb in Hpoc. injection Hpoc as <-.
  pose proof (first_maximum_lowest_price _ b Hfirst
                (profile_rows_ascending df tick_size Htick)) as Hlow.
  destruct Hfirst as (pre & post & Heq & Hbne & Hpre & Hpost).
  exists b. split; [rewrite Heq; apply in_or_app; right; now left |].
  split; [reflexivity |]. split; [exact Hbne |].
  intros x Hx Hxne. split; [| now apply Hlow].
  rewrite Heq in Hx. apply in_app_or in Hx as [Hx | [<- | Hx]].
  - specialize (Hpre x Hx Hxne). lia.
  - lia.
  - now apply Hpost.
Qed.

Lemma poc_of_frame_lowest_maximum_witness :
  0 < 0.05 /\ poc_of_frame sample_yesterday 0.05 = Some 99.99750000 /\
  exists b,
    In b (profile_of_frame sample_yesterday 0.05) /\ Price b = 99.99750000 /\
    TPO b <> EmptyString.
Proof.
  assert (Htick : 0 < 0.05) by reflexivity.
  assert (Hpoc : poc_of_frame sample_yesterday 0.05 = Some 99.99750000)
    by (vm_compute; reflexivity).
  split; [exact Htick | split; [exact Hpoc |]].
  destruct (poc_of_frame_lowest_maximum sample_yesterday 0.05 _ Htick Hpoc)
    as (b & Hin & Hp & Hne & _).
  exists b. split; [exact Hin | split; [exact Hp | exact Hne]].
Defined.

End Bins.

(** ** The Telegram alert *)

(** X3. [send_telegram_message] never raises. It posts at consecutive steps
    until a post returns, three times at most, and pauses one second after
    a post that raised and is not the third; it tells whether a post
    returned. *)
Theorem send_telegram_message_delivery (env : Env) (m : message) (n : nat) :
  let post i := requests_post env (i + n)%nat m in
  let k := if post 0%nat then 1%nat else if post 1%nat then 2%nat else 3%nat in
  exists tr,
    send_telegram_message env m n
    = (Ok (post 0%nat || post 1%nat || post 2%nat), (k + n)%nat, tr) /\
    posts tr = map (fun i => Telegram m (post i)) (seq 0 k) /\
    List.filter is_sleep tr = repeat (Sleep 1) (k - 1) /\
    length tr = (2 * k - 1)%nat.
Proof.
  cbv zeta. unfold send_telegram_message. simpl send_attempts.
  unfold bind, step, emit, sleep, ret. simpl.
  destruct (requests_post env n m) eqn:H0; simpl.
  { eexists. split; [reflexivity |]. simpl. rewrite ?H0. now repeat split. }
  destruct (requests_post env (S n) m) eqn:H1; simpl.
  { eexists. split; [reflexivity |]. simpl. rewrite ?H0, ?H1. now repeat split. }
  destruct (requests_post env (S (S n)) m) eqn:H2; simpl;
    (eexists; split; [reflexivity |]; simpl; rewrite ?H0, ?H1, ?H2; now repeat split).
Qed.

(** The events of [send_telegram_message]: a first post, then posts of the
    same message and pauses. *)
Lemma send_telegram_message_run (env : Env) (msg : message) (n : nat) :
  exists b k tr,
    send_telegram_message env msg n = (Ok b, k, tr) /\
    (exists d rest, tr = Telegram msg d :: rest) /\
    Forall (fun e => is_post e = true -> exists d, e = Telegram msg d) tr.
Proof.
  unfold send_telegram_message. simpl send_attempts.
  unfold bind, step, emit, sleep, ret. simpl.
  destruct (requests_post env n msg); simpl;
    [| destruct (requests_post env (S n) msg); simpl;
       [| destruct (requests_post env (S (S n)) msg); simpl ] ];
    (eexists _, _, _; split; [reflexivity |]; split; [now eexists _, _ |];
     repeat constructor; intros; try discriminate; now eexists).
Qed.

(** ** The holiday list *)

(** X4. [get_holidays] never raises and makes one request. The list it
    gives holds the dates of a successful answer that are there and not
    empty, and nothing else: it is empty when the answer is a failure or
    the request raised. *)
Theorem get_holidays_dates (env : Env) (n : nat) :
  exists dates,
    get_holidays env n = (Ok dates, S n, [Holidays dates]) /\
    forall d,
      In d dates <->
      d <> EmptyString /\
      exists data, client_holidays env n = ApiSuccess data /\ In (Some d) data.
Proof.
  unfold get_holidays, bind, step, emit, ret. simpl.
  eexists. split; [reflexivity |]. intros d.
  destruct (client_holidays env n) as [data | |].
  - rewrite <- list_elem_of_In, list_elem_of_omap. split.
    + intros ([[| c s] |] & Hin & Hd); try discriminate.
      injection Hd as <-. split; [discriminate |].
      exists data. split; [reflexivity | now apply list_elem_of_In].
    + intros (Hne & data' & [= <-] & Hin). exists (Some d).
      split; [now apply list_elem_of_In |]. destruct d; [congruence | reflexivity].
  - split; [intros [] | intros (_ & data & [=] & _)].
  - split; [intros [] | intros (_ & data & [=] & _)].
Qed.

(** ** Signals and their notification *)

Section Notification.
Context (env : Env) (symbol : string) (expiry_day : Z).

Lemma notified_ret_None : notified symbol expiry_day (ret None).
Proof.
  intros n r n' tr [= <- <- <-]. split; [constructor | intros s [=]].
Qed.

Lemma notifies_quiet r tr :
  Forall (fun e => is_post e = false) tr ->
  Forall (notifies symbol expiry_day r) tr.
Proof.
  intros H. eapply Forall_impl; [exact H |].
  intros e He. destruct e; try exact I. discriminate.
Qed.

Lemma notified_bind {A : Type} (m : M A) (k : A -> M (option side)) :
  emits (fun e => is_post e = false) m ->
  (forall a, notified symbol expiry_day (k a)) -> notified symbol expiry_day (x <- m ;; k x).
Proof.
  intros Hm Hk n r n' tr Hrun.
  apply bind_inv in Hrun as [(a & n1 & tr1 & tr2 & H1 & H2 & ->) | (e & H1 & ->)].
  - destruct (Hk a _ _ _ _ H2) as [Hall Hsig]. split.
    + apply Forall_app. split; [| exact Hall].
      apply notifies_quiet. exact (Hm _ _ _ _ H1).
    + intros s Hs. destruct (Hsig s Hs) as (msg & d & Hin & Hside).
      exists msg, d. split; [| exact Hside]. apply in_or_app. now right.
  - split; [| intros s [=]]. apply notifies_quiet. exact (Hm _ _ _ _ H1).
Qed.

Lemma send_then_signal msg s :
  msg_side msg = s -> msg_stock msg = clean_stock_name symbol expiry_day ->
  notified symbol expiry_day (send_telegram_message env msg ;; ret (Some s)).
Proof.
  intros Hside Hstock n r n' tr Hrun.
  destruct (send_telegram_message_run env msg n) as (b & k & trs & Hs & Hfirst & Hall).
  unfold bind in Hrun. rewrite Hs in Hrun. simpl in Hrun.
  injection Hrun as <- <- <-. rewrite app_nil_r. split.
  - eapply Forall_impl; [exact Hall |]. intros e He.
    destruct e; try exact I. simpl. destruct (He eq_refl) as (d & [= -> ->]).
    now rewrite Hside.
  - intros s' [= <-]. destruct Hfirst as (d & rest & ->).
    exists msg, d. split; [now left | exact Hside].
Qed.

Lemma notified_decide_signal poc atr fc_open fc_low fc_high ltp :
  notified symbol expiry_day (decide_signal env symbol expiry_day poc atr fc_open fc_low fc_high ltp).
Proof.
  unfold decide_signal.
  destruct (fc_open >? poc)%Q; [| destruct (fc_open <? poc)%Q].
  - destruct (forallb id _); [| apply notified_ret_None].
    now apply send_then_signal.
  - destruct (forallb id _); [| apply notified_ret_None].
    now apply send_then_signal.
  - apply notified_ret_None.
Qed.

Lemma notified_check_trading_conditions tick_size exchange holidays :
  notified symbol expiry_day
    (check_trading_conditions env symbol tick_size expiry_day exchange holidays).
Proof.
  assert (Hq : forall A (m : M A) k,
             emits (fun e => is_post e = false) m ->
             (forall a, notified symbol expiry_day (k a)) ->
             notified symbol expiry_day (x <- m ;; k x))
    by (intros; now apply notified_bind).
  unfold check_trading_conditions.
  apply Hq; [unfold now; emits_steps | intros t].
  apply Hq; [emits_steps | intros _].
  apply Hq; [emits_steps | intros _].
  apply Hq; [unfold calculate_poc, now, fetch_history; emits_steps | ].
  intros [poc |]; [| apply notified_ret_None].
  apply Hq; [unfold get_15min_candles, now, fetch_history; emits_steps | ].
  intros [[| c0 [| c1 cs]] |]; try apply notified_ret_None.
  apply Hq; [unfold calculate_atr, now, fetch_history; emits_steps | ].
  intros [atr |]; [| apply notified_ret_None].
  apply Hq; [unfold get_ltp; emits_steps | ].
  intros [ltp |]; [| apply notified_ret_None].
  apply notified_decide_signal.
Qed.

End Notification.

(** X5. An evaluation posts on Telegram exactly when it returns a signal:
    a BUY or SELL outcome comes with a post of that side, whether the post
    is delivered or not, and every post is one of the signal returned, for
    the stock name that [clean_stock_name] gives. *)
Theorem signal_iff_notification (env : Env) (symbol : string) (tick_size : Q)
    (expiry_day : Z) (exchange : string) (holidays : option (list string))
    (n : nat) :
  let run :=
    check_trading_conditions env symbol tick_size expiry_day exchange holidays in
  (forall s, outcome run n = Ok (Some s) <->
     exists msg d, In (Telegram msg d) (events run n) /\ msg_side msg = s) /\
  (forall msg d, In (Telegram msg d) (events run n) ->
     msg_stock msg = clean_stock_name symbol expiry_day).
Proof.
  intros run. unfold outcome, events.
  destruct (run n) as [[r n'] tr] eqn:Hrun. simpl.
  destruct (notified_check_trading_conditions env symbol expiry_day
              tick_size exchange holidays n r n' tr Hrun) as [Hall Hsig].
  pose proof (proj1 (List.Forall_forall _ _) Hall) as Hall'.
  split.
  - intros s. split; [apply Hsig |].
    intros (msg & d & Hin & <-). exact (proj1 (Hall' _ Hin)).
  - intros msg d Hin. exact (proj2 (Hall' _ Hin)).
Qed.

(** The sample session at 9:35 with the price above the first high: BUY,
    and a post for ACC. *)
Lemma signal_iff_notification_witness :
  let run :=
    check_trading_conditions (sample_env 738914 9 35 106) "ACC28AUG25FUT" 0.05 28
      "NFO" (Some ["2024-01-26"%string]) in
  outcome run 0%nat = Ok (Some BUY) /\
  exists msg d, In (Telegram msg d) (events run 0%nat) /\ msg_side msg = BUY.
Proof.
  intros run.
  assert (Hout : outcome run 0%nat = Ok (Some BUY)) by (vm_compute; reflexivity).
  split; [exact Hout |].
  exact (proj1 (proj1 (signal_iff_notification (sample_env 738914 9 35 106)
                         "ACC28AUG25FUT" 0.05%Q 28 "NFO"
                         (Some ["2024-01-26"%string]) 0%nat) BUY) Hout).
Defined.

(** ** The scheduler: the window, the evaluations of a cycle, the end of the loop *)

Lemma advances_ret {A : Type} (a : A) : advances (ret a).
Proof. intros n r n' tr [= <- <- <-]. lia. Qed.

Lemma advances_lift {A : Type} (x : result A) : advances (lift x).
Proof. intros n r n' tr [= <- <- <-]. lia. Qed.

Lemma advances_step : advances step.
Proof. intros n r n' tr [= <- <- <-]. lia. Qed.

Lemma advances_emit e : advances (emit e).
Proof. intros n r n' tr [= <- <- <-]. lia. Qed.

Lemma advances_bind {A B : Type} (m : M A) (k : A -> M B) :
  advances m -> (forall a, advances (k a)) -> advances (x <- m ;; k x).
Proof.
  intros Hm Hk n r n' tr Hrun.
  apply bind_inv in Hrun as [(a & n1 & tr1 & tr2 & H1 & H2 & ->) | (e & H1 & _)].
  - pose proof (Hm _ _ _ _ H1). pose proof (Hk _ _ _ _ _ H2). lia.
  - exact (Hm _ _ _ _ H1).
Qed.

Lemma advances_try {A : Type} (m : M A) : advances m -> advances (try m).
Proof.
  intros Hm n r n' tr. unfold try. destruct (m n) as [[r1 n1] tr1] eqn:Hrun.
  intros [= <- <- <-]. exact (Hm _ _ _ _ Hrun).
Qed.

Lemma advances_sleep z : advances (sleep z).
Proof. apply advances_emit. Qed.

Create HintDb advances discriminated.
#[local] Hint Resolve advances_ret advances_lift advances_step advances_emit
  advances_try advances_sleep : advances.

Ltac advances_steps :=
  repeat first
    [ apply advances_bind; [| intros ? ]
    | solve [ auto with advances ]
    | match goal with |- advances (if ?b then _ else _) => destruct b end
    | match goal with |- advances (match ?x with _ => _ end) => destruct x end ].

Lemma checks_app tr1 tr2 : checks (tr1 ++ tr2) = (checks tr1 + checks tr2)%nat.
Proof. unfold checks. now rewrite List.filter_app, length_app. Qed.

Lemma checks_quiet tr : Forall (fun e => is_check e = false) tr -> checks tr = 0%nat.
Proof.
  unfold checks. induction 1 as [| e tr He _ IH]; [reflexivity |].
  simpl. now rewrite He.
Qed.

Lemma leaf_no_check tr : Forall leaf tr -> Forall (fun e => is_check e = false) tr.
Proof.
  intros H. eapply Forall_impl; [exact H |]. intros e He. now destruct e.
Qed.

Section Passes.
Context (env : Env) (expiry_day : Z).

Lemma advances_send_attempts retries max_retries m :
  advances (send_attempts env retries max_retries m).
Proof.
  induction retries as [| retry rest IH]; simpl; [auto with advances |].
  unfold sleep. advances_steps; exact IH.
Qed.

Lemma advances_check_trading_conditions symbol tick_size exchange holidays :
  advances (check_trading_conditions env symbol tick_size expiry_day exchange holidays).
Proof.
  assert (Hsend : forall m, advances (send_telegram_message env m))
    by (intros m; apply advances_send_attempts).
  unfold check_trading_conditions, calculate_poc, get_15min_candles,
    calculate_atr, get_ltp, decide_signal, fetch_history, now.
  advances_steps; apply Hsend.
Qed.

(** One evaluation, whether it returns or raises: one [Checking] event. *)
Lemma evaluate_item_checks holidays A it n r n' tr :
  evaluate_item env expiry_day holidays A it n = (r, n', tr) ->
  checks tr = 1%nat /\ (n <= n')%nat.
Proof.
  intros Hrun. split.
  - unfold evaluate_item in Hrun.
    apply bind_inv in Hrun as [(a & n1 & tr1 & tr2 & H1 & H2 & ->) | (e & H1 & _)].
    + apply check_trading_conditions_events in H1 as (rest & -> & Hleaf).
      rewrite checks_app.
      assert (Hk : checks tr2 = 0%nat).
      { apply checks_quiet.
        assert (Hem : forall m : M (gset string),
                   emits (fun e => is_check e = false) m ->
                   m n1 = (r, n', tr2) -> Forall (fun e => is_check e = false) tr2)
          by (intros m Hm; apply Hm).
        eapply Hem; [| exact H2]. unfold sleep. emits_steps. }
      rewrite Hk. change (checks (Checking (symbol it) (tick_size it) (Some holidays) :: rest))
        with (S (checks rest)).
      rewrite (checks_quiet rest); [lia | now apply leaf_no_check].
    + apply check_trading_conditions_events in H1 as (rest & -> & Hleaf).
      change (checks (Checking (symbol it) (tick_size it) (Some holidays) :: rest))
        with (S (checks rest)).
      rewrite (checks_quiet rest); [lia | now apply leaf_no_check].
  - revert Hrun. apply (advances_bind _ _).
    + apply advances_check_trading_conditions.
    + intros a. unfold sleep. advances_steps.
Qed.

(** The primary pass returns; it evaluates each item at most once, and
    the failed list grows by the evaluations that raised. *)
Lemma primary_pass_checks holidays items : forall A failed n r n' tr,
  primary_pass env expiry_day holidays items A failed n = (r, n', tr) ->
  exists A' failed',
    r = Ok (A', failed') /\
    (checks tr <= length items)%nat /\
    (length failed' <= length failed + length items)%nat /\
    (n <= n')%nat.
Proof.
  induction items as [| it rest IH]; intros A failed n r n' tr; simpl.
  - intros [= <- <- <-]. exists A, failed. repeat split; change (checks []) with 0%nat; simpl length in *; lia.
  - destruct (decide (symbol it ∈ A)) as [Hal | Hal].
    + intros Hrun.
      apply bind_inv in Hrun as [(a & n1 & tr1 & tr2 & H1 & H2 & ->) | (e & H1 & _)];
        [| discriminate H1].
      injection H1 as <- <- <-.
      destruct (IH _ _ _ _ _ _ H2) as (A' & failed' & -> & Hc & Hf & Hn).
      exists A', failed'. rewrite checks_app.
      change (checks [SkipAlerted (symbol it)]) with 0%nat.
      repeat split; lia.
    + intros Hrun.
      apply bind_inv in Hrun as [(a & n1 & tr1 & tr2 & H1 & H2 & ->) | (e & H1 & _)].
      2:{ unfold try in H1. destruct (evaluate_item _ _ _ _ _ n) as [[? ?] ?].
          discriminate H1. }
      unfold try in H1.
      destruct (evaluate_item env expiry_day holidays A it n) as [[x nx] trx] eqn:Hev.
      injection H1 as <- <- <-.
      destruct (evaluate_item_checks _ _ _ _ _ _ _ Hev) as [Hone Hadv].
      rewrite checks_app, Hone.
      destruct x as [A1 | e].
      * destruct (IH _ _ _ _ _ _ H2) as (A' & failed' & -> & Hc & Hf & Hn).
        exists A', failed'. repeat split; change (checks []) with 0%nat; simpl length in *; lia.
      * apply bind_inv in H2 as [(a & n2 & tr3 & tr4 & H3 & H4 & ->) | (e' & H3 & _)];
          [| discriminate H3].
        injection H3 as <- <- <-.
        destruct (IH _ _ _ _ _ _ H4) as (A' & failed' & -> & Hc & Hf & Hn).
        exists A', failed'. rewrite checks_app.
        change (checks [Sleep 2]) with 0%nat.
        rewrite length_app in Hf. simpl in Hf. repeat split; change (checks []) with 0%nat; simpl length in *; lia.
Qed.

Lemma retry_pass_checks holidays failed : forall A n r n' tr,
  retry_pass env expiry_day holidays failed A n = (r, n', tr) ->
  exists A', r = Ok A' /\ (checks tr <= length failed)%nat /\ (n <= n')%nat.
Proof.
  induction failed as [| it rest IH]; intros A n r n' tr; simpl.
  - intros [= <- <- <-]. exists A. repeat split; change (checks []) with 0%nat; simpl length in *; lia.
  - destruct (decide (symbol it ∈ A)) as [Hal | Hal].
    + intros Hrun.
      apply bind_inv in Hrun as [(a & n1 & tr1 & tr2 & H1 & H2 & ->) | (e & H1 & _)];
        [| discriminate H1].
      injection H1 as <- <- <-.
      destruct (IH _ _ _ _ _ H2) as (A' & -> & Hc & Hn).
      exists A'. rewrite checks_app.
      change (checks [SkipAlerted (symbol it)]) with 0%nat.
      repeat split; change (checks []) with 0%nat; simpl length in *; lia.
    + intros Hrun.
      apply bind_inv in Hrun as [(a & n1 & tr1 & tr2 & H1 & H2 & ->) | (e & H1 & _)].
      2:{ unfold try in H1. destruct (evaluate_item _ _ _ _ _ n) as [[? ?] ?].
          discriminate H1. }
      unfold try in H1.
      destruct (evaluate_item env expiry_day holidays A it n) as [[x nx] trx] eqn:Hev.
      injection H1 as <- <- <-.
      destruct (evaluate_item_checks _ _ _ _ _ _ _ Hev) as [Hone Hadv].
      rewrite checks_app, Hone.
      destruct x as [A1 | e].
      * destruct (IH _ _ _ _ _ H2) as (A' & -> & Hc & Hn).
        exists A'. repeat split; change (checks []) with 0%nat; simpl length in *; lia.
      * apply bind_inv in H2 as [(a & n2 & tr3 & tr4 & H3 & H4 & ->) | (e' & H3 & _)];
          [| discriminate H3].
        injection H3 as <- <- <-.
        destruct (IH _ _ _ _ _ H4) as (A' & -> & Hc & Hn).
        exists A'. rewrite checks_app.
        change (checks [Sleep 2]) with 0%nat.
        repeat split; change (checks []) with 0%nat; simpl length in *; lia.
Qed.

Lemma window_tests t :
  in_window t = false -> after_window t = false -> before_first_candle t = true.
Proof.
  unfold in_window, after_window, before_first_candle.
  destruct (Z.ltb_spec 9 (hour t)), (Z.eqb_spec (hour t) 9),
    (Z.ltb_spec 45 (minute t)), (Z.leb_spec 30 (minute t)),
    (Z.leb_spec (minute t) 45), (Z.ltb_spec (hour t) 9),
    (Z.ltb_spec (minute t) 30); simpl; intros; try reflexivity;
    try discriminate; lia.
Qed.

Lemma window_body_checks symbols t st n r n' tr :
  window_body env expiry_day symbols t st n = (r, n', tr) ->
  exists c st',
    r = Ok (c, st') /\
    (checks tr <= 2 * length symbols)%nat /\ (n <= n')%nat /\
    (in_window t = false -> checks tr = 0%nat) /\
    (after_window t = true -> c = Break).
Proof.
  unfold window_body. fold (after_window t). fold (before_first_candle t).
  destruct (after_window t) eqn:Hafter.
  { intros [= <- <- <-]. exists Break, st. repeat split; change (checks []) with 0%nat; simpl length in *; lia. }
  destruct (before_first_candle t) eqn:Hbefore.
  { intros [= <- <- <-]. exists Continue, st.
    repeat split; try discriminate; change (checks [Sleep 60]) with 0%nat; simpl length; lia. }
  intros Hrun.
  assert (Hin : in_window t = true).
  { destruct (in_window t) eqn:E; [reflexivity |].
    rewrite (window_tests t E Hafter) in Hbefore. discriminate. }
  apply bind_inv in Hrun as [(p & n1 & tr1 & tr2 & H1 & H2 & ->) | (e & H1 & ->)].
  2:{ apply primary_pass_checks in H1 as (? & ? & [=] & _). }
  destruct (primary_pass_checks _ _ _ _ _ _ _ _ H1) as (A' & failed' & [= ->] & Hc & Hf & Hn).
  unfold symbol_data in Hc, Hf. rewrite length_map in Hc, Hf. simpl in Hf.
  assert (Hretry : exists A'' n2 tr3,
             (match failed' with
              | [] => ret A'
              | _ => retry_pass env expiry_day (holidays_of st) failed' A'
              end) n1 = (Ok A'', n2, tr3) /\
             (checks tr3 <= length failed')%nat /\ (n1 <= n2)%nat).
  { destruct failed' as [| f fs] eqn:Hfs.
    - exists A', n1, []. repeat split; change (checks []) with 0%nat; simpl length in *; lia.
    - destruct (retry_pass env expiry_day (holidays_of st) (f :: fs) A' n1)
        as [[r2 n2] tr3] eqn:Hr.
      destruct (retry_pass_checks _ _ _ _ _ _ _ Hr) as (A'' & -> & Hc2 & Hn2).
      now exists A'', n2, tr3. }
  destruct Hretry as (A'' & n2 & tr3 & Hr & Hc2 & Hn2).
  apply bind_inv in H2 as [(a & n3 & tr4 & tr5 & H3 & H4 & ->) | (e & H3 & ->)];
    [| rewrite Hr in H3; discriminate H3].
  rewrite Hr in H3. injection H3 as <- <- <-.
  destruct (size A'' =? length symbols)%nat.
  - injection H4 as <- <- <-. eexists _, _. split; [reflexivity |].
    rewrite !checks_app. change (checks []) with 0%nat.
    repeat split; try congruence; lia.
  - injection H4 as <- <- <-. eexists _, _. split; [reflexivity |].
    rewrite !checks_app. change (checks [Sleep 5]) with 0%nat.
    repeat split; try congruence; lia.
Qed.

Lemma rollover_run t st n r n' tr :
  rollover env t st n = (r, n', tr) ->
  exists st', r = Ok st' /\ checks tr = 0%nat /\ (n <= n')%nat.
Proof.
  unfold rollover. destruct (current_date st <? day t).
  - unfold get_holidays, bind, emit, step, ret. simpl.
    intros [= <- <- <-]. eexists. repeat split. lia.
  - intros [= <- <- <-]. exists st. repeat split. lia.
Qed.

(** One iteration returns and uses at least one step; it evaluates at most
    twice per symbol, and not at all outside the window; past the window it
    leaves the loop. *)
Lemma cycle_checks symbols st n r n' tr :
  cycle env expiry_day symbols st n = (r, n', tr) ->
  exists c st',
    r = Ok (c, st') /\
    (checks tr <= 2 * length symbols)%nat /\ (n < n')%nat /\
    (in_window (clock env n) = false -> checks tr = 0%nat) /\
    (after_window (clock env n) = true -> c = Break).
Proof.
  unfold cycle. intros Hrun.
  apply bind_inv in Hrun as [(t & n1 & tr1 & tr2 & H1 & H2 & ->) | (e & H1 & _)];
    [| discriminate H1].
  injection H1 as <- <- <-.
  apply bind_inv in H2 as [(st1 & n2 & tr3 & tr4 & H3 & H4 & ->) | (e & H3 & ->)].
  2:{ apply rollover_run in H3 as (? & [=] & _). }
  destruct (rollover_run _ _ _ _ _ _ H3) as (st1' & [= <-] & Hc0 & Hn0).
  destruct (window_body_checks _ _ _ _ _ _ _ H4)
    as (c & st' & -> & Hc & Hn & Hout & Hbreak).
  exists c, st'. split; [reflexivity |]. simpl. rewrite checks_app, Hc0.
  repeat split; auto; simpl; lia.
Qed.

(** Once the clock is past the window the loop ends within the steps that
    are left. *)
Lemma run_cycles_ends symbols N :
  (forall k, (N <= k)%nat -> after_window (clock env k) = true) ->
  forall fuel st n, (N <= n + fuel)%nat ->
    outcome (run_cycles env (S fuel) expiry_day symbols st) n = Ok true.
Proof.
  intros Hlate. induction fuel as [| fuel IH]; intros st n Hn.
  - unfold outcome. simpl. unfold bind.
    destruct (cycle env expiry_day symbols st n) as [[r n'] tr] eqn:Hc.
    destruct (cycle_checks _ _ _ _ _ _ Hc) as (c & st' & -> & _ & _ & _ & Hbreak).
    rewrite (Hbreak (Hlate n ltac:(lia))). reflexivity.
  - unfold outcome. change (run_cycles env (S (S fuel)) expiry_day symbols st)
      with (p <- cycle env expiry_day symbols st ;;
            match p with
            | (Break, _) => ret true
            | (Continue, st') => run_cycles env (S fuel) expiry_day symbols st'
            end).
    unfold bind.
    destruct (cycle env expiry_day symbols st n) as [[r n'] tr] eqn:Hc.
    destruct (cycle_checks _ _ _ _ _ _ Hc) as (c & st' & -> & _ & Hadv & _ & _).
    destruct c; [| reflexivity].
    specialize (IH st' n' ltac:(lia)). unfold outcome in IH.
    destruct (run_cycles env (S fuel) expiry_day symbols st' n') as [[r2 n2] tr2].
    simpl in IH. now rewrite IH.
Qed.

End Passes.

(** X6. One iteration of the loop never raises, whatever happens while an
    instrument is evaluated, and it evaluates at most twice per symbol of
    the list: once in the primary pass and once in the retry pass. *)
Theorem cycle_evaluations_bounded (env : Env) (expiry_day : Z)
    (symbols : list string) (st : session) (n : nat) :
  (exists c st', outcome (cycle env expiry_day symbols st) n = Ok (c, st')) /\
  (checks (events (cycle env expiry_day symbols st) n) <= 2 * length symbols)%nat.
Proof.
  unfold outcome, events.
  destruct (cycle env expiry_day symbols st n) as [[r n'] tr] eqn:Hc.
  destruct (cycle_checks _ _ _ _ _ _ _ _ Hc) as (c & st' & -> & Hb & _).
  split; [now exists c, st' | exact Hb].
Qed.

(** X7. The scheduler evaluates instruments only in an iteration that
    starts inside the window: when the time read at the top of the
    iteration is not between 9:30 and 9:45, no instrument is checked. *)
Theorem cycle_evaluates_only_in_window (env : Env) (expiry_day : Z)
    (symbols : list string) (st : session) (n : nat) :
  in_window (clock env n) = false ->
  checks (events (cycle env expiry_day symbols st) n) = 0%nat.
Proof.
  intros Hw. unfold events.
  destruct (cycle env expiry_day symbols st n) as [[r n'] tr] eqn:Hc.
  destruct (cycle_checks _ _ _ _ _ _ _ _ Hc) as (c & st' & _ & _ & _ & Hout & _).
  exact (Hout Hw).
Qed.

Lemma cycle_evaluates_only_in_window_witness :
  let env := sample_env 738914 9 0 106 in
  in_window (clock env 0) = false /\
  checks (events (cycle env 28 sample_symbols
                    {| alerted_symbols := ∅; current_date := 738914;
                       holidays_of := [] |}) 0) = 0%nat.
Proof.
  intros env.
  assert (Hw : in_window (clock env 0) = false) by reflexivity.
  split; [exact Hw |].
  exact (cycle_evaluates_only_in_window env 28 sample_symbols _ 0%nat Hw).
Defined.

(** X8. The loop of [signal_detection] ends: when from some step on the
    clock shows a time past 9:45, the loop is left by [break] as soon as
    that step is reached, each iteration using at least one step. *)
Theorem signal_detection_ends_after_window (env : Env) (symbols : list string)
    (expiry_day : Z) (N fuel n : nat) :
  (forall k, (N <= k)%nat -> after_window (clock env k) = true) ->
  (N <= n + 2 + fuel)%nat ->
  outcome (signal_detection env (S fuel) symbols expiry_day) n = Ok true.
Proof.
  intros Hlate Hn. unfold signal_detection.
  destruct (get_holidays_run env n) as (hs & Hh).
  rewrite (outcome_bind _ _ _ _ _ _ Hh).
  rewrite (outcome_bind _ _ _ _ _ _ (now_run env (S n))).
  apply (run_cycles_ends env expiry_day symbols N Hlate). lia.
Qed.

Lemma signal_detection_ends_after_window_witness :
  let env := sample_env 738914 10 0 106 in
  (forall k, (0 <= k)%nat -> after_window (clock env k) = true) /\
  outcome (signal_detection env 1 sample_symbols 28) 0 = Ok true.
Proof.
  intros env.
  assert (Hlate : forall k, (0 <= k)%nat -> after_window (clock env k) = true)
    by (intros k _; reflexivity).
  split; [exact Hlate |].
  apply (signal_detection_ends_after_window env sample_symbols 28 0 0 0 Hlate).
  lia.
Defined.

(** ** The instrument list of [masterlist.py] *)

Section MasterlistFacts.
Variable upper : string -> string.
Variable search : nat -> string -> api_result (list instrument).
Variable expiry_month : string.

Lemma search_stock_found futures_list i stock :
  search_stock upper search expiry_month futures_list i stock
  = futures_list ++ option_list (found upper search expiry_month i stock).
Proof.
  unfold search_stock, found.
  destruct (search i stock) as [[| ins rest] | |]; simpl; try now rewrite app_nil_r.
  destruct (if is_future_of _ _ _ then _ else _); simpl; [reflexivity | now rewrite app_nil_r].
Qed.

Lemma collect_found (l : list (nat * string)) : forall acc,
  fold_left
    (fun futures_list '(i, stock) =>
       search_stock upper search expiry_month futures_list i stock) l acc
  = acc ++ omap (fun '(i, stock) => found upper search expiry_month i stock) l.
Proof.
  induction l as [| [i stock] l IH]; intros acc; simpl; [now rewrite app_nil_r |].
  rewrite IH, search_stock_found, <- app_assoc. f_equal.
  now destruct (found upper search expiry_month i stock).
Qed.

Lemma get_futures_symbols_found :
  get_futures_symbols upper search expiry_month
  = omap (fun '(i, stock) => found upper search expiry_month i stock)
         (imap (fun i stock => (i, stock)) VALID_NAMES).
Proof. unfold get_futures_symbols. now rewrite collect_found. Qed.

(** The inner loop gives the entry of the first instrument that passes the
    filter. *)
Lemma first_future_Some stock data fut :
  first_future upper expiry_month stock data = Some fut ->
  exists pre ins post,
    data = pre ++ ins :: post /\
    Forall (fun x => is_future_of upper expiry_month
                       (default EmptyString (ins_symbol x)) = false) pre /\
    is_future_of upper expiry_month (default EmptyString (ins_symbol ins)) = true /\
    fut = entry_of stock ins.
Proof.
  induction data as [| x data IH]; simpl; [discriminate |].
  destruct (is_future_of upper expiry_month (default EmptyString (ins_symbol x))) eqn:Hx.
  - intros [= <-]. exists [], x, data. repeat split; [constructor | exact Hx].
  - intros Hf. destruct (IH Hf) as (pre & ins & post & -> & Hpre & Hins & ->).
    exists (x :: pre), ins, post. repeat split; [now constructor | exact Hins].
Qed.

Lemma found_name i stock fut :
  found upper search expiry_month i stock = Some fut -> fut_name fut = stock.
Proof.
  unfold found. destruct (search i stock) as [data | |]; try discriminate.
  intros Hf. apply first_future_Some in Hf as (? & ? & ? & _ & _ & _ & ->).
  reflexivity.
Qed.

Lemma names_sublist (l : list (nat * string)) :
  map fut_name (omap (fun '(i, stock) => found upper search expiry_month i stock) l)
  `sublist_of` map snd l.
Proof.
  induction l as [| [i stock] l IH]; simpl; [constructor |].
  destruct (found upper search expiry_month i stock) as [fut |] eqn:Hf; simpl.
  - rewrite (found_name _ _ _ Hf). now constructor.
  - now constructor.
Qed.

Lemma imap_pair_snd {A : Type} (l : list A) : forall (g : nat -> nat),
  map snd (imap (fun i x => (g i, x)) l) = l.
Proof.
  induction l as [| x l IH]; intros g; simpl; [reflexivity |].
  f_equal. exact (IH (fun i => g (S i))).
Qed.

End MasterlistFacts.

Lemma NoDup_VALID_NAMES : NoDup VALID_NAMES.
Proof. apply (bool_decide_unpack _). vm_compute. reflexivity. Qed.

(** X9. The list that [get_futures_symbols] returns has at most one entry
    per valid name, in the order of [VALID_NAMES], whatever the searches
    answer: a failure, an exception or an answer without a future of the
    month leaves the name out and the others in. *)
Theorem masterlist_one_entry_per_name (upper : string -> string)
    (search : nat -> string -> api_result (list instrument))
    (expiry_month : string) :
  let futures := get_futures_symbols upper search expiry_month in
  map fut_name futures `sublist_of` VALID_NAMES /\
  NoDup (map fut_name futures) /\
  (length futures <= 100)%nat.
Proof.
  intros futures.
  assert (Hsub : map fut_name futures `sublist_of` VALID_NAMES).
  { unfold futures. rewrite get_futures_symbols_found.
    rewrite <- (imap_pair_snd VALID_NAMES (fun i => i)) at 2.
    apply names_sublist. }
  split; [exact Hsub |]. split.
  - exact (sublist_NoDup _ _ NoDup_VALID_NAMES Hsub).
  - apply sublist_length in Hsub. rewrite length_map in Hsub. exact Hsub.
Qed.

(** X10. Every entry of the list is the first instrument, in the answer to
    the search for its name, whose symbol contains FUT and, in upper case,
    the month in upper case; the fields that the instrument lacks take the
    defaults: no token, lot size 1, tick size 0.05. *)
Theorem masterlist_entry_is_first_match (upper : string -> string)
    (search : nat -> string -> api_result (list instrument))
    (expiry_month : string) (fut : future) :
  In fut (get_futures_symbols upper search expiry_month) ->
  exists i data pre ins post,
    VALID_NAMES !! i = Some (fut_name fut) /\
    search i (fut_name fut) = ApiSuccess data /\
    data = pre ++ ins :: post /\
    Forall (fun x => is_future_of upper expiry_month
                       (default EmptyString (ins_symbol x)) = false) pre /\
    contains "FUT" (fut_symbol fut) = true /\
    contains (upper expiry_month) (upper (fut_symbol fut)) = true /\
    fut = entry_of (fut_name fut) ins.
Proof.
  rewrite get_futures_symbols_found. intros Hin.
  apply list_elem_of_In, list_elem_of_omap in Hin as ([i stock] & Hi & Hf).
  apply list_elem_of_lookup in Hi as (j & Hj).
  rewrite list_lookup_imap in Hj.
  destruct (VALID_NAMES !! j) as [name |] eqn:Hname; [| discriminate].
  injection Hj as <- <-.
  unfold found in Hf.
  destruct (search j name) as [data | |] eqn:Hs; try discriminate.
  apply first_future_Some in Hf as (pre & ins & post & -> & Hpre & Hins & ->).
  simpl fut_name. simpl fut_symbol.
  exists j, (pre ++ ins :: post), pre, ins, post.
  unfold is_future_of in Hins. apply andb_prop in Hins as [H1 H2].
  repeat split; assumption.
Qed.

(** The sample search for the month aug: the future of ACC, after an
    option that is skipped and before a later future; nothing for TCS and
    the other names. *)
Lemma masterlist_entry_is_first_match_witness :
  let fut := {| fut_symbol := "ACC28AUG25FUT"; fut_name := "ACC"; fut_token := "";
                fut_lotsize := 1; fut_tick_size := 0.05%Q |} in
  get_futures_symbols ascii_upper sample_search "aug" = [fut] /\
  exists i data pre ins post,
    VALID_NAMES !! i = Some "ACC"%string /\
    sample_search i "ACC" = ApiSuccess data /\
    data = pre ++ ins :: post /\
    length pre = 1%nat /\ fut = entry_of "ACC" ins.
Proof.
  intros fut.
  assert (Hres : get_futures_symbols ascii_upper sample_search "aug" = [fut])
    by (vm_compute; reflexivity).
  split; [exact Hres |].
  assert (Hin : In fut (get_futures_symbols ascii_upper sample_search "aug"))
    by (rewrite Hres; now left).
  destruct (masterlist_entry_is_first_match ascii_upper sample_search "aug" fut Hin)
    as (i & data & pre & ins & post & Hi & Hs & Hd & Hpre & _ & _ & He).
  exists i, data, pre, ins, post. repeat split; try assumption.
  vm_compute in Hs. injection Hs as <-.
  destruct pre as [| x [| y pre]].
  - injection Hd as <- _. vm_compute in He. discriminate He.
  - reflexivity.
  - exfalso. inversion Hpre as [| ? ? _ Hrest]. subst.
    inversion Hrest as [| ? ? Hy _]. subst.
    injection Hd as _ <- _. vm_compute in Hy. discriminate Hy.
Defined.

(** ** From [masterlist.py] to [alpha15.py]: the symbols file *)

Lemma string_app_cons x (a b : string) :
  (String x a ++ b)%string = String x (a ++ b).
Proof. reflexivity. Qed.

Lemma string_app_nil_l (a : string) : (EmptyString ++ a)%string = a.
Proof. reflexivity. Qed.

Lemma string_app_assoc (a b c : string) :
  ((a ++ b) ++ c = a ++ (b ++ c))%string.
Proof.
  induction a as [| x a IH]; [reflexivity |].
  rewrite !string_app_cons. now rewrite IH.
Qed.

Lemma string_app_nil_r (a : string) : (a ++ "" = a)%string.
Proof.
  induction a as [| x a IH]; [reflexivity |].
  rewrite string_app_cons. now rewrite IH.
Qed.

Lemma save_symbols_text futures : forall acc,
  fold_left (fun f fut => (f ++ fut_symbol fut ++ String LF EmptyString)%string)
            futures acc
  = (acc ++ text_of (map fut_symbol futures))%string.
Proof.
  induction futures as [| fut futures IH]; intros acc.
  - simpl. now rewrite string_app_nil_r.
  - cbn [fold_left map text_of]. rewrite IH.
    rewrite (string_app_assoc acc), (string_app_assoc (fut_symbol fut)).
    reflexivity.
Qed.

Lemma universal_newlines_no_CR s :
  (forall c, In c (list_ascii_of_string s) -> Ascii.eqb c CR = false) ->
  universal_newlines s = s.
Proof.
  induction s as [| c s IH]; intros Hs; simpl; [reflexivity |].
  rewrite (Hs c (or_introl eq_refl)). f_equal. apply IH.
  intros c' Hc'. apply Hs. now right.
Qed.

Lemma text_of_no_CR lines :
  Forall (fun s => single_line s = true) lines ->
  forall c, In c (list_ascii_of_string (text_of lines)) -> Ascii.eqb c CR = false.
Proof.
  induction 1 as [| s lines Hs _ IH]; simpl; [intros c [] |].
  induction s as [| x s IHs]; rewrite ?string_app_cons, ?string_app_nil_l; simpl.
  - intros c [<- | Hc]; [reflexivity | now apply IH].
  - simpl in Hs. apply andb_prop in Hs as [Hx Hs]. apply andb_prop in Hx as [_ Hx].
    intros c [<- | Hc]; [now apply negb_true_iff in Hx | now apply IHs].
Qed.

Lemma lines_from_line s rest : forall cur,
  single_line s = true ->
  lines_from cur (s ++ String LF rest) = (cur ++ s)%string :: lines_from EmptyString rest.
Proof.
  induction s as [| x s IH]; intros cur Hs;
    rewrite ?string_app_cons, ?string_app_nil_l; simpl.
  - rewrite ?Ascii.eqb_refl. now rewrite string_app_nil_r.
  - simpl in Hs. apply andb_prop in Hs as [Hx Hs]. apply andb_prop in Hx as [Hx _].
    apply negb_true_iff in Hx. rewrite Hx. rewrite (IH _ Hs).
    now rewrite string_app_assoc, string_app_cons, string_app_nil_l.
Qed.

Lemma lines_from_text lines :
  Forall (fun s => single_line s = true) lines ->
  lines_from EmptyString (text_of lines) = lines.
Proof.
  induction 1 as [| s lines Hs _ IH]; simpl; [reflexivity |].
  rewrite (lines_from_line s _ EmptyString Hs), string_app_nil_l. now rewrite IH.
Qed.

Lemma clean_symbol_parts s :
  clean_symbol s = true -> s <> EmptyString /\ strip s = s /\ single_line s = true.
Proof.
  unfold clean_symbol. intros H.
  apply andb_prop in H as [H Hl]. apply andb_prop in H as [Hne Hs].
  split; [| split; [now apply String.eqb_eq | exact Hl]].
  intros ->. discriminate.
Qed.

(** X11. The symbols that [save_symbols] writes are the symbols that
    [load_symbols] reads back, in the same order, when each of them is not
    empty, has no white space at its ends and holds no line break. *)
Theorem symbols_file_round_trip (futures_list : list future) :
  Forall (fun fut => clean_symbol (fut_symbol fut) = true) futures_list ->
  load_symbols (save_symbols futures_list) = map fut_symbol futures_list.
Proof.
  intros Hclean. unfold load_symbols, save_symbols.
  rewrite save_symbols_text, string_app_nil_l.
  assert (Hlines : Forall (fun s => single_line s = true) (map fut_symbol futures_list)).
  { apply List.Forall_forall. intros s Hs. apply in_map_iff in Hs as (fut & <- & Hfut).
    pose proof (proj1 (List.Forall_forall _ _) Hclean fut Hfut) as Hc.
    exact (proj2 (proj2 (clean_symbol_parts _ Hc))). }
  rewrite (universal_newlines_no_CR _ (text_of_no_CR _ Hlines)).
  rewrite (lines_from_text _ Hlines).
  clear Hlines. induction Hclean as [| fut futures Hfut _ IH]; [reflexivity |].
  simpl. destruct (clean_symbol_parts _ Hfut) as (Hne & Hstrip & _).
  rewrite Hstrip. destruct (fut_symbol fut) eqn:Hs; [congruence |].
  simpl. f_equal. exact IH.
Qed.

Lemma symbols_file_round_trip_witness :
  Forall (fun fut => clean_symbol (fut_symbol fut) = true) sample_futures /\
  load_symbols (save_symbols sample_futures) = ["ACC28AUG25FUT"%string].
Proof.
  assert (H : Forall (fun fut => clean_symbol (fut_symbol fut) = true) sample_futures)
    by (constructor; [vm_compute; reflexivity | constructor]).
  split; [exact H |].
  exact (symbols_file_round_trip sample_futures H).
Defined.

(** ** The stock name of an alert *)

Lemma split_first_prefix pat s : exists rest, s = (split_first pat s ++ rest)%string.
Proof.
  induction s as [| c s IH]; [exists EmptyString; reflexivity |].
  change (split_first pat (String c s))
    with (if String.prefix pat (String c s) then EmptyString
          else String c (split_first pat s)).
  destruct (String.prefix pat (String c s)).
  - exists (String c s). reflexivity.
  - destruct IH as (rest & Hrest). exists rest.
    rewrite string_app_cons. now rewrite <- Hrest.
Qed.

Lemma decimal_starts_with_digit d :
  0 <= d ->
  exists c rest,
    NilZero.string_of_int (Z.to_int d) = String c rest /\
    ((48 <=? nat_of_ascii c) && (nat_of_ascii c <=? 57))%nat = true.
Proof.
  intros Hd. destruct d as [| p | p]; [| | lia].
  - now eexists _, _.
  - simpl. destruct (Pos.to_uint p); simpl; now eexists _, _.
Qed.

Lemma prefix_app_refl a b : String.prefix a (a ++ b) = true.
Proof.
  induction a as [| x a IH]; [now destruct b |].
  rewrite string_app_cons. simpl.
  destruct (ascii_dec x x); [exact IH | congruence].
Qed.

Lemma split_first_name pat c0 pat' name rest :
  pat = String c0 pat' ->
  ((48 <=? nat_of_ascii c0) && (nat_of_ascii c0 <=? 57))%nat = true ->
  no_digit name = true ->
  split_first pat (name ++ pat ++ rest) = name.
Proof.
  intros -> Hc0. induction name as [| x name IH]; intros Hname.
  - rewrite string_app_nil_l, string_app_cons.
    change (split_first (String c0 pat') (String c0 (pat' ++ rest)))
      with (if String.prefix (String c0 pat') (String c0 pat' ++ rest)
            then EmptyString
            else String c0 (split_first (String c0 pat') (pat' ++ rest))).
    now rewrite prefix_app_refl.
  - change (no_digit (String x name))
      with (negb ((48 <=? nat_of_ascii x) && (nat_of_ascii x <=? 57))%nat
            && no_digit name) in Hname.
    apply andb_prop in Hname as [Hx Hname].
    rewrite string_app_cons.
    change (split_first (String c0 pat') (String x (name ++ String c0 pat' ++ rest)))
      with (if String.prefix (String c0 pat') (String x (name ++ String c0 pat' ++ rest))
            then EmptyString
            else String x (split_first (String c0 pat')
                             (name ++ String c0 pat' ++ rest))).
    simpl String.prefix. destruct (ascii_dec c0 x) as [-> | Hne].
    + rewrite Hc0 in Hx. discriminate.
    + f_equal. apply IH. exact Hname.
Qed.

(** X12. The stock name of an alert is a prefix of the symbol; for a symbol
    made of a name without digits, the expiry day and a rest, it is the
    name. *)
Theorem clean_stock_name_gives_name (expiry_day : Z) :
  (forall fut_symbol,
     exists rest,
       fut_symbol = (clean_stock_name fut_symbol expiry_day ++ rest)%string) /\
  (0 <= expiry_day ->
   forall name rest,
     no_digit name = true ->
     clean_stock_name (name ++ decimal expiry_day ++ rest) expiry_day = name).
Proof.
  split.
  - intros fut_symbol. apply split_first_prefix.
  - intros Hd name rest Hname. unfold clean_stock_name, decimal.
    destruct (decimal_starts_with_digit expiry_day Hd) as (c0 & pat' & Hpat & Hc0).
    now apply (split_first_name _ c0 pat').
Qed.

Lemma clean_stock_name_gives_name_witness :
  0 <= 28 /\ no_digit "BAJAJ-AUTO" = true /\
  clean_stock_name "BAJAJ-AUTO28AUG25FUT" 28 = "BAJAJ-AUTO"%string.
Proof.
  assert (Hd : 0 <= 28) by lia.
  assert (Hn : no_digit "BAJAJ-AUTO" = true) by reflexivity.
  split; [exact Hd | split; [exact Hn |]].
  exact (proj2 (clean_stock_name_gives_name 28) Hd "BAJAJ-AUTO"%string
               "AUG25FUT"%string Hn).
Defined.

(** No valid name has a digit: the alert for a future of a valid name shows
    that name. *)
Example valid_names_without_digits : forallb no_digit VALID_NAMES = true.
Proof. vm_compute. reflexivity. Qed.

(** ** The credentials file *)

Lemma contains_cons pat c s :
  contains pat (String c s) = String.prefix pat (String c s) || contains pat s.
Proof. reflexivity. Qed.

Lemma contains_equals_line key value :
  contains "=" (key ++ "=" ++ value) = true.
Proof.
  induction key as [| c key IH].
  - rewrite string_app_nil_l, string_app_cons, contains_cons. simpl String.prefix.
    now destruct value.
  - rewrite string_app_cons, contains_cons, IH. apply orb_true_r.
Qed.

Lemma split_equals_line key value :
  contains "=" key = false ->
  split_equals (key ++ "=" ++ value) = (key, value).
Proof.
  induction key as [| c key IH]; intros Hkey.
  - reflexivity.
  - rewrite contains_cons in Hkey. apply orb_false_elim in Hkey as [Hc Hkey].
    rewrite string_app_cons.
    change (split_equals (String c (key ++ "=" ++ value)))
      with (if Ascii.eqb c "="%char then (EmptyString, (key ++ "=" ++ value)%string)
            else let '(k, v) := split_equals (key ++ "=" ++ value) in (String c k, v)).
    rewrite (IH Hkey).
    destruct (Ascii.eqb c "="%char) eqn:Heq; [| reflexivity].
    apply Ascii.eqb_eq in Heq. subst c. simpl in Hc. now destruct key.
Qed.

Lemma clean_credential_parts kv :
  clean_credential kv = true ->
  contains "=" (fst kv) = false /\
  single_line (credential_line kv) = true /\
  strip (credential_line kv) = credential_line kv.
Proof.
  unfold clean_credential. intros H.
  apply andb_prop in H as [H Hs]. apply andb_prop in H as [Hk Hl].
  split; [now apply negb_true_iff in Hk |]. split; [exact Hl |].
  now apply String.eqb_eq.
Qed.

Lemma load_lines (lines : list (string * string)) :
  forall creds : gmap string string,
  Forall (fun kv => clean_credential kv = true) lines ->
  fold_left
    (fun (creds : gmap string string) line =>
       if contains "=" line then
         let '(key, value) := split_equals (strip line) in
         <[ key := value ]> creds
       else creds)
    (map credential_line lines) creds
  = fold_left (fun (creds : gmap string string) kv => <[ fst kv := snd kv ]> creds)
      lines creds.
Proof.
  induction lines as [| [k v] lines IH]; intros creds Hclean; [reflexivity |].
  inversion Hclean as [| ? ? Hkv Hrest]. subst.
  destruct (clean_credential_parts _ Hkv) as (Hk & _ & Hstrip).
  assert (Hline : credential_line (k, v) = (k ++ "=" ++ v)%string) by reflexivity.
  cbn [map fold_left]. rewrite Hstrip, Hline.
  rewrite contains_equals_line, (split_equals_line k v Hk).
  now apply IH.
Qed.

(** X13. The credentials file is read line by line: a file whose lines are
    [key=value], the key without an equals sign and the line without white
    space at its ends, gives the dictionary in which each key has the value
    of its last line; the value is everything after the first equals sign. *)
Theorem load_credentials_of_lines (lines : list (string * string)) :
  Forall (fun kv => clean_credential kv = true) lines ->
  load_credentials (text_of (map credential_line lines))
  = fold_left (fun (creds : gmap string string) kv => <[ fst kv := snd kv ]> creds)
      lines ∅.
Proof.
  intros Hclean. unfold load_credentials.
  assert (Hlines : Forall (fun s => single_line s = true) (map credential_line lines)).
  { apply List.Forall_forall. intros s Hs. apply in_map_iff in Hs as (kv & <- & Hkv).
    pose proof (proj1 (List.Forall_forall _ _) Hclean kv Hkv) as Hc.
    exact (proj1 (proj2 (clean_credential_parts _ Hc))). }
  rewrite (universal_newlines_no_CR _ (text_of_no_CR _ Hlines)).
  rewrite (lines_from_text _ Hlines).
  now apply load_lines.
Qed.

(** A host with an equals sign in it, and a key given twice. *)
Lemma load_credentials_of_lines_witness :
  let lines :=
    [ ("chat_id", "1"); ("OPENALGO_HOST", "http://127.0.0.1:5000/?a=b");
      ("chat_id", "42") ]%string in
  Forall (fun kv => clean_credential kv = true) lines /\
  load_credentials (text_of (map credential_line lines)) !! "chat_id"%string
  = Some "42"%string /\
  load_credentials (text_of (map credential_line lines)) !! "OPENALGO_HOST"%string
  = Some "http://127.0.0.1:5000/?a=b"%string.
Proof.
  intros lines.
  assert (H : Forall (fun kv => clean_credential kv = true) lines)
    by (repeat (constructor; [vm_compute; reflexivity |]); constructor).
  split; [exact H |].
  rewrite (load_credentials_of_lines lines H).
  split; reflexivity.
Defined.

(** A line without an equals sign is skipped, and white space around the
    equals sign belongs to the key and to the value. *)
Example load_credentials_samples :
  load_credentials "# keys
bot_token = abc
" !! "bot_token "%string = Some " abc"%string /\
  load_credentials "# keys
bot_token = abc
" !! "bot_token"%string = None.
Proof. split; vm_compute; reflexivity. Qed.
